(** * napari-time-slicer: the workflow task graph and its manager

    A shallow embedding of [src/napari_time_slicer/_workflow.py]:
    the [Workflow] class (a dask-style task dictionary with its dependency
    queries) and the [WorkflowManager] (validity flags kept in the layers'
    metadata, recursive invalidation, the scan for the first invalid layer
    and the background recompute step).

    Python objects are values of [pyobj]; exceptions are values of [exn];
    a method is a computation in the state-and-exception monad [M S], whose
    state survives a raised exception, as the attributes of a Python object
    do. *)

From stdpp Require Import gmap strings list fin_maps.

Open Scope string_scope.
Open Scope list_scope.

(** ** Python values and exceptions *)

(** A function object is known by its name; what it computes and which
    parameters it declares is given by the [Runtime] below. *)
Definition fid := string.

(** The Python values that recipes and layers hold.  A dictionary value
    has string keys and lists its items in some order; the model builds one
    only for the keywords that a var-keyword parameter collects. *)
#[warnings="-register-all"]
Inductive pyobj : Type :=
| PNone
| PBool (b : bool)
| PInt (z : Z)
| PStr (s : string)
| PTuple (xs : list pyobj)
| PList (xs : list pyobj)
| PDict (items : list (string * pyobj))
| PFun (f : fid).

Inductive exn : Type :=
| TypeError | KeyError | NameError | IndexError | ValueError | RecursionError.

Inductive result (A : Type) : Type :=
| Ok (a : A)
| Raise (e : exn).
Arguments Ok {A} a.
Arguments Raise {A} e.

Definition is_Ok {A} (r : result A) : bool :=
  match r with Ok _ => true | Raise _ => false end.

(** [callable(x)] *)
Definition callable (x : pyobj) : bool :=
  match x with PFun _ => true | _ => false end.

(** [isinstance(x, str)]: the string when [x] is one. *)
Definition as_str (x : pyobj) : option string :=
  match x with PStr s => Some s | _ => None end.

Fixpoint chars (s : string) : list pyobj :=
  match s with
  | EmptyString => []
  | String c s' => PStr (String c EmptyString) :: chars s'
  end.

(** [for source in x]: the elements the loop visits; a value that is not
    iterable raises [TypeError].  A string yields its characters, a
    dictionary its keys. *)
Definition py_iter (x : pyobj) : result (list pyobj) :=
  match x with
  | PStr s => Ok (chars s)
  | PTuple xs | PList xs => Ok xs
  | PDict items => Ok (PStr <$> items.*1)
  | PNone | PBool _ | PInt _ | PFun _ => Raise TypeError
  end.

(** [x == False] *)
Definition py_eq_False (x : pyobj) : bool :=
  match x with
  | PBool b => negb b
  | PInt z => Z.eqb z 0
  | _ => false
  end.

(** ** The state-and-exception monad *)

Definition M (S A : Type) : Type := S → result A * S.

Definition ret {S A} (a : A) : M S A := λ s, (Ok a, s).
Definition raise {S A} (e : exn) : M S A := λ s, (Raise e, s).
Definition bind {S A B} (m : M S A) (k : A → M S B) : M S B :=
  λ s, match m s with
       | (Ok a, s') => k a s'
       | (Raise e, s') => (Raise e, s')
       end.
Definition gets {S A} (f : S → A) : M S A := λ s, (Ok (f s), s).
Definition modify {S} (f : S → S) : M S unit := λ s, (Ok tt, f s).
Definition lift {S A} (r : result A) : M S A := λ s, (r, s).

#[global] Instance M_ret {S} : MRet (M S) := @ret S.
#[global] Instance M_bind {S} : MBind (M S) := λ A B k m, bind m k.

(** [for x in xs: body(x)] *)
Fixpoint for_each {S A} (xs : list A) (body : A → M S unit) : M S unit :=
  match xs with
  | [] => mret tt
  | x :: xs' => body x;; for_each xs' body
  end.

(** [for x in xs: r = body(x); if r is not None: return r] followed by
    falling through with nothing found. *)
Fixpoint first_some {S A B} (xs : list A) (body : A → M S (option B))
  : M S (option B) :=
  match xs with
  | [] => mret None
  | x :: xs' =>
      r ← body x;
      match r with
      | Some b => mret (Some b)
      | None => first_some xs' body
      end
  end.

(** ** Insertion-ordered dictionaries with string keys *)

Module Dict.
Definition t (V : Type) : Type := list (string * V).

Definition keys {V} (d : t V) : list string := d.*1.

(** [k in d] *)
Definition mem {V} (k : string) (d : t V) : bool :=
  bool_decide (k ∈ keys d).

(** [d[k]], [None] standing for [KeyError] *)
Fixpoint get {V} (d : t V) (k : string) : option V :=
  match d with
  | [] => None
  | (k', v) :: d' => if String.eqb k' k then Some v else get d' k
  end.

(** [d[k] = v]: an existing key keeps its place, a new one goes last. *)
Fixpoint set {V} (d : t V) (k : string) (v : V) : t V :=
  match d with
  | [] => [(k, v)]
  | (k', v') :: d' =>
      if String.eqb k' k then (k', v) :: d' else (k', v') :: set d' k v
  end.

(** [d.pop(k)] for a key that is present *)
Fixpoint pop {V} (d : t V) (k : string) : t V :=
  match d with
  | [] => []
  | (k', v') :: d' =>
      if String.eqb k' k then d' else (k', v') :: pop d' k
  end.

(** A dictionary holds each key once. *)
Definition ok {V} (d : t V) : Prop := NoDup (keys d).
End Dict.

#[global] Instance result_ret : MRet result := @Ok.
#[global] Instance result_bind : MBind result := λ A B k r,
  match r with Ok a => k a | Raise e => Raise e end.

(** ** What the Python runtime supplies *)

(** The kinds of parameter a [def] can declare, in the order in which a
    signature lists them: in [def f(a, /, b, *c, d, **e)], [a] is
    positional-only, [b] positional-or-keyword, [c] collects the further
    positional arguments, [d] is keyword-only and [e] collects the further
    keyword arguments. *)
Inductive param_kind : Type :=
| POSITIONAL_ONLY
| POSITIONAL_OR_KEYWORD
| VAR_POSITIONAL
| KEYWORD_ONLY
| VAR_KEYWORD.

(** [kind == kind'] *)
Definition kind_eqb (kind kind' : param_kind) : bool :=
  match kind, kind' with
  | POSITIONAL_ONLY, POSITIONAL_ONLY
  | POSITIONAL_OR_KEYWORD, POSITIONAL_OR_KEYWORD
  | VAR_POSITIONAL, VAR_POSITIONAL
  | KEYWORD_ONLY, KEYWORD_ONLY
  | VAR_KEYWORD, VAR_KEYWORD => true
  | _, _ => false
  end.

(** A declared parameter: its name, its kind and its default value, if
    any. *)
Record param := {
  pname : string;
  pkind : param_kind;
  pdefault : option pyobj
}.

Class Runtime := {
  (** [inspect.signature(f).parameters], in declaration order *)
  signature : fid → list param;
  (** calling [f] on positional arguments: the value returned, or the
      exception raised *)
  call : fid → list pyobj → result pyobj;
  (** [np.asarray(x)] *)
  asarray : pyobj → result pyobj;
  (** what [dask]'s [get] computes for a task dictionary and a key *)
  dask_get : Dict.t pyobj → string → result pyobj
}.

(** Calling the object [function] on [arguments]; only function objects
    can be called. *)
Definition call_obj {rt : Runtime} (function : pyobj) (arguments : list pyobj)
  : result pyobj :=
  match function with
  | PFun f => call f arguments
  | _ => Raise TypeError
  end.

(** *** [inspect.Signature.bind] and [BoundArguments.apply_defaults] *)

Module Signature.
(** [param.name in kwargs] *)
Definition in_kwargs (kwargs : gmap string pyobj) (p : param) : bool :=
  bool_decide (is_Some (kwargs !! pname p)).

(** The [while True] loop of [_bind]: the positional arguments take the
    parameters in order.  Returns the bound pairs and the parameters that
    the second loop goes through: [parameters_ex] followed by what is left
    in the iterator [parameters].

    With no argument left, the next parameter is taken from the iterator:
    a var-positional one is dropped, one that is passed by keyword, has a
    default or is var-keyword is handed to the second loop, any other is
    missing.  With an argument in hand, a var-positional parameter takes it
    and all that follow as a tuple; a positional parameter takes it, unless
    it is also passed by keyword. *)
Fixpoint bind_positional (params : list param) (args : list pyobj)
    (kwargs : gmap string pyobj) {struct args}
  : result (Dict.t pyobj * list param) :=
  match args with
  | [] =>
      match params with
      | [] => Ok ([], [])
      | p :: params' =>
          if kind_eqb (pkind p) VAR_POSITIONAL then Ok ([], params')
          else if in_kwargs kwargs p then
            if kind_eqb (pkind p) POSITIONAL_ONLY then Raise TypeError
            else Ok ([], p :: params')
          else if kind_eqb (pkind p) VAR_KEYWORD
                  || bool_decide (is_Some (pdefault p)) then
            Ok ([], p :: params')
          else Raise TypeError
      end
  | arg_val :: args' =>
      match params with
      | [] => Raise TypeError
      | p :: params' =>
          if kind_eqb (pkind p) VAR_KEYWORD || kind_eqb (pkind p) KEYWORD_ONLY
          then Raise TypeError
          else if kind_eqb (pkind p) VAR_POSITIONAL then
            Ok ([(pname p, PTuple (arg_val :: args'))], params')
          else if in_kwargs kwargs p
                  && negb (kind_eqb (pkind p) POSITIONAL_ONLY) then
            Raise TypeError
          else
            '(arguments, rest) ← bind_positional params' args' kwargs;
            Ok ((pname p, arg_val) :: arguments, rest)
      end
  end.

(** The [for param in itertools.chain(parameters_ex, parameters)] loop of
    [_bind]: a var-keyword parameter is remembered, a var-positional one
    passed over; any other pops its keyword argument, and one with neither
    a keyword argument nor a default raises [TypeError], as does a
    positional-only one passed by keyword.  Returns the bound pairs, the
    keywords left over and the var-keyword parameter last seen. *)
Fixpoint bind_keywords (params : list param) (kwargs : gmap string pyobj)
    (kwargs_param : option param)
  : result (Dict.t pyobj * gmap string pyobj * option param) :=
  match params with
  | [] => Ok ([], kwargs, kwargs_param)
  | p :: params' =>
      if kind_eqb (pkind p) VAR_KEYWORD then
        bind_keywords params' kwargs (Some p)
      else if kind_eqb (pkind p) VAR_POSITIONAL then
        bind_keywords params' kwargs kwargs_param
      else
        match kwargs !! pname p with
        | None =>
            match pdefault p with
            | None => Raise TypeError
            | Some _ => bind_keywords params' kwargs kwargs_param
            end
        | Some arg_val =>
            if kind_eqb (pkind p) POSITIONAL_ONLY then Raise TypeError
            else
              '(arguments, unused, kwargs_param) ←
                bind_keywords params' (delete (pname p) kwargs) kwargs_param;
              Ok ((pname p, arg_val) :: arguments, unused, kwargs_param)
        end
  end.

(** [sig.bind] on [args] and [kwargs], then [.arguments]: the keywords
    that no parameter has popped go to the var-keyword parameter as a
    dictionary, and raise [TypeError] when there is none.  The names of a
    signature are distinct, so that each assignment [arguments[name] = ...]
    of the two loops adds a new entry. *)
Definition bind (params : list param) (args : list pyobj)
    (kwargs : gmap string pyobj) : result (Dict.t pyobj) :=
  '(positional, rest) ← bind_positional params args kwargs;
  '(keywords, unused, kwargs_param) ← bind_keywords rest kwargs None;
  let arguments := positional ++ keywords in
  if bool_decide (size unused = 0) then Ok arguments
  else
    match kwargs_param with
    | Some p => Ok (Dict.set arguments (pname p) (PDict (map_to_list unused)))
    | None => Raise TypeError
    end.

(** What [apply_defaults] takes for a parameter that has no argument: its
    declared default, the empty tuple for a var-positional parameter, the
    empty dictionary for a var-keyword one; any other is passed over. *)
Definition default_value (p : param) : option pyobj :=
  match pdefault p with
  | Some val => Some val
  | None =>
      match pkind p with
      | VAR_POSITIONAL => Some (PTuple [])
      | VAR_KEYWORD => Some (PDict [])
      | _ => None
      end
  end.

(** [bound.apply_defaults()]: the arguments again, in declaration order,
    a missing one taking its default value. *)
Fixpoint apply_defaults (params : list param) (arguments : Dict.t pyobj)
  : Dict.t pyobj :=
  match params with
  | [] => []
  | p :: params' =>
      match Dict.get arguments (pname p) with
      | Some val => (pname p, val) :: apply_defaults params' arguments
      | None =>
          match default_value p with
          | Some val => (pname p, val) :: apply_defaults params' arguments
          | None => apply_defaults params' arguments
          end
      end
  end.

(** The place of a kind in the order of a signature. *)
Definition kind_rank (kind : param_kind) : nat :=
  match kind with
  | POSITIONAL_ONLY => 0
  | POSITIONAL_OR_KEYWORD => 1
  | VAR_POSITIONAL => 2
  | KEYWORD_ONLY => 3
  | VAR_KEYWORD => 4
  end.

Definition variadic (kind : param_kind) : bool :=
  kind_eqb kind VAR_POSITIONAL || kind_eqb kind VAR_KEYWORD.

(** The kinds come in order from [top_kind] on, with at most one
    var-positional and one var-keyword parameter, and these two declare no
    default. *)
Fixpoint ordered (top_kind : nat) (params : list param) : bool :=
  match params with
  | [] => true
  | p :: params' =>
      let kind := kind_rank (pkind p) in
      Nat.leb top_kind kind
      && (if variadic (pkind p)
          then bool_decide (pdefault p = None) && ordered (S kind) params'
          else ordered kind params')
  end.

(** What the parameters of a [def] always satisfy: the kinds come in the
    order positional-only, positional-or-keyword, var-positional,
    keyword-only, var-keyword, with at most one var-positional and one
    var-keyword parameter; these two declare no default; and no name is
    declared twice. *)
Definition well_formed (params : list param) : bool :=
  bool_decide (NoDup (pname <$> params)) && ordered 0 params.

(** A parameter that takes a positional argument. *)
Definition positional (p : param) : bool :=
  kind_eqb (pkind p) POSITIONAL_ONLY
  || kind_eqb (pkind p) POSITIONAL_OR_KEYWORD.

(** A parameter that takes a keyword argument of its name. *)
Definition by_keyword (p : param) : bool :=
  kind_eqb (pkind p) POSITIONAL_OR_KEYWORD || kind_eqb (pkind p) KEYWORD_ONLY.

(** The names of the parameters that take a keyword argument. *)
Definition keyword_names (params : list param) : list string :=
  pname <$> filter (λ p, by_keyword p = true) params.

(** The keyword arguments that no parameter takes by name: what a
    var-keyword parameter collects. *)
Definition extra_keywords (params : list param) (kwargs : gmap string pyobj)
  : gmap string pyobj :=
  filter (λ kv, kv.1 ∉ keyword_names params) kwargs.
End Signature.

(** ** [class Workflow] *)

(** The names bound in the module's namespace when a method runs: what the
    [import] statements bring in and what the module defines. *)
Definition module_globals : list string :=
  [ "napari_experimental_provide_function";
    "napari_experimental_provide_dock_widget";
    "ImageData"; "LabelsData"; "napari"; "warnings"; "np"; "curry";
    "Callable"; "wraps"; "inspect"; "QTimer"; "thread_worker"; "time";
    "METADATA_WORKFLOW_VALID_KEY"; "Workflow"; "WorkflowManager";
    "_viewer_has_layer"; "_layer_invalid" ].

Definition METADATA_WORKFLOW_VALID_KEY : string := "workflow_valid".

Module Workflow.
Section workflow.
Context {rt : Runtime}.

Record t := { _tasks : Dict.t pyobj }.

(** [Workflow()] *)
Definition init : t := {| _tasks := [] |}.

(** The body of [for source in task] in [roots]. *)
Definition roots_step (tasks : Dict.t pyobj) (origins : list string)
    (source : pyobj) : list string :=
  match as_str source with
  | Some source =>
      if negb (Dict.mem source tasks) then
        if negb (bool_decide (source ∈ origins)) then origins ++ [source]
        else origins
      else origins
  | None => origins
  end.

(** The loop [for result, task in self._tasks.items()] of [roots], run
    over the entries [items] that are still to come. *)
Fixpoint roots_loop (tasks items : Dict.t pyobj) (origins : list string)
  : result (list string) :=
  match items with
  | [] => Ok origins
  | (result, task) :: items' =>
      sources ← py_iter task;
      roots_loop tasks items' (foldl (roots_step tasks) origins sources)
  end.

(** The body of [for source in task] in [followers_of]. *)
Definition followers_step (item result : string) (followers : list string)
    (source : pyobj) : list string :=
  match as_str source with
  | Some source =>
      if String.eqb source item then
        if negb (bool_decide (result ∈ followers)) then followers ++ [result]
        else followers
      else followers
  | None => followers
  end.

Fixpoint followers_loop (item : string) (items : Dict.t pyobj)
    (followers : list string) : result (list string) :=
  match items with
  | [] => Ok followers
  | (result, task) :: items' =>
      sources ← py_iter task;
      followers_loop item items'
        (foldl (followers_step item result) followers sources)
  end.

(** [[x for x in xs if keep(x)]] *)
Fixpoint filter_m {S A} (xs : list A) (keep : A → M S bool) : M S (list A) :=
  match xs with
  | [] => mret []
  | x :: xs' =>
      b ← keep x;
      rest ← filter_m xs' keep;
      mret (if b : bool then x :: rest else rest)
  end.

(** The parameters that [set] itself declares before its variadic ones:
    [def set(self, name, func_or_data, *args, **kwargs)]. *)
Definition set_parameters : list string := ["self"; "name"; "func_or_data"].

(** A keyword argument of a call of [set] bears the name of one of these
    parameters, which the call has already bound. *)
Definition keyword_clash (kwargs : gmap string pyobj) : bool :=
  existsb (λ k, bool_decide (is_Some (kwargs !! k))) set_parameters.

(** The call [self.set(name, func_or_data, ...)] with the further
    positional arguments [args] and the keyword arguments [kwargs].  A
    keyword named after one of [set]'s own parameters makes the call itself
    raise [TypeError], before the body runs. *)
Definition set (name : string) (func_or_data : pyobj)
    (args : list pyobj) (kwargs : gmap string pyobj) : M t unit :=
  if keyword_clash kwargs then raise TypeError
  else if negb (callable func_or_data) then
    modify (λ self, {| _tasks := Dict.set (_tasks self) name func_or_data |})
  else
    match func_or_data with
    | PFun f =>
        let sig := signature f in
        bound ← lift (Signature.bind sig args kwargs);
        let bound := Signature.apply_defaults sig bound in
        modify (λ self,
          {| _tasks := Dict.set (_tasks self) name
                         (PTuple ([func_or_data] ++ bound.*2)) |})
    | _ => raise TypeError
    end.

Definition remove (name : string) : M t unit :=
  tasks ← gets _tasks;
  if Dict.mem name tasks then
    modify (λ self, {| _tasks := Dict.pop (_tasks self) name |})
  else mret tt.

(** [return dask_get(self._tasks, name)]: the global name [dask_get] is
    looked up when the method runs. *)
Definition get (name : string) : M t pyobj :=
  if bool_decide ("dask_get" ∈ module_globals) then
    tasks ← gets _tasks;
    lift (dask_get tasks name)
  else raise NameError.

Definition get_task (name : string) : M t pyobj :=
  tasks ← gets _tasks;
  match Dict.get tasks name with
  | Some task => mret task
  | None => raise KeyError
  end.

Definition roots : M t (list string) :=
  tasks ← gets _tasks;
  lift (roots_loop tasks tasks []).

Definition followers_of (item : string) : M t (list string) :=
  tasks ← gets _tasks;
  lift (followers_loop item tasks []).

Definition sources_of (item : string) : M t (list string) :=
  tasks ← gets _tasks;
  if negb (Dict.mem item tasks) then mret []
  else
    match Dict.get tasks item with
    | Some task =>
        sources ← lift (py_iter task);
        mret (omap as_str sources)
    | None => raise KeyError
    end.

Definition leafs : M t (list string) :=
  tasks ← gets _tasks;
  filter_m (Dict.keys tasks) (λ l,
    followers ← followers_of l;
    mret (bool_decide (length followers = 0))).
End workflow.
End Workflow.

(** ** [class WorkflowManager] *)

(** A napari layer as the manager sees it: its payload, its metadata
    dictionary, and whether the manager's [_layer_data_updated] is connected
    to its data event (done by [_register_events_to_layer] when the layer is
    inserted into the viewer). *)
Record Layer := {
  data : pyobj;
  metadata : gmap string pyobj;
  data_connected : bool
}.

Definition with_data (value : pyobj) (layer : Layer) : Layer :=
  {| data := value; metadata := metadata layer;
     data_connected := data_connected layer |}.

Definition with_metadata (key : string) (value : pyobj) (layer : Layer)
  : Layer :=
  {| data := data layer; metadata := <[key := value]> (metadata layer);
     data_connected := data_connected layer |}.

(** [viewer.layers[name]] succeeds and is not [None]; [KeyError] gives
    [False]. *)
Definition _viewer_has_layer (viewer : gmap string Layer) (name : string)
  : bool :=
  match viewer !! name with
  | Some _ => true
  | None => false
  end.

(** [layer.metadata[METADATA_WORKFLOW_VALID_KEY] == False]; [KeyError]
    gives [False]. *)
Definition _layer_invalid (layer : Layer) : bool :=
  match metadata layer !! METADATA_WORKFLOW_VALID_KEY with
  | Some valid => py_eq_False valid
  | None => false
  end.

Module WorkflowManager.
Section manager.
Context {rt : Runtime}.

(** [self.viewer.layers], by layer name, and [self.workflow]. *)
Record t := {
  viewer : gmap string Layer;
  workflow : Workflow.t
}.

(** A call [self.workflow.method(...)]. *)
Definition in_workflow {A} (m : M Workflow.t A) : M t A :=
  λ self,
    let '(r, w) := m (workflow self) in
    (r, {| viewer := viewer self; workflow := w |}).

(** [self.viewer.layers[name].metadata[key] = value] *)
Definition set_metadata (name key : string) (value : pyobj) : M t unit :=
  modify (λ self,
    {| viewer := alter (with_metadata key value) name (viewer self);
       workflow := workflow self |}).

(** A layer is handed around by the name it has in [viewer.layers].
    [fuel] is the depth of recursion left before Python raises
    [RecursionError]. *)
Fixpoint invalidate (fuel : nat) (items : list string) : M t unit :=
  match fuel with
  | 0 => raise RecursionError
  | S fuel' =>
      for_each items (λ f,
        has_layer ← gets (λ self, _viewer_has_layer (viewer self) f);
        if has_layer : bool then
          set_metadata f METADATA_WORKFLOW_VALID_KEY (PBool false);;
          followers ← in_workflow (Workflow.followers_of f);
          invalidate fuel' followers
        else mret tt)
  end.

Fixpoint _search_first_invalid_layer (fuel : nat) (items : list string)
  : M t (option string) :=
  match fuel with
  | 0 => raise RecursionError
  | S fuel' =>
      found ← first_some items (λ i,
        layers ← gets viewer;
        if _viewer_has_layer layers i then
          match layers !! i with
          | Some layer => mret (if _layer_invalid layer then Some i else None)
          | None => raise KeyError
          end
        else mret None);
      match found with
      | Some layer => mret (Some layer)
      | None =>
          first_some items (λ i,
            followers ← in_workflow (Workflow.followers_of i);
            _search_first_invalid_layer fuel' followers)
      end
  end.

(** The handler of a layer's data event; [source] is [str(event.source)],
    the name of the layer whose payload changed. *)
Definition _layer_data_updated (fuel : nat) (source : string) : M t unit :=
  set_metadata source METADATA_WORKFLOW_VALID_KEY (PBool true);;
  followers ← in_workflow (Workflow.followers_of source);
  for_each followers (λ f,
    has_layer ← gets (λ self, _viewer_has_layer (viewer self) f);
    if has_layer : bool then
      followers ← in_workflow (Workflow.followers_of f);
      invalidate fuel followers
    else mret tt).

(** [self.viewer.layers[name].data = value]: the layer stores the payload
    and emits its data event, which runs the connected handler. *)
Definition set_data (fuel : nat) (name : string) (value : pyobj) : M t unit :=
  modify (λ self,
    {| viewer := alter (with_data value) name (viewer self);
       workflow := workflow self |});;
  layer ← gets (λ self, viewer self !! name);
  match layer with
  | Some layer =>
      if data_connected layer then _layer_data_updated fuel name
      else mret tt
  | None => mret tt
  end.

(** The argument [a] of a task as [_compute] passes it on: the payload of
    the layer of that name when there is one. *)
Definition resolve (layers : gmap string Layer) (a : pyobj) : pyobj :=
  match as_str a with
  | Some name =>
      match layers !! name with
      | Some layer => data layer
      | None => a
      end
  | None => a
  end.

Definition _compute (name : string) : M t pyobj :=
  task ← in_workflow (Workflow.get_task name);
  task ← lift (py_iter task);
  match task with
  | [] => raise IndexError
  | function :: arguments =>
      layers ← gets viewer;
      lift (call_obj function (resolve layers <$> arguments))
  end.

(** Returns what the Python method returns: nothing on either path. *)
Definition _update_invalid_layer (fuel : nat)
  : M t (option (string * pyobj)) :=
  origins ← in_workflow Workflow.roots;
  layer ← _search_first_invalid_layer fuel origins;
  match layer with
  | None => mret None
  | Some layer =>
      payload ← _compute layer;
      payload ← lift (asarray payload);
      set_data fuel layer payload;;
      mret None
  end.

(** The callback connected to the worker's [yielded] signal. *)
Definition update_layer (fuel : nat) (whatever : option (string * pyobj))
  : M t unit :=
  match whatever with
  | Some (name, payload) =>
      has_layer ← gets (λ self, _viewer_has_layer (viewer self) name);
      if has_layer : bool then set_data fuel name payload else mret tt
  | None => mret tt
  end.

(** The first [ticks] rounds of the worker's [while True] loop, each
    followed by the delivery of the yielded value to [update_layer].  An
    exception leaves the loop: nothing in it catches one. *)
Fixpoint loop_run (fuel ticks : nat) : M t unit :=
  match ticks with
  | 0 => mret tt
  | S ticks' =>
      whatever ← _update_invalid_layer fuel;
      update_layer fuel whatever;;
      loop_run fuel ticks'
  end.

(** The handler of the viewer's [inserted] event, for the layer [name]:
    [_register_events_to_layer] connects [_layer_data_updated] to the data
    event of the layer. *)
Definition _layer_added (name : string) : M t unit :=
  modify (λ self,
    {| viewer :=
         alter (λ layer, {| data := data layer; metadata := metadata layer;
                            data_connected := true |}) name (viewer self);
       workflow := workflow self |}).

(** The handler of the viewer's [removed] event, for the layer [name]. *)
Definition _layer_removed (name : string) : M t unit :=
  in_workflow (Workflow.remove name).
End manager.
End WorkflowManager.

(** ** Notions the properties are stated with *)

(** What [followers_of item] computes from the dictionary [tasks]. *)
Definition followers (tasks : Dict.t pyobj) (item : string)
  : result (list string) :=
  Workflow.followers_loop item tasks [].

(** [refers tasks result item]: the recipe stored under [result] has the
    string [item] among its elements. *)
Definition refers (tasks : Dict.t pyobj) (result item : string) : Prop :=
  ∃ task sources,
    (result, task) ∈ tasks ∧ py_iter task = Ok sources ∧ PStr item ∈ sources.

(** Every recipe can be iterated over (a tuple, a list, a string or a
    dictionary). *)
Definition tasks_iterable (tasks : Dict.t pyobj) : bool :=
  forallb (λ kv, is_Ok (py_iter kv.2)) tasks.

(** [chain tasks via items n]: [n] is reached from one of [items] along
    [followers_of] steps, and every name on the way, from the one in [items]
    to [n] itself, satisfies [via]. *)
Inductive chain (tasks : Dict.t pyobj) (via : string → bool)
  : list string → string → Prop :=
| chain_here items n :
    n ∈ items → via n = true → chain tasks via items n
| chain_below items f fs n :
    f ∈ items → via f = true → followers tasks f = Ok fs →
    chain tasks via fs n → chain tasks via items n.

Definition anything : string → bool := λ _, true.

(** [bounded tasks d items]: every [followers_of] call below [items]
    returns, and no chain of followers starting in [items] has more than
    [d] names on it.  A dependency cycle below [items] has no bound. *)
Fixpoint bounded (tasks : Dict.t pyobj) (d : nat) (items : list string)
  : bool :=
  match d with
  | 0 => match items with [] => true | _ :: _ => false end
  | S d' =>
      forallb (λ f, match followers tasks f with
                    | Ok fs => bounded tasks d' fs
                    | Raise _ => false
                    end) items
  end.

(** The validity flag of the record [name], if there is a record and it has
    a flag. *)
Definition valid_flag (layers : gmap string Layer) (name : string)
  : option pyobj :=
  layer ← layers !! name; metadata layer !! METADATA_WORKFLOW_VALID_KEY.

(** The record [name] exists and [_layer_invalid] holds of it. *)
Definition invalid_record (layers : gmap string Layer) (name : string)
  : bool :=
  match layers !! name with
  | Some layer => _layer_invalid layer
  | None => false
  end.

(** [preserves proj m]: whatever [m] does and however it ends, the part
    [proj] of the state is afterwards what it was before. *)
Definition preserves {S T A} (proj : S → T) (m : M S A) : Prop :=
  ∀ s, proj (m s).2 = proj s.

(** The layer with its validity flag set to [False]. *)
Definition mark (layer : Layer) : Layer :=
  with_metadata METADATA_WORKFLOW_VALID_KEY (PBool false) layer.

(** [touched self self']: the recipes are the same, no layer has come or
    gone, and each layer is as it was or has had its flag set to [False]. *)
Definition touched (self self' : WorkflowManager.t) : Prop :=
  WorkflowManager.workflow self' = WorkflowManager.workflow self ∧
  ∀ n, WorkflowManager.viewer self' !! n = WorkflowManager.viewer self !! n ∨
       WorkflowManager.viewer self' !! n =
         mark <$> WorkflowManager.viewer self !! n.

(** The recipes of a manager. *)
Definition recipes (self : WorkflowManager.t) : Dict.t pyobj :=
  Workflow._tasks (WorkflowManager.workflow self).

(** [reaches tasks d items n]: [n] is one of [items] or is found among
    their followers, at most [d] levels down. *)
Fixpoint reaches (tasks : Dict.t pyobj) (d : nat) (items : list string)
    (n : string) : bool :=
  match d with
  | 0 => false
  | S d' =>
      existsb (λ f, String.eqb f n ||
                    match followers tasks f with
                    | Ok fs => reaches tasks d' fs n
                    | Raise _ => false
                    end) items
  end.

(** The payload of every record of a manager. *)
Definition payloads (self : WorkflowManager.t) : gmap string pyobj :=
  data <$> WorkflowManager.viewer self.

(** What the handlers and [invalidate] leave alone: the recipes and the
    payloads.  Keeping the payloads means that no record comes or goes. *)
Definition recipes_and_payloads (self : WorkflowManager.t)
  : Workflow.t * gmap string pyobj :=
  (WorkflowManager.workflow self, payloads self).

(** [_viewer_has_layer] on the manager's viewer. *)
Definition has_record (self : WorkflowManager.t) (n : string) : bool :=
  _viewer_has_layer (WorkflowManager.viewer self) n.

(** The manager after [self.viewer.layers[f].metadata[...] = False]. *)
Definition flagged (self : WorkflowManager.t) (f : string)
  : WorkflowManager.t :=
  {| WorkflowManager.viewer := alter mark f (WorkflowManager.viewer self);
     WorkflowManager.workflow := WorkflowManager.workflow self |}.

(** [invalid_record] on the manager's viewer. *)
Definition invalid_in (self : WorkflowManager.t) : string → bool :=
  invalid_record (WorkflowManager.viewer self).

(** The second loop of [_search_first_invalid_layer]. *)
Definition below (fuel : nat) (items : list string)
  : M WorkflowManager.t (option string) :=
  first_some items (λ i,
    followers ← WorkflowManager.in_workflow (Workflow.followers_of i);
    WorkflowManager._search_first_invalid_layer fuel followers).

(** [m] hands nothing on: it returns [None] or raises. *)
Definition yields_nothing {S A} (m : M S (option A)) : Prop :=
  ∀ s, (m s).1 = Ok None ∨ ∃ e, (m s).1 = Raise e.

(** The scan as the specification words it, to compare the code with:
    breadth-first by layer.  Every name of the layer is checked; if none is
    an invalid record, the next layer is the union of the followers of the
    names of the layer that have a record. *)
Fixpoint spec_next_layer (tasks : Dict.t pyobj) (layers : gmap string Layer)
    (layer : list string) : result (list string) :=
  match layer with
  | [] => Ok []
  | i :: layer' =>
      rest ← spec_next_layer tasks layers layer';
      if _viewer_has_layer layers i then
        fs ← followers tasks i;
        Ok (list_union fs rest)
      else Ok rest
  end.

Fixpoint spec_find_first_invalid (fuel : nat) (tasks : Dict.t pyobj)
    (layers : gmap string Layer) (layer : list string)
  : result (option string) :=
  match fuel with
  | 0 => Raise RecursionError
  | S fuel' =>
      match find (invalid_record layers) layer with
      | Some n => Ok (Some n)
      | None =>
          match layer with
          | [] => Ok None
          | _ :: _ =>
              next ← spec_next_layer tasks layers layer;
              spec_find_first_invalid fuel' tasks layers next
          end
      end
  end.

(** What the first loop of [bind] has done when it ends, stated of the
    parameters [front] that have taken one positional argument each: the
    arguments have run out, or a var-positional parameter [vp] has taken
    all further ones. *)
Definition positional_end (kwargs : gmap string pyobj) (args : list pyobj)
    (params : list param) (pos : Dict.t pyobj) (rest : list param)
    (front : list param) : Prop :=
  ∃ tail vpart,
    params = front ++ tail ∧
    pos = zip (pname <$> front) args ++ vpart ∧
    (length front ≤ length args)%nat ∧
    (∀ p, p ∈ front → Signature.positional p = true) ∧
    (∀ p, p ∈ front → pkind p = POSITIONAL_OR_KEYWORD →
          kwargs !! pname p = None) ∧
    ((tail = rest ∧ vpart = [] ∧ length front = length args) ∨
     (∃ vp, tail = vp :: rest ∧ pkind vp = VAR_POSITIONAL ∧
            vpart = match drop (length front) args with
                    | [] => []
                    | xs => [(pname vp, PTuple xs)]
                    end)).

(** The var-keyword parameter that the second loop of [bind] remembers:
    the last one it meets. *)
Definition last_var_keyword (ps : list param) (kwargs_param : option param)
  : option param :=
  foldl (λ acc p, if kind_eqb (pkind p) VAR_KEYWORD then Some p else acc)
    kwargs_param ps.

(** The value that the recipe holds for the parameter [p] declared at
    place [i], for arguments that the signature accepts. *)
Definition bound_value (params : list param) (args : list pyobj)
    (kwargs : gmap string pyobj) (i : nat) (p : param) : option pyobj :=
  match pkind p with
  | POSITIONAL_ONLY =>
      match args !! i with Some a => Some a | None => pdefault p end
  | POSITIONAL_OR_KEYWORD =>
      match args !! i with
      | Some a => Some a
      | None =>
          match kwargs !! pname p with Some v => Some v | None => pdefault p end
      end
  | VAR_POSITIONAL => Some (PTuple (drop i args))
  | KEYWORD_ONLY =>
      match kwargs !! pname p with Some v => Some v | None => pdefault p end
  | VAR_KEYWORD =>
      Some (PDict (map_to_list (Signature.extra_keywords params kwargs)))
  end.

(** The value that [apply_defaults] gives the parameter [p]. *)
Definition value_of (arguments : Dict.t pyobj) (p : param) : option pyobj :=
  match Dict.get arguments (pname p) with
  | Some val => Some val
  | None => Signature.default_value p
  end.

(** ** A small runtime and graph to run the model on *)

Module Demo.
Definition on_ints (g : Z → Z) (x : pyobj) : pyobj :=
  match x with
  | PList xs =>
      PList ((λ e, match e with PInt z => PInt (g z) | _ => e end) <$> xs)
  | _ => x
  end.

(** [def threshold(image, level=1)], [def label(image, name)],
    [def stack(first, *images)],
    [def blur(image, /, sigma=1, *, mode=0, **options)], and
    [def double(image)], [def increment(image)], [def boom(image)] *)
Definition demo_signature (f : fid) : list param :=
  let image kind :=
    {| pname := "image"; pkind := kind; pdefault := None |} in
  if String.eqb f "threshold" then
    [ image POSITIONAL_OR_KEYWORD;
      {| pname := "level"; pkind := POSITIONAL_OR_KEYWORD;
         pdefault := Some (PInt 1) |} ]
  else if String.eqb f "label" then
    [ image POSITIONAL_OR_KEYWORD;
      {| pname := "name"; pkind := POSITIONAL_OR_KEYWORD;
         pdefault := None |} ]
  else if String.eqb f "stack" then
    [ {| pname := "first"; pkind := POSITIONAL_OR_KEYWORD;
         pdefault := None |};
      {| pname := "images"; pkind := VAR_POSITIONAL; pdefault := None |} ]
  else if String.eqb f "blur" then
    [ image POSITIONAL_ONLY;
      {| pname := "sigma"; pkind := POSITIONAL_OR_KEYWORD;
         pdefault := Some (PInt 1) |};
      {| pname := "mode"; pkind := KEYWORD_ONLY; pdefault := Some (PInt 0) |};
      {| pname := "options"; pkind := VAR_KEYWORD; pdefault := None |} ]
  else [ image POSITIONAL_OR_KEYWORD ].

Definition demo_call (f : fid) (args : list pyobj) : result pyobj :=
  match args with
  | [x] =>
      if String.eqb f "double" then Ok (on_ints (Z.mul 2) x)
      else if String.eqb f "increment" then Ok (on_ints (Z.add 1) x)
      else Raise ValueError
  | _ => Raise TypeError
  end.

#[global] Instance runtime : Runtime := {|
  signature := demo_signature;
  call := demo_call;
  asarray := Ok;
  dask_get := λ _ _, Raise KeyError
|}.

Definition layer (payload : pyobj) (valid : option bool) : Layer :=
  {| data := payload;
     metadata := match valid with
                 | Some b => {[ METADATA_WORKFLOW_VALID_KEY := PBool b ]}
                 | None => ∅
                 end;
     data_connected := true |}.

(** [B = double(A)], [C = increment(B)] *)
Definition abc : Workflow.t :=
  {| Workflow._tasks :=
       [ ("B", PTuple [PFun "double"; PStr "A"]);
         ("C", PTuple [PFun "increment"; PStr "B"]) ] |}.

Definition manager (layers : list (string * Layer)) (w : Workflow.t)
  : WorkflowManager.t :=
  {| WorkflowManager.viewer := list_to_map layers;
     WorkflowManager.workflow := w |}.

Definition none : pyobj := PList [].
Definition one_two_three : pyobj := PList [PInt 1; PInt 2; PInt 3].

(** [A], [B] and [C] all have records, all valid. *)
Definition fresh : WorkflowManager.t :=
  manager [ ("A", layer one_two_three (Some true));
            ("B", layer none (Some true));
            ("C", layer none (Some true)) ] abc.

(** [B] and [C] are invalid. *)
Definition stale : WorkflowManager.t :=
  manager [ ("A", layer one_two_three (Some true));
            ("B", layer none (Some false));
            ("C", layer none (Some false)) ] abc.

(** [B] has no record. *)
Definition gap : WorkflowManager.t :=
  manager [ ("A", layer one_two_three (Some true));
            ("C", layer none (Some true)) ] abc.

(** [B] has a record without a validity flag. *)
Definition unflagged : WorkflowManager.t :=
  manager [ ("A", layer one_two_three (Some true));
            ("B", layer none None) ] abc.

(** [B = boom(A)], and [boom] raises. *)
Definition broken : WorkflowManager.t :=
  manager [ ("A", layer one_two_three (Some true));
            ("B", layer none (Some false)) ]
    {| Workflow._tasks := [ ("B", PTuple [PFun "boom"; PStr "A"]) ] |}.

(** [a = double(r1)], [b = double(a)], [c = double(r2)]: [c] is one step
    below the roots, [b] two. *)
Definition fork_tasks : Workflow.t :=
  {| Workflow._tasks :=
       [ ("a", PTuple [PFun "double"; PStr "r1"]);
         ("b", PTuple [PFun "double"; PStr "a"]);
         ("c", PTuple [PFun "double"; PStr "r2"]) ] |}.

Definition fork : WorkflowManager.t :=
  manager [ ("r1", layer none (Some true));
            ("r2", layer none (Some true));
            ("a", layer none (Some true));
            ("b", layer none (Some false));
            ("c", layer none (Some false)) ] fork_tasks.

(** [A = double(A)]: a recipe that depends on itself. *)
Definition selfloop : WorkflowManager.t :=
  manager [ ("A", layer none (Some true)) ]
    {| Workflow._tasks := [ ("A", PTuple [PFun "double"; PStr "A"]) ] |}.

(** The same with no record for [a]. *)
Definition fork_gap : WorkflowManager.t :=
  manager [ ("r1", layer none (Some true));
            ("r2", layer none (Some true));
            ("b", layer none (Some false));
            ("c", layer none (Some false)) ] fork_tasks.
End Demo.

(** * Properties *)

(** ** Running computations *)

Lemma run_bind {S A B} (m : M S A) (k : A → M S B) (s : S) :
  (m ≫= k) s =
  match m s with
  | (Ok a, s') => k a s'
  | (Raise e, s') => (Raise e, s')
  end.
Proof. reflexivity. Qed.

(** ** Frames: what a computation leaves alone *)

Section frames.
Context {S T : Type} (proj : S → T).

Lemma preserves_ret {A} (a : A) : preserves proj (mret a : M S A).
Proof. intros s. reflexivity. Qed.

Lemma preserves_raise {A} e : preserves proj (raise e : M S A).
Proof. intros s. reflexivity. Qed.

Lemma preserves_gets {A} (f : S → A) : preserves proj (gets f).
Proof. intros s. reflexivity. Qed.

Lemma preserves_lift {A} (r : result A) : preserves proj (lift r : M S A).
Proof. intros s. reflexivity. Qed.

Lemma preserves_modify (f : S → S) :
  (∀ s, proj (f s) = proj s) → preserves proj (modify f).
Proof. intros Hf s. apply Hf. Qed.

Lemma preserves_bind {A B} (m : M S A) (k : A → M S B) :
  preserves proj m → (∀ a, preserves proj (k a)) → preserves proj (m ≫= k).
Proof.
  intros Hm Hk s. rewrite run_bind. specialize (Hm s).
  destruct (m s) as [[a|e] s']; simpl in *.
  - rewrite Hk. exact Hm.
  - exact Hm.
Qed.

Lemma preserves_for_each {A} (xs : list A) (body : A → M S unit) :
  (∀ x, preserves proj (body x)) → preserves proj (for_each xs body).
Proof.
  intros Hbody. induction xs as [|x xs IH]; simpl.
  - apply preserves_ret.
  - apply (preserves_bind (body x)); auto.
Qed.

Lemma preserves_first_some {A B} (xs : list A) (body : A → M S (option B)) :
  (∀ x, preserves proj (body x)) → preserves proj (first_some xs body).
Proof.
  intros Hbody. induction xs as [|x xs IH]; simpl.
  - apply preserves_ret.
  - apply (preserves_bind (body x)); [auto|].
    intros [b|]; [apply preserves_ret | exact IH].
Qed.

Lemma preserves_filter_m {A} (xs : list A) (keep : A → M S bool) :
  (∀ x, preserves proj (keep x)) →
  preserves proj (Workflow.filter_m xs keep).
Proof.
  intros Hkeep. induction xs as [|x xs IH]; simpl.
  - apply preserves_ret.
  - apply preserves_bind; [auto|]. intros b.
    apply preserves_bind; [exact IH|]. intros rest. apply preserves_ret.
Qed.
End frames.

(** A computation built from reads only. *)
Ltac frame :=
  repeat first
    [ apply preserves_ret | apply preserves_raise | apply preserves_gets
    | apply preserves_lift | apply preserves_bind | apply preserves_filter_m
    | apply preserves_for_each | apply preserves_first_some
    | progress intros
    | match goal with
      | |- preserves _ (if ?b then _ else _) => destruct b
      | |- preserves _ (match ?x with _ => _ end) => destruct x
      end ].

Section workflow_frames.
Context {rt : Runtime}.

Lemma get_task_readonly name : preserves id (Workflow.get_task name).
Proof. unfold Workflow.get_task. frame. Qed.

Lemma roots_readonly : preserves id Workflow.roots.
Proof. unfold Workflow.roots. frame. Qed.

Lemma followers_of_readonly item : preserves id (Workflow.followers_of item).
Proof. unfold Workflow.followers_of. frame. Qed.

Lemma sources_of_readonly item : preserves id (Workflow.sources_of item).
Proof. unfold Workflow.sources_of. frame. Qed.

Lemma leafs_readonly : preserves id Workflow.leafs.
Proof. unfold Workflow.leafs. frame. Qed.

(** A read-only call on [self.workflow] leaves the whole manager as it
    was. *)
Lemma in_workflow_readonly {A} (m : M Workflow.t A) :
  preserves id m → preserves id (WorkflowManager.in_workflow m).
Proof.
  intros Hm s. unfold WorkflowManager.in_workflow. specialize (Hm (WorkflowManager.workflow s)).
  destruct (m (WorkflowManager.workflow s)) as [r w]. simpl in *. subst w.
  destruct s; reflexivity.
Qed.

Lemma in_workflow_preserves_workflow {A} (m : M Workflow.t A) :
  preserves id m →
  preserves WorkflowManager.workflow (WorkflowManager.in_workflow m).
Proof.
  intros Hm s. pose proof (in_workflow_readonly m Hm s) as E.
  unfold id in E. rewrite E. reflexivity.
Qed.

Lemma set_metadata_preserves_workflow name key value :
  preserves WorkflowManager.workflow
    (WorkflowManager.set_metadata name key value).
Proof. intros s. reflexivity. Qed.

Lemma invalidate_preserves_workflow fuel items :
  preserves WorkflowManager.workflow (WorkflowManager.invalidate fuel items).
Proof.
  revert items. induction fuel as [|fuel IH]; intros items; simpl.
  - apply preserves_raise.
  - frame.
    + apply set_metadata_preserves_workflow.
    + apply in_workflow_preserves_workflow, followers_of_readonly.
    + apply IH.
Qed.
End workflow_frames.

(** ** Dictionaries *)

Section dict.
Context {V : Type}.
Implicit Types (d : Dict.t V) (k : string) (v : V).

Lemma Dict_mem_spec k d : Dict.mem k d = true ↔ k ∈ Dict.keys d.
Proof. unfold Dict.mem. rewrite bool_decide_eq_true. reflexivity. Qed.

Lemma Dict_get_elem d k v : Dict.get d k = Some v → (k, v) ∈ d.
Proof.
  induction d as [|[k' v'] d IH]; csimpl; [done|].
  destruct (String.eqb_spec k' k) as [->|Hne].
  - intros [= ->]. apply elem_of_cons. by left.
  - intros Hg. apply elem_of_cons. right. auto.
Qed.

Lemma Dict_get_None d k : Dict.get d k = None ↔ k ∉ Dict.keys d.
Proof.
  unfold Dict.keys. induction d as [|[k' v'] d IH]; csimpl.
  - split; [intros _; apply not_elem_of_nil | done].
  - rewrite not_elem_of_cons. destruct (String.eqb_spec k' k) as [->|Hne].
    + split; [done | intros [? _]; done].
    + rewrite IH. intuition congruence.
Qed.

Lemma Dict_elem_get d k v : Dict.ok d → (k, v) ∈ d → Dict.get d k = Some v.
Proof.
  unfold Dict.ok, Dict.keys. induction d as [|[k' v'] d IH]; csimpl.
  - intros _ Hin. by apply elem_of_nil in Hin.
  - rewrite NoDup_cons. intros [Hk' Hd] Hin.
    apply elem_of_cons in Hin as [[= -> ->]|Hin].
    + by rewrite String.eqb_refl.
    + destruct (String.eqb_spec k' k) as [->|Hne]; [|auto].
      destruct Hk'. apply list_elem_of_fmap. by exists (k, v).
Qed.

Lemma Dict_get_set_eq d k v : Dict.get (Dict.set d k v) k = Some v.
Proof.
  induction d as [|[k' v'] d IH]; csimpl.
  - by rewrite String.eqb_refl.
  - destruct (String.eqb_spec k' k) as [->|Hne]; csimpl.
    + by rewrite String.eqb_refl.
    + by apply String.eqb_neq in Hne as ->.
Qed.

Lemma Dict_get_set_ne d k k' v :
  k ≠ k' → Dict.get (Dict.set d k v) k' = Dict.get d k'.
Proof.
  intros Hne. induction d as [|[k0 v0] d IH]; csimpl.
  - by apply String.eqb_neq in Hne as ->.
  - destruct (String.eqb_spec k0 k) as [->|Hne0]; csimpl.
    + by apply String.eqb_neq in Hne as ->.
    + by rewrite IH.
Qed.

Lemma Dict_keys_set d k v :
  Dict.keys (Dict.set d k v) =
  if Dict.mem k d then Dict.keys d else Dict.keys d ++ [k].
Proof.
  unfold Dict.mem, Dict.keys. induction d as [|[k0 v0] d IH]; csimpl; [done|].
  destruct (String.eqb_spec k0 k) as [->|Hne0]; csimpl.
  - rewrite bool_decide_eq_true_2; [done | apply elem_of_cons; by left].
  - rewrite IH. destruct (bool_decide_reflect (k ∈ d.*1)) as [Hin|Hin].
    + rewrite bool_decide_eq_true_2; [done | apply elem_of_cons; by right].
    + rewrite bool_decide_eq_false_2; [done|].
      rewrite elem_of_cons. intros [?|?]; congruence.
Qed.

Lemma Dict_ok_set d k v : Dict.ok d → Dict.ok (Dict.set d k v).
Proof.
  unfold Dict.ok. rewrite Dict_keys_set. intros Hd.
  destruct (Dict.mem k d) eqn:Hmem; [done|].
  apply NoDup_app. split_and!; [done| |apply NoDup_singleton].
  intros x Hx ->%list_elem_of_singleton.
  apply Dict_mem_spec in Hx. congruence.
Qed.
End dict.

Lemma forallb_elem {A} (f : A → bool) (xs : list A) :
  forallb f xs = true ↔ ∀ x, x ∈ xs → f x = true.
Proof.
  rewrite forallb_forall. by setoid_rewrite list_elem_of_In.
Qed.

(** ** The dependency queries *)

Section queries.
Implicit Types (tasks items : Dict.t pyobj) (item result : string).

Lemma followers_step_spec item result sources followers m :
  m ∈ foldl (Workflow.followers_step item result) followers sources ↔
  m ∈ followers ∨ (m = result ∧ PStr item ∈ sources).
Proof.
  revert followers. induction sources as [|source sources IH];
    intros followers; csimpl.
  - rewrite elem_of_nil. tauto.
  - rewrite IH, elem_of_cons. unfold Workflow.followers_step.
    destruct source as [| | |s| | | |]; csimpl; try (intuition congruence).
    destruct (String.eqb_spec s item) as [->|Hne].
    + case_bool_decide; csimpl.
      * intuition (subst; auto).
      * rewrite elem_of_app, list_elem_of_singleton. intuition (subst; auto).
    + intuition congruence.
Qed.

Lemma followers_loop_spec item items followers fs m :
  Workflow.followers_loop item items followers = Ok fs →
  m ∈ fs ↔ m ∈ followers ∨ refers items m item.
Proof.
  revert followers. induction items as [|[result task] items IH];
    intros followers; csimpl.
  - intros [= <-]. unfold refers. split; [auto|].
    intros [?|(task & sources & Hin & _)]; [done|].
    by apply elem_of_nil in Hin.
  - destruct (py_iter task) as [sources|e] eqn:Htask; csimpl; [|done].
    intros Hloop. rewrite (IH _ Hloop), followers_step_spec.
    unfold refers. split.
    + intros [[?|[-> Hsrc]]|(task' & sources' & Hin & Hit & Hsrc)]; auto.
      * right. exists task, sources. rewrite elem_of_cons. auto.
      * right. exists task', sources'. rewrite elem_of_cons. auto.
    + intros [?|(task' & sources' & Hin & Hit & Hsrc)]; auto.
      apply elem_of_cons in Hin as [[= -> ->]|Hin].
      * left. right. split; [done|]. congruence.
      * right. exists task', sources'. auto.
Qed.

Lemma followers_loop_is_Ok item items followers :
  is_Ok (Workflow.followers_loop item items followers) = tasks_iterable items.
Proof.
  revert followers. induction items as [|[result task] items IH];
    intros followers; csimpl; [done|].
  destruct (py_iter task) as [sources|e]; csimpl; [apply IH | done].
Qed.

Lemma followers_spec tasks item fs m :
  followers tasks item = Ok fs → m ∈ fs ↔ refers tasks m item.
Proof.
  intros Hfs. rewrite (followers_loop_spec _ _ _ _ _ Hfs), elem_of_nil. tauto.
Qed.

Lemma followers_iterable tasks item :
  tasks_iterable tasks = true → ∃ fs, followers tasks item = Ok fs.
Proof.
  intros Hit. pose proof (followers_loop_is_Ok item tasks []) as Hok.
  rewrite Hit in Hok. unfold followers.
  destruct (Workflow.followers_loop item tasks []); [eauto | done].
Qed.

Lemma run_followers_of item (w : Workflow.t) :
  Workflow.followers_of item w = (followers (Workflow._tasks w) item, w).
Proof. reflexivity. Qed.

Lemma sources_of_spec (w : Workflow.t) item ss w' n :
  Dict.ok (Workflow._tasks w) →
  Workflow.sources_of item w = (Ok ss, w') →
  n ∈ ss ↔ refers (Workflow._tasks w) item n.
Proof.
  intros Hok. unfold Workflow.sources_of. rewrite run_bind. csimpl.
  destruct (Dict.mem item (Workflow._tasks w)) eqn:Hmem; csimpl.
  - destruct (Dict.get (Workflow._tasks w) item) as [task|] eqn:Hget;
      [|done].
    rewrite run_bind. unfold lift.
    destruct (py_iter task) as [sources|e] eqn:Hit; [|done].
    intros [= <- <-]. rewrite list_elem_of_omap. unfold refers. split.
    + intros (x & Hx & Hstr). destruct x; try done. injection Hstr as ->.
      exists task, sources. eauto using Dict_get_elem.
    + intros (task' & sources' & Hin & Hit' & Hsrc).
      apply (Dict_elem_get _ _ _ Hok) in Hin.
      assert (task' = task) as -> by congruence.
      assert (sources' = sources) as -> by congruence.
      by exists (PStr n).
  - intros [= <- <-]. rewrite elem_of_nil. split; [done|].
    intros (task & sources & Hin & _).
    assert (Dict.mem item (Workflow._tasks w) = true); [|congruence].
    apply Dict_mem_spec, list_elem_of_fmap. by exists (item, task).
Qed.

Lemma sources_of_iterable (w : Workflow.t) item :
  tasks_iterable (Workflow._tasks w) = true →
  ∃ ss, Workflow.sources_of item w = (Ok ss, w).
Proof.
  intros Hit. unfold Workflow.sources_of. rewrite run_bind. csimpl.
  destruct (Dict.mem item (Workflow._tasks w)) eqn:Hmem; csimpl; [|eauto].
  destruct (Dict.get (Workflow._tasks w) item) as [task|] eqn:Hget.
  - apply Dict_get_elem in Hget. unfold tasks_iterable in Hit.
    pose proof (proj1 (forallb_elem _ _) Hit (item, task) Hget) as Hit'.
    csimpl in Hit'. rewrite run_bind. unfold lift.
    destruct (py_iter task); [eauto | done].
  - apply Dict_get_None in Hget. apply Dict_mem_spec in Hmem. done.
Qed.

(** X30: [followers_of] and [sources_of] are inverse relations on a
    dictionary whose recipes can all be iterated over: both calls return,
    and [m] is among the followers of [n] exactly when [n] is among the
    sources of [m]. *)
Theorem followers_sources_agree (w : Workflow.t) (m n : string) :
  Dict.ok (Workflow._tasks w) →
  tasks_iterable (Workflow._tasks w) = true →
  ∃ fs ss,
    Workflow.followers_of n w = (Ok fs, w) ∧
    Workflow.sources_of m w = (Ok ss, w) ∧
    (m ∈ fs ↔ n ∈ ss).
Proof.
  intros Hok Hit. destruct (followers_iterable _ n Hit) as [fs Hfs].
  destruct (sources_of_iterable w m Hit) as [ss Hss].
  exists fs, ss. split_and!; [by rewrite run_followers_of, Hfs | done |].
  rewrite (followers_spec _ _ _ _ Hfs). symmetry. by eapply sources_of_spec.
Qed.
End queries.

(** C9: the two queries are not inverse on every graph.  [set] accepts a
    literal recipe, and a literal that cannot be iterated over makes
    [followers_of] raise [TypeError], whatever the name asked for, while
    [sources_of] still answers for the other names.  After [set("A", 5)]
    and [set("B", double, "A")], [sources_of("B")] is [["A"]] and
    [followers_of("A")] raises: ["A"] is a source of ["B"], and whether
    ["B"] is a follower of ["A"] has no answer. *)
Theorem followers_of_raises_on_literal :
  ∃ w1 w2,
    Workflow.set "A" (PInt 5) [] ∅ Workflow.init = (Ok tt, w1) ∧
    Workflow.set "B" (PFun "double") [PStr "A"] ∅ w1 = (Ok tt, w2) ∧
    Workflow._tasks w2 =
      [("A", PInt 5); ("B", PTuple [PFun "double"; PStr "A"])] ∧
    Workflow.sources_of "B" w2 = (Ok ["A"], w2) ∧
    Workflow.followers_of "A" w2 = (Raise TypeError, w2).
Proof.
  exists {| Workflow._tasks := [("A", PInt 5)] |},
         {| Workflow._tasks :=
              [("A", PInt 5); ("B", PTuple [PFun "double"; PStr "A"])] |}.
  split_and!; reflexivity.
Qed.

Lemma followers_sources_agree_witness :
  Dict.ok (Workflow._tasks Demo.abc) ∧
  tasks_iterable (Workflow._tasks Demo.abc) = true ∧
  Workflow.followers_of "B" Demo.abc = (Ok ["C"], Demo.abc) ∧
  Workflow.sources_of "C" Demo.abc = (Ok ["B"], Demo.abc) ∧
  ∃ fs ss,
    Workflow.followers_of "B" Demo.abc = (Ok fs, Demo.abc) ∧
    Workflow.sources_of "C" Demo.abc = (Ok ss, Demo.abc) ∧
    ("C" ∈ fs ↔ "B" ∈ ss).
Proof.
  assert (Dict.ok (Workflow._tasks Demo.abc)) as Hok by compute_done.
  assert (tasks_iterable (Workflow._tasks Demo.abc) = true) as Hit
    by reflexivity.
  split; [exact Hok|]. split; [exact Hit|].
  split; [reflexivity|]. split; [reflexivity|].
  exact (followers_sources_agree Demo.abc "C" "B" Hok Hit).
Defined.

(** ** Binding arguments to a signature *)

Section signature.
Implicit Types (params ps front rest : list param) (args : list pyobj)
  (kwargs kw unused : gmap string pyobj) (arguments : Dict.t pyobj)
  (p q : param).

Lemma Dict_get_app {V} (d1 d2 : Dict.t V) k :
  Dict.get (d1 ++ d2) k =
  match Dict.get d1 k with Some v => Some v | None => Dict.get d2 k end.
Proof.
  induction d1 as [|[k' v'] d1 IH]; csimpl; [done|].
  by destruct (String.eqb k' k).
Qed.

Lemma bool_decide_cons_ne (k x : string) (l : list string) :
  k ≠ x → bool_decide (k ∈ x :: l) = bool_decide (k ∈ l).
Proof.
  intros Hne. apply bool_decide_ext. rewrite elem_of_cons. intuition.
Qed.

Lemma Dict_get_zip {V} (names : list string) (vals : list V) i k :
  NoDup names → names !! i = Some k →
  Dict.get (zip names vals) k = vals !! i.
Proof.
  revert vals i. induction names as [|k0 names IH]; intros vals i; [done|].
  rewrite NoDup_cons. intros [Hk0 Hnd]. destruct vals as [|v vals].
  - intros _. by rewrite lookup_nil.
  - destruct i as [|i]; csimpl.
    + intros [= ->]. by rewrite String.eqb_refl.
    + intros Hk. destruct (String.eqb_spec k0 k) as [->|_]; [|eauto].
      destruct Hk0. by eapply list_elem_of_lookup_2.
Qed.

Lemma Dict_get_zip_None {V} (names : list string) (vals : list V) k :
  k ∉ names → Dict.get (zip names vals) k = None.
Proof.
  intros Hk. apply Dict_get_None. unfold Dict.keys. intros Hin. apply Hk.
  apply list_elem_of_fmap in Hin as ([k' v] & -> & Hin).
  apply elem_of_zip_l in Hin. done.
Qed.

Lemma positional_end_nil kwargs args params rest vpart :
  (params = rest ∧ vpart = [] ∧ args = [] ∨
   ∃ vp, params = vp :: rest ∧ pkind vp = VAR_POSITIONAL ∧
         vpart = match args with
                 | [] => []
                 | xs => [(pname vp, PTuple xs)]
                 end) →
  positional_end kwargs args params vpart rest [].
Proof.
  intros Hend. exists params, vpart.
  split_and!; [done|done|csimpl; lia| | |].
  - intros p Hp. by apply elem_of_nil in Hp.
  - intros p Hp. by apply elem_of_nil in Hp.
  - destruct Hend as [(-> & -> & ->)|(vp & -> & Hvp & ->)].
    + left. by split_and!.
    + right. exists vp. split_and!; [done|done|by destruct args].
Qed.

Lemma positional_end_cons kwargs a args p params pos rest front :
  Signature.positional p = true →
  (pkind p = POSITIONAL_OR_KEYWORD → kwargs !! pname p = None) →
  positional_end kwargs args params pos rest front →
  positional_end kwargs (a :: args) (p :: params) ((pname p, a) :: pos) rest
    (p :: front).
Proof.
  intros Hp Hkw (tail & vpart & -> & -> & Hlen & Hpos & Hkws & Hend).
  exists tail, vpart. split_and!; [done|done|csimpl; lia| | |].
  - intros q [->|Hq]%elem_of_cons; auto.
  - intros q [->|Hq]%elem_of_cons; auto.
  - destruct Hend as [(-> & -> & Hlen')|(vp & -> & Hvp & ->)].
    + left. split_and!; try done. csimpl. lia.
    + right. exists vp. by split_and!.
Qed.

Lemma bind_positional_spec params args kwargs pos rest :
  Signature.bind_positional params args kwargs = Ok (pos, rest) →
  ∃ front, positional_end kwargs args params pos rest front.
Proof.
  revert params pos rest.
  induction args as [|a0 args IH]; intros params pos rest; csimpl.
  - destruct params as [|p0 params].
    + intros [= <- <-]. exists []. apply positional_end_nil.
      left. by split_and!.
    + intros Hrun. exists [].
      destruct (pkind p0) eqn:Hkind; csimpl in Hrun.
      3:{ injection Hrun as <- <-. apply positional_end_nil.
          right. exists p0. by split_and!. }
      all: destruct (Signature.in_kwargs kwargs p0); csimpl in Hrun;
        try done;
        try (destruct (bool_decide (is_Some (pdefault p0)));
             csimpl in Hrun; try done);
        injection Hrun as <- <-; apply positional_end_nil; left;
        by split_and!.
  - destruct params as [|p0 params]; [done|]. intros Hrun.
    destruct (pkind p0) eqn:Hkind; csimpl in Hrun; try done.
    3:{ injection Hrun as <- <-. exists []. apply positional_end_nil.
        right. exists p0. by split_and!. }
    all: destruct (Signature.in_kwargs kwargs p0) eqn:Hin; csimpl in Hrun;
      try done.
    all: destruct (Signature.bind_positional params args kwargs)
      as [[pos' rest']|e] eqn:Hrec; csimpl in Hrun; [|done].
    all: injection Hrun as <- <-.
    all: destruct (IH _ _ _ Hrec) as [front Hfront].
    all: exists (p0 :: front); apply positional_end_cons; [|intros Hk|done].
    all: try (unfold Signature.positional; by rewrite Hkind).
    all: try congruence.
    unfold Signature.in_kwargs in Hin. apply bool_decide_eq_false in Hin.
    by apply eq_None_not_Some.
Qed.
Lemma keyword_names_cons p ps :
  Signature.keyword_names (p :: ps) =
  if Signature.by_keyword p then pname p :: Signature.keyword_names ps
  else Signature.keyword_names ps.
Proof.
  unfold Signature.keyword_names. rewrite filter_cons.
  destruct (Signature.by_keyword p); by case_decide.
Qed.

Lemma keyword_names_subseteq ps k :
  k ∈ Signature.keyword_names ps → k ∈ pname <$> ps.
Proof.
  unfold Signature.keyword_names.
  intros (p & -> & [_ Hp]%list_elem_of_filter)%list_elem_of_fmap.
  by apply list_elem_of_fmap_2.
Qed.

(** The second loop of [bind]: the parameters that take a keyword are bound
    to theirs, and the keywords left over are those that none has taken. *)
Lemma bind_keywords_spec ps kw kp0 bound unused kp :
  Signature.bind_keywords ps kw kp0 = Ok (bound, unused, kp) →
  NoDup (pname <$> ps) →
  (∀ k, Dict.get bound k =
        if bool_decide (k ∈ Signature.keyword_names ps) then kw !! k
        else None) ∧
  (∀ p, p ∈ ps → Signature.variadic (pkind p) = false →
        kw !! pname p = None → is_Some (pdefault p)) ∧
  (∀ p, p ∈ ps → pkind p = POSITIONAL_ONLY → kw !! pname p = None) ∧
  (∀ k, unused !! k =
        if bool_decide (k ∈ Signature.keyword_names ps) then None
        else kw !! k) ∧
  kp = last_var_keyword ps kp0.
Proof.
  revert kw kp0 bound.
  induction ps as [|p0 ps IH]; intros kw kp0 bound; csimpl.
  - intros [= <- <- <-] _. split_and!; try done.
    + intros p Hp. by apply elem_of_nil in Hp.
    + intros p Hp. by apply elem_of_nil in Hp.
  - rewrite NoDup_cons, keyword_names_cons. intros Hrun [Hp0 Hnd].
    assert (pname p0 ∉ Signature.keyword_names ps) as Hp0'.
    { intros Hin. by apply Hp0, keyword_names_subseteq. }
    unfold Signature.by_keyword, Signature.variadic.
    destruct (pkind p0) eqn:Hkind; csimpl in *.
    3,5: destruct (IH _ _ _ Hrun Hnd) as (Hget & Hdef & Hpo & Hun & Hkp);
      split_and!; [done| | |done|done];
      intros p [->|Hp]%elem_of_cons; rewrite ?Hkind; try done; eauto.
    all: destruct (kw !! pname p0) as [v|] eqn:Hkw0; try done.
    all: try (destruct (Signature.bind_keywords ps (delete (pname p0) kw) kp0)
                as [[[bound' unused'] kp']|e] eqn:Hrec; csimpl in Hrun;
              [|done]; injection Hrun as <- <- <-;
              destruct (IH _ _ _ Hrec Hnd) as (Hget & Hdef & Hpo & Hun & Hkp);
              split_and!; [| | | |done]).
    all: try (destruct (pdefault p0) as [d0|] eqn:Hd0; [|done];
              destruct (IH _ _ _ Hrun Hnd) as (Hget & Hdef & Hpo & Hun & Hkp);
              split_and!; [| | | |done]).
    all: try (intros p [->|Hp]%elem_of_cons; rewrite ?Hkind; try done;
              intros; try congruence; try (by rewrite Hd0); eauto; fail).
    all: try (intros k; rewrite ?Hget, ?Hun;
              destruct (decide (k = pname p0)) as [->|Hne];
              [ rewrite ?(bool_decide_eq_false_2 _ Hp0');
                rewrite ?bool_decide_eq_true_2 by (apply elem_of_cons; by left);
                csimpl; rewrite ?String.eqb_refl, ?lookup_delete_eq; done
              | rewrite ?bool_decide_cons_ne by done; csimpl;
                try (apply not_eq_sym, String.eqb_neq in Hne as Hne';
                     rewrite Hne');
                rewrite ?Hget, ?lookup_delete_ne by done; done ]; fail).
    all: try (intros p [->|Hp]%elem_of_cons Hk Hnone; [congruence|];
              apply Hdef; [done|done|]; rewrite lookup_delete_ne; [done|];
              intros E; destruct Hp0; rewrite E; by apply list_elem_of_fmap_2).
    all: try (intros p [->|Hp]%elem_of_cons Hk; [congruence|];
              rewrite <-(Hpo p Hp Hk); symmetry; apply lookup_delete_ne;
              intros E; destruct Hp0; rewrite E; by apply list_elem_of_fmap_2).
Qed.
Lemma pname_inj params p q :
  NoDup (pname <$> params) → p ∈ params → q ∈ params →
  pname p = pname q → p = q.
Proof.
  induction params as [|p0 params IH]; csimpl.
  - intros _ Hp. by apply elem_of_nil in Hp.
  - rewrite NoDup_cons. intros [Hp0 Hnd].
    intros [->|Hp]%elem_of_cons [->|Hq]%elem_of_cons E; auto.
    + destruct Hp0. rewrite E. by apply list_elem_of_fmap_2.
    + destruct Hp0. rewrite <-E. by apply list_elem_of_fmap_2.
Qed.

Lemma keyword_names_elem params p :
  NoDup (pname <$> params) → p ∈ params →
  pname p ∈ Signature.keyword_names params ↔ Signature.by_keyword p = true.
Proof.
  intros Hnd Hp. unfold Signature.keyword_names. split.
  - intros (q & E & [Hq Hin]%list_elem_of_filter)%list_elem_of_fmap.
    by rewrite (pname_inj _ _ _ Hnd Hp Hin E).
  - intros Hk. apply list_elem_of_fmap. exists p. split; [done|].
    by apply list_elem_of_filter.
Qed.

Lemma keyword_names_app ps1 ps2 :
  Signature.keyword_names (ps1 ++ ps2) =
  Signature.keyword_names ps1 ++ Signature.keyword_names ps2.
Proof. unfold Signature.keyword_names. by rewrite filter_app, fmap_app. Qed.

Lemma ordered_rank top ps p :
  Signature.ordered top ps = true → p ∈ ps →
  (top ≤ Signature.kind_rank (pkind p))%nat.
Proof.
  revert top. induction ps as [|p0 ps IH]; intros top; csimpl.
  - intros _ Hp. by apply elem_of_nil in Hp.
  - intros [Htop Hrest]%andb_prop [->|Hp]%elem_of_cons.
    + by apply Nat.leb_le.
    + apply Nat.leb_le in Htop.
      destruct (Signature.variadic (pkind p0)).
      * apply andb_prop in Hrest as [_ Hrest].
        pose proof (IH _ Hrest Hp). lia.
      * pose proof (IH _ Hrest Hp). lia.
Qed.

Lemma ordered_app top ps1 p ps2 :
  Signature.ordered top (ps1 ++ p :: ps2) = true →
  Signature.ordered
    (if Signature.variadic (pkind p) then S (Signature.kind_rank (pkind p))
     else Signature.kind_rank (pkind p)) ps2 = true ∧
  (Signature.variadic (pkind p) = true → pdefault p = None).
Proof.
  revert top. induction ps1 as [|p0 ps1 IH]; intros top; csimpl.
  - intros [_ Hrest]%andb_prop. destruct (Signature.variadic (pkind p)).
    + apply andb_prop in Hrest as [Hd%bool_decide_eq_true Hrest]. done.
    + done.
  - intros [_ Hrest]%andb_prop. destruct (Signature.variadic (pkind p0)).
    + apply andb_prop in Hrest as [_ Hrest]. eauto.
    + eauto.
Qed.

Lemma ordered_suffix top ps1 ps2 :
  Signature.ordered top (ps1 ++ ps2) = true →
  ∃ top', Signature.ordered top' ps2 = true.
Proof.
  revert top. induction ps1 as [|p0 ps1 IH]; intros top; csimpl; [eauto|].
  intros [_ Hrest]%andb_prop. destruct (Signature.variadic (pkind p0)).
  - apply andb_prop in Hrest as [_ Hrest]. eauto.
  - eauto.
Qed.

Lemma last_var_keyword_elem ps kp0 vk :
  last_var_keyword ps kp0 = Some vk →
  kp0 = Some vk ∨ (vk ∈ ps ∧ pkind vk = VAR_KEYWORD).
Proof.
  unfold last_var_keyword. revert kp0.
  induction ps as [|p0 ps IH]; intros kp0; csimpl; [by left|].
  intros [E|[Hin Hk]]%IH.
  - destruct (pkind p0) eqn:Hkind; csimpl in E; try by left.
    injection E as <-. right. split; [apply elem_of_cons; by left|done].
  - right. split; [apply elem_of_cons; by right|done].
Qed.

(** In a well-formed signature the var-keyword parameter comes last, so it
    is the one that the second loop remembers. *)
Lemma last_var_keyword_ordered top ps kp0 vk :
  Signature.ordered top ps = true → vk ∈ ps → pkind vk = VAR_KEYWORD →
  last_var_keyword ps kp0 = Some vk.
Proof.
  intros Hord (ps1 & ps2 & ->)%list_elem_of_split Hk.
  destruct (ordered_app _ _ _ _ Hord) as [Hord2 _].
  rewrite Hk in Hord2. csimpl in Hord2. destruct ps2 as [|q ps2].
  - unfold last_var_keyword. rewrite foldl_app. csimpl. by rewrite Hk.
  - pose proof (ordered_rank _ _ q Hord2) as Hq.
    assert (q ∈ q :: ps2) as Hin by (apply elem_of_cons; by left).
    specialize (Hq Hin). destruct (pkind q); csimpl in Hq; lia.
Qed.

Lemma filter_not_elem_lookup (l : list string) kwargs k :
  filter (λ kv, kv.1 ∉ l) kwargs !! k =
  if bool_decide (k ∈ l) then None else kwargs !! k.
Proof.
  apply option_eq. intros v. rewrite map_lookup_filter_Some. csimpl.
  case_bool_decide; [|tauto]. split; [tauto | done].
Qed.
Lemma well_formed_spec params :
  Signature.well_formed params = true →
  NoDup (pname <$> params) ∧ Signature.ordered 0 params = true.
Proof.
  unfold Signature.well_formed.
  by intros [Hnd%bool_decide_eq_true Hord]%andb_prop.
Qed.

(** What [bind] followed by [apply_defaults] gives a declared parameter of
    a well-formed signature. *)
Lemma bind_spec params args kwargs arguments i p :
  Signature.bind params args kwargs = Ok arguments →
  Signature.well_formed params = true →
  params !! i = Some p →
  value_of arguments p = bound_value params args kwargs i p ∧
  is_Some (value_of arguments p).
Proof.
  unfold Signature.bind. intros Hbind [Hnd Hord]%well_formed_spec Hp.
  destruct (Signature.bind_positional params args kwargs)
    as [[pos rest]|e] eqn:Hpos; csimpl in Hbind; [|done].
  destruct (Signature.bind_keywords rest kwargs None)
    as [[[kwb unused] kp]|e] eqn:Hkw; csimpl in Hbind; [|done].
  destruct (bind_positional_spec _ _ _ _ _ Hpos)
    as (front & tail & vpart & -> & -> & Hlen & Hfront & Hfrontkw & Hend).
  (* the parameters that the second loop goes through *)
  assert (∃ skipped, tail = skipped ++ rest ∧
            (∀ q, q ∈ skipped → pkind q = VAR_POSITIONAL) ∧
            (skipped = [] → vpart = [] ∧ length front = length args) ∧
            (∀ vp, skipped = [vp] →
               (∀ q, q ∈ rest →
                  (3 ≤ Signature.kind_rank (pkind q))%nat) ∧
               vpart = match drop (length front) args with
                       | [] => []
                       | xs => [(pname vp, PTuple xs)]
                       end) ∧
            (skipped = [] ∨ ∃ vp, skipped = [vp]))
    as (skipped & -> & Hskipped & Hnone & Hone & Hcases).
  { destruct Hend as [(-> & -> & Hlen')|(vp & -> & Hvp & ->)].
    - exists []. split_and!; try done.
      + intros q Hq. by apply elem_of_nil in Hq.
      + by left.
    - exists [vp]. split_and!; try done.
      + by intros q ->%list_elem_of_singleton.
      + intros vp' [= <-]. split; [|done].
        destruct (ordered_app _ _ _ _ Hord) as [Hord' _].
        rewrite Hvp in Hord'. csimpl in Hord'.
        intros q Hq. by apply (ordered_rank _ _ _ Hord').
      + right. by exists vp. }
  rewrite !fmap_app in Hnd.
  apply NoDup_app in Hnd as (Hnd1 & Hdisj1 & Hnd').
  pose proof Hnd' as Hnd''.
  apply NoDup_app in Hnd' as (Hnds & Hdisj2 & Hnd2).
  destruct (bind_keywords_spec _ _ _ _ _ _ Hkw Hnd2)
    as (Hget & Hdef & Hpo & Hun & Hkp).
  (* the keywords left over *)
  assert (unused = Signature.extra_keywords (front ++ skipped ++ rest) kwargs)
    as Hunused.
  { apply map_eq. intros k. rewrite Hun. unfold Signature.extra_keywords.
    rewrite filter_not_elem_lookup, !keyword_names_app.
    assert (Signature.keyword_names skipped = []) as ->.
    { unfold Signature.keyword_names.
      destruct Hcases as [->|[vp ->]]; [done|].
      rewrite filter_cons. rewrite decide_False; [done|].
      unfold Signature.by_keyword.
      rewrite (Hskipped vp) by (by apply list_elem_of_singleton). done. }
    csimpl. destruct (decide (k ∈ Signature.keyword_names rest)) as [Hr|Hr].
    - rewrite (bool_decide_eq_true_2 _ Hr).
      rewrite bool_decide_eq_true_2; [done|]. apply elem_of_app. by right.
    - rewrite (bool_decide_eq_false_2 _ Hr).
      destruct (decide (k ∈ Signature.keyword_names front)) as [Hf|Hf].
      + rewrite bool_decide_eq_true_2 by (apply elem_of_app; by left).
        unfold Signature.keyword_names in Hf.
        apply list_elem_of_fmap in Hf
          as (q & -> & [Hq Hin]%list_elem_of_filter).
        apply Hfrontkw; [done|]. specialize (Hfront _ Hin).
        unfold Signature.positional in Hfront.
        unfold Signature.by_keyword in Hq.
        by destruct (pkind q).
      + rewrite bool_decide_eq_false_2; [done|]. rewrite elem_of_app. tauto. }
  (* the var-keyword parameter is apart from the others *)
  assert (∀ q, q ∈ front ++ skipped ++ rest → pkind q ≠ VAR_KEYWORD →
            Dict.get arguments (pname q) =
            Dict.get ((zip (pname <$> front) args ++ vpart) ++ kwb) (pname q))
    as Hother.
  { intros q Hq Hkind. case_bool_decide; [congruence|].
    destruct kp as [vk|]; [|done]. injection Hbind as <-.
    apply Dict_get_set_ne. intros E.
    symmetry in Hkp. apply last_var_keyword_elem in Hkp as [?|[Hin Hvk]];
      [done|].
    assert (vk ∈ front ++ skipped ++ rest) as Hin'.
    { rewrite !elem_of_app. auto. }
    assert (NoDup (pname <$> front ++ skipped ++ rest)) as Hnd.
    { rewrite !fmap_app. apply NoDup_app. by split_and!. }
    rewrite (pname_inj _ _ _ Hnd Hin' Hq E) in Hvk. done. }
  assert (∀ q, q ∈ rest →
            Dict.get (zip (pname <$> front) args ++ vpart) (pname q) = None)
    as Hrest.
  { intros q Hq. rewrite Dict_get_app, Dict_get_zip_None.
    - destruct Hcases as [E|[vp E]].
      + by destruct (Hnone E) as [-> _].
      + destruct (Hone _ E) as [_ ->]. subst skipped.
        destruct (drop (length front) args); [done|]. csimpl.
        destruct (String.eqb_spec (pname vp) (pname q)) as [E|_]; [|done].
        destruct (Hdisj2 (pname vp)).
        * csimpl. apply elem_of_cons. by left.
        * rewrite E. by apply list_elem_of_fmap_2.
    - intros Hin. apply (Hdisj1 _ Hin). rewrite elem_of_app.
      right. by apply list_elem_of_fmap_2. }
  unfold value_of, bound_value.
  apply lookup_app_Some in Hp as [Hp|[Hi Hp]].
  - (* a positional parameter that has taken its argument *)
    assert (p ∈ front) as Hin by by eapply list_elem_of_lookup_2.
    assert (is_Some (args !! i)) as [a Ha].
    { apply lookup_lt_is_Some. apply lookup_lt_Some in Hp. lia. }
    rewrite Hother.
    + rewrite !Dict_get_app. rewrite (Dict_get_zip _ _ i), Ha.
      * specialize (Hfront _ Hin). unfold Signature.positional in Hfront.
        destruct (pkind p); try done; eauto.
      * done.
      * by rewrite list_lookup_fmap, Hp.
    + apply elem_of_app. by left.
    + specialize (Hfront _ Hin). unfold Signature.positional in Hfront.
      by destruct (pkind p).
  - apply lookup_app_Some in Hp as [Hp|[Hj Hp]].
    + (* the var-positional parameter *)
      destruct Hcases as [->|[vp ->]]; [done|].
      apply list_lookup_singleton_Some in Hp as [Hj ->].
      assert (i = length front) as -> by lia.
      assert (pkind p = VAR_POSITIONAL) as Hkind.
      { apply Hskipped. by apply list_elem_of_singleton. }
      destruct (Hone _ eq_refl) as [_ ->].
      rewrite Hother; [rewrite Hkind| |by rewrite Hkind].
      * rewrite !Dict_get_app, Dict_get_zip_None.
        -- destruct (drop (length front) args) as [|x xs]; csimpl.
           ++ rewrite Hget, bool_decide_eq_false_2.
              ** unfold Signature.default_value.
                 destruct (ordered_app _ _ _ _ Hord) as [_ Hd].
                 rewrite Hd, Hkind by (by rewrite Hkind). eauto.
              ** intros Hin%keyword_names_subseteq. apply (Hdisj2 (pname p));
                   [|done]. csimpl. apply elem_of_cons. by left.
           ++ rewrite String.eqb_refl. eauto.
        -- intros Hin. apply (Hdisj1 _ Hin). csimpl. apply elem_of_cons.
           by left.
      * rewrite !elem_of_app, list_elem_of_singleton. auto.
    + (* a parameter of the second loop *)
      assert (p ∈ rest) as Hin by by eapply list_elem_of_lookup_2.
      assert (args !! i = None ∧ drop i args = [] ∨
              (3 ≤ Signature.kind_rank (pkind p))%nat) as Hargs.
      { destruct Hcases as [E|[vp E]].
        - left. destruct (Hnone E) as [_ Hlen']. subst skipped.
          split; [apply lookup_ge_None; lia | apply drop_ge; lia].
        - right. destruct (Hone _ E) as [Hrank _]. by apply Hrank. }
      assert (pkind p = VAR_KEYWORD ∨ pkind p ≠ VAR_KEYWORD) as [Hkind|Hkind]
        by (destruct (pkind p); auto).
      * (* the var-keyword parameter *)
        rewrite Hkind.
        assert (kp = Some p) as ->.
        { rewrite Hkp.
          rewrite app_assoc in Hord.
          destruct (ordered_suffix _ _ _ Hord) as [top Hr].
          by eapply last_var_keyword_ordered. }
        assert (Dict.get ((zip (pname <$> front) args ++ vpart) ++ kwb)
                  (pname p) = None) as Hnone'.
        { rewrite Dict_get_app, (Hrest _ Hin), Hget.
          rewrite bool_decide_eq_false_2; [done|].
          rewrite keyword_names_elem by done.
          unfold Signature.by_keyword. by rewrite Hkind. }
        case_bool_decide as Hsize.
        -- injection Hbind as <-. rewrite Hnone'.
           unfold Signature.default_value. rewrite Hkind.
           apply list_elem_of_split in Hin as (r1 & r2 & ->).
           rewrite !app_assoc in Hord.
           destruct (ordered_app _ _ _ _ Hord) as [_ Hd].
           rewrite Hd by (by rewrite Hkind).
           apply map_size_empty_iff in Hsize.
           rewrite <-Hunused, Hsize, map_to_list_empty. eauto.
        -- injection Hbind as <-. rewrite Dict_get_set_eq, <-Hunused. eauto.
      * rewrite Hother; [| |done].
        -- rewrite Dict_get_app, (Hrest _ Hin), Hget.
           pose proof (keyword_names_elem rest p Hnd2 Hin) as Hkn.
           unfold Signature.by_keyword in Hkn.
           unfold Signature.default_value.
           pose proof (Hdef p Hin) as Hdef'. pose proof (Hpo p Hin) as Hpo'.
           unfold Signature.variadic in Hdef'.
           apply list_elem_of_split in Hin as (r1 & r2 & Er).
           rewrite Er, !app_assoc in Hord.
           destruct (ordered_app _ _ _ _ Hord) as [_ Hd].
           unfold Signature.variadic in Hd.
           destruct (pkind p) eqn:Hk; csimpl in *; try done.
           ++ rewrite bool_decide_eq_false_2
                by (intros ?%Hkn; done).
              destruct Hargs as [[-> _]|?]; [|lia].
              specialize (Hdef' eq_refl (Hpo' eq_refl)).
              destruct Hdef' as [d ->]. eauto.
           ++ rewrite bool_decide_eq_true_2 by (by apply Hkn).
              destruct Hargs as [[-> _]|?]; [|lia].
              destruct (kwargs !! pname p); [eauto|].
              destruct (Hdef' eq_refl eq_refl) as [d ->]. eauto.
           ++ rewrite bool_decide_eq_false_2
                by (intros ?%Hkn; done).
              rewrite Hd by done. destruct Hargs as [[_ ->]|?]; [eauto|lia].
           ++ rewrite bool_decide_eq_true_2 by (by apply Hkn).
              destruct (kwargs !! pname p); [eauto|].
              destruct (Hdef' eq_refl eq_refl) as [d ->]. eauto.
        -- rewrite !elem_of_app. auto.
Qed.
Lemma apply_defaults_spec params arguments :
  (∀ p, p ∈ params → is_Some (value_of arguments p)) →
  (Signature.apply_defaults params arguments).*1 = pname <$> params ∧
  ∀ i p, params !! i = Some p →
    (Signature.apply_defaults params arguments).*2 !! i = value_of arguments p.
Proof.
  unfold value_of.
  induction params as [|p0 params IH]; intros Hsome; csimpl.
  - split; [done|]. intros i p Hp. done.
  - destruct IH as [IH1 IH2].
    { intros p Hp. apply Hsome, elem_of_cons. by right. }
    destruct (Hsome p0) as [val Hval]; [apply elem_of_cons; by left|].
    destruct (Dict.get arguments (pname p0)) as [val'|] eqn:Hget;
      [|rewrite Hval]; csimpl; rewrite IH1; (split; [done|]);
      intros [|i] p; csimpl; try (by auto); intros [= <-];
      by rewrite Hget.
Qed.

(** The values [set] stores after the function: one per declared
    parameter, in declaration order. *)
Lemma bound_values params args kwargs arguments :
  Signature.well_formed params = true →
  Signature.bind params args kwargs = Ok arguments →
  length (Signature.apply_defaults params arguments).*2 = length params ∧
  ∀ i p, params !! i = Some p →
    (Signature.apply_defaults params arguments).*2 !! i =
    bound_value params args kwargs i p.
Proof.
  intros Hwf Hbind.
  assert (∀ p, p ∈ params → is_Some (value_of arguments p)) as Hsome.
  { intros p [i Hp]%list_elem_of_lookup_1.
    by destruct (bind_spec _ _ _ _ _ _ Hbind Hwf Hp). }
  destruct (apply_defaults_spec _ _ Hsome) as [Hnames Hvalues]. split.
  - rewrite length_fmap, <-(length_fmap fst), Hnames. by rewrite length_fmap.
  - intros i p Hp. rewrite (Hvalues _ _ Hp).
    by destruct (bind_spec _ _ _ _ _ _ Hbind Hwf Hp).
Qed.
End signature.

(** ** Recording a recipe *)

Section recording.
Context {rt : Runtime}.

Lemma run_set_callable (w : Workflow.t) (name : string) (f : fid)
    (args : list pyobj) (kwargs : gmap string pyobj) :
  Workflow.keyword_clash kwargs = false →
  Workflow.set name (PFun f) args kwargs w =
  match Signature.bind (signature f) args kwargs with
  | Ok arguments =>
      (Ok tt,
       {| Workflow._tasks :=
            Dict.set (Workflow._tasks w) name
              (PTuple (PFun f ::
                 (Signature.apply_defaults (signature f) arguments).*2)) |})
  | Raise e => (Raise e, w)
  end.
Proof.
  intros Hclash. unfold Workflow.set. rewrite Hclash. csimpl.
  rewrite run_bind. unfold lift.
  by destruct (Signature.bind (signature f) args kwargs).
Qed.

Lemma run_set_clash (w : Workflow.t) (name : string) (func_or_data : pyobj)
    (args : list pyobj) (kwargs : gmap string pyobj) :
  Workflow.keyword_clash kwargs = true →
  Workflow.set name func_or_data args kwargs w = (Raise TypeError, w).
Proof. intros Hclash. unfold Workflow.set. by rewrite Hclash. Qed.

(** C8: for a callable [f] and arguments that its signature accepts, none
    of the keywords being one of [set]'s own parameters [self], [name] and
    [func_or_data], [set] followed by [get_task] gives the tuple of [f] and
    one value per declared parameter, in declaration order.  A positional
    parameter holds the positional argument at its place; failing that, a
    parameter that can be passed by keyword holds the keyword argument of
    its name; failing that, the declared default.  A var-positional
    parameter holds the tuple of the positional arguments from its place
    on, a var-keyword parameter the dictionary of the keywords that no
    parameter takes by name.  Whatever was stored under the name before is
    gone; the other recipes are as they were. *)
Theorem set_then_get_task (w : Workflow.t) (name : string) (f : fid)
    (args : list pyobj) (kwargs : gmap string pyobj)
    (arguments : Dict.t pyobj) :
  Signature.well_formed (signature f) = true →
  Workflow.keyword_clash kwargs = false →
  Signature.bind (signature f) args kwargs = Ok arguments →
  ∃ w' bound,
    Workflow.set name (PFun f) args kwargs w = (Ok tt, w') ∧
    Workflow.get_task name w' = (Ok (PTuple (PFun f :: bound)), w') ∧
    length bound = length (signature f) ∧
    (∀ i p, signature f !! i = Some p →
       bound !! i =
       match pkind p with
       | POSITIONAL_ONLY =>
           match args !! i with Some a => Some a | None => pdefault p end
       | POSITIONAL_OR_KEYWORD =>
           match args !! i with
           | Some a => Some a
           | None =>
               match kwargs !! pname p with
               | Some v => Some v
               | None => pdefault p
               end
           end
       | VAR_POSITIONAL => Some (PTuple (drop i args))
       | KEYWORD_ONLY =>
           match kwargs !! pname p with
           | Some v => Some v
           | None => pdefault p
           end
       | VAR_KEYWORD =>
           Some (PDict (map_to_list
                          (Signature.extra_keywords (signature f) kwargs)))
       end) ∧
    (∀ other, other ≠ name →
       Dict.get (Workflow._tasks w') other =
       Dict.get (Workflow._tasks w) other) ∧
    (Dict.ok (Workflow._tasks w) → Dict.ok (Workflow._tasks w')).
Proof.
  intros Hwf Hclash Hbind.
  destruct (bound_values _ _ _ _ Hwf Hbind) as [Hlen Hvalues].
  set (bound := (Signature.apply_defaults (signature f) arguments).*2) in *.
  exists {| Workflow._tasks :=
              Dict.set (Workflow._tasks w) name (PTuple (PFun f :: bound)) |},
         bound.
  split_and!.
  - by rewrite run_set_callable, Hbind.
  - unfold Workflow.get_task. rewrite run_bind. csimpl.
    by rewrite Dict_get_set_eq.
  - done.
  - intros i p Hp. by rewrite (Hvalues _ _ Hp).
  - intros other Hne. csimpl. by rewrite Dict_get_set_ne.
  - csimpl. apply Dict_ok_set.
Qed.
End recording.

Lemma set_then_get_task_witness :
  Signature.well_formed (signature "blur") = true ∧
  Workflow.keyword_clash {[ "mode" := PInt 2; "smooth" := PInt 3 ]} = false ∧
  Signature.bind (signature "blur") [PStr "C"]
    {[ "mode" := PInt 2; "smooth" := PInt 3 ]} =
    Ok [("image", PStr "C"); ("mode", PInt 2);
        ("options", PDict [("smooth", PInt 3)])] ∧
  ∃ w' bound,
    Workflow.set "D" (PFun "blur") [PStr "C"]
      {[ "mode" := PInt 2; "smooth" := PInt 3 ]} Demo.abc = (Ok tt, w') ∧
    Workflow.get_task "D" w' = (Ok (PTuple (PFun "blur" :: bound)), w') ∧
    bound = [PStr "C"; PInt 1; PInt 2; PDict [("smooth", PInt 3)]].
Proof.
  assert (Signature.well_formed (signature "blur") = true) as Hwf
    by reflexivity.
  assert (Workflow.keyword_clash {[ "mode" := PInt 2; "smooth" := PInt 3 ]}
          = false) as Hclash by reflexivity.
  assert (Signature.bind (signature "blur") [PStr "C"]
            {[ "mode" := PInt 2; "smooth" := PInt 3 ]} =
          Ok [("image", PStr "C"); ("mode", PInt 2);
              ("options", PDict [("smooth", PInt 3)])]) as Hbind
    by reflexivity.
  split; [exact Hwf|]. split; [exact Hclash|]. split; [exact Hbind|].
  destruct (set_then_get_task (rt := Demo.runtime) Demo.abc "D" "blur"
              [PStr "C"] _ _ Hwf Hclash Hbind)
    as (w' & bound & Hset & Hget & Hlen & Hval & _).
  exists w', bound. split_and!; [exact Hset|exact Hget|].
  pose proof (Hval 0 _ eq_refl) as H0. pose proof (Hval 1 _ eq_refl) as H1.
  pose proof (Hval 2 _ eq_refl) as H2. pose proof (Hval 3 _ eq_refl) as H3.
  vm_compute in Hlen, H0, H1, H2, H3. clear Hval Hset Hget Hbind Hclash Hwf.
  destruct bound as [|b0 [|b1 [|b2 [|b3 [|b4 bound]]]]]; try discriminate.
  congruence.
Defined.

(** A keyword argument called [name] is accepted by the signature of
    [label(image, name)], and the call of [set] raises [TypeError]: the
    keyword collides with [set]'s own parameter. *)
Lemma set_keyword_name_raises :
  Signature.bind (signature "label") [PStr "C"] {[ "name" := PStr "foo" ]} =
    Ok [("image", PStr "C"); ("name", PStr "foo")] ∧
  Workflow.set "D" (PFun "label") [PStr "C"] {[ "name" := PStr "foo" ]}
    Demo.abc = (Raise TypeError, Demo.abc) ∧
  Workflow.get_task "D" Demo.abc = (Raise KeyError, Demo.abc).
Proof. split_and!; reflexivity. Qed.

(** ** The recipes are only changed by [set] and [remove] *)

Section recipes_frame.
Context {rt : Runtime}.

(** C10: the queries [roots], [followers_of], [sources_of], [leafs] and
    [get_task], and [invalidate], leave the dictionary of recipes exactly
    as it was, whether they return or raise; [set] and [remove] are able to
    change it. *)
Theorem queries_leave_recipes :
  (∀ w, Workflow._tasks (Workflow.roots w).2 = Workflow._tasks w) ∧
  (∀ item w,
     Workflow._tasks (Workflow.followers_of item w).2 = Workflow._tasks w) ∧
  (∀ item w,
     Workflow._tasks (Workflow.sources_of item w).2 = Workflow._tasks w) ∧
  (∀ w, Workflow._tasks (Workflow.leafs w).2 = Workflow._tasks w) ∧
  (∀ name w,
     Workflow._tasks (Workflow.get_task name w).2 = Workflow._tasks w) ∧
  (∀ fuel items self,
     Workflow._tasks
       (WorkflowManager.workflow
          (WorkflowManager.invalidate fuel items self).2) =
     Workflow._tasks (WorkflowManager.workflow self)) ∧
  (∃ name value w,
     Workflow._tasks (Workflow.set name value [] ∅ w).2 ≠ Workflow._tasks w) ∧
  (∃ name w,
     Workflow._tasks (Workflow.remove name w).2 ≠ Workflow._tasks w).
Proof.
  split_and!.
  - intros w. exact (f_equal Workflow._tasks (roots_readonly w)).
  - intros item w.
    exact (f_equal Workflow._tasks (followers_of_readonly item w)).
  - intros item w.
    exact (f_equal Workflow._tasks (sources_of_readonly item w)).
  - intros w. exact (f_equal Workflow._tasks (leafs_readonly w)).
  - intros name w. exact (f_equal Workflow._tasks (get_task_readonly name w)).
  - intros fuel items self.
    exact (f_equal Workflow._tasks
             (invalidate_preserves_workflow fuel items self)).
  - exists "A", (PInt 1), Workflow.init. done.
  - exists "B", Demo.abc. done.
Qed.

(** C7: [get] never evaluates anything.  The name [dask_get] is not bound
    in the module, so the call raises [NameError] for every dictionary and
    every name, a literal recipe included. *)
Theorem get_raises_NameError (w : Workflow.t) (name : string) :
  Workflow.get name w = (Raise NameError, w).
Proof. reflexivity. Qed.
End recipes_frame.

(** ** Chains of followers *)

Section chains.
Implicit Types (tasks : Dict.t pyobj) (via : string → bool)
  (items : list string).

Lemma chain_mono tasks via items items' n :
  (∀ x, x ∈ items → x ∈ items') →
  chain tasks via items n → chain tasks via items' n.
Proof.
  intros Hsub Hchain. destruct Hchain as [items n Hin Hvia|items f fs n Hin Hvia Hfs Hchain].
  - apply chain_here; auto.
  - eapply chain_below; eauto.
Qed.

Lemma chain_ext tasks via via' items n :
  (∀ x, via x = via' x) →
  chain tasks via items n → chain tasks via' items n.
Proof.
  intros Hext Hchain.
  induction Hchain as [items n Hin Hvia|items f fs n Hin Hvia Hfs _ IH].
  - apply chain_here; [done|]. by rewrite <-Hext.
  - eapply chain_below; [done| |done|done]. by rewrite <-Hext.
Qed.

Lemma chain_nil tasks via n : ¬ chain tasks via [] n.
Proof.
  intros Hchain. inversion Hchain as [? ? Hin|? ? ? ? Hin]; subst;
    by apply elem_of_nil in Hin.
Qed.

Lemma chain_cons_inv tasks via f items n :
  chain tasks via (f :: items) n →
  (via f = true ∧
   (n = f ∨ ∃ fs, followers tasks f = Ok fs ∧ chain tasks via fs n)) ∨
  chain tasks via items n.
Proof.
  intros Hchain.
  inversion Hchain as [? ? Hin Hvia|? g fs ? Hin Hvia Hfs Hbelow]; subst.
  - apply elem_of_cons in Hin as [->|Hin]; [left; auto|].
    right. by apply chain_here.
  - apply elem_of_cons in Hin as [->|Hin]; [left; eauto|].
    right. by eapply chain_below.
Qed.

Lemma chain_app tasks via items items' n :
  chain tasks via (items ++ items') n ↔
  chain tasks via items n ∨ chain tasks via items' n.
Proof.
  split.
  - intros Hchain.
    inversion Hchain as [? ? Hin Hvia|? g fs ? Hin Hvia Hfs Hbelow]; subst;
      apply elem_of_app in Hin as [Hin|Hin];
      first [ left; by apply chain_here | right; by apply chain_here
            | left; by eapply chain_below | right; by eapply chain_below ].
  - intros [Hchain|Hchain]; eapply chain_mono; try exact Hchain;
      intros x Hx; apply elem_of_app; auto.
Qed.

Lemma bounded_cons tasks d f items :
  bounded tasks (S d) (f :: items) = true →
  (∃ fs, followers tasks f = Ok fs ∧ bounded tasks d fs = true) ∧
  bounded tasks (S d) items = true.
Proof.
  csimpl. intros [Hf Hitems]%andb_true_iff. split; [|done].
  destruct (followers tasks f) as [fs|e]; [eauto | done].
Qed.
End chains.

(** ** Invalidation *)

Section invalidation.
Implicit Types (self : WorkflowManager.t) (items : list string).

Lemma run_followers self (i : string) :
  WorkflowManager.in_workflow (Workflow.followers_of i) self =
  (followers (recipes self) i, self).
Proof. by destruct self. Qed.

Lemma invalidate_nil fuel self :
  WorkflowManager.invalidate (S fuel) [] self = (Ok tt, self).
Proof. reflexivity. Qed.

Lemma invalidate_cons fuel f items self :
  WorkflowManager.invalidate (S fuel) (f :: items) self =
  if has_record self f then
    match followers (recipes self) f with
    | Ok fs =>
        match WorkflowManager.invalidate fuel fs (flagged self f) with
        | (Ok _, self') => WorkflowManager.invalidate (S fuel) items self'
        | (Raise e, self') => (Raise e, self')
        end
    | Raise e => (Raise e, flagged self f)
    end
  else WorkflowManager.invalidate (S fuel) items self.
Proof.
  cbn [WorkflowManager.invalidate for_each]. rewrite run_bind, run_bind.
  unfold gets at 1. fold (has_record self f).
  destruct (has_record self f); [|reflexivity].
  rewrite run_bind.
  change (WorkflowManager.set_metadata f METADATA_WORKFLOW_VALID_KEY
            (PBool false) self) with (Ok tt, flagged self f).
  cbv beta iota. rewrite run_bind, run_followers.
  change (recipes (flagged self f)) with (recipes self).
  destruct (followers (recipes self) f) as [fs|e]; [|reflexivity].
  destruct (WorkflowManager.invalidate fuel fs (flagged self f))
    as [[[]|e] self']; reflexivity.
Qed.
Lemma mark_mark (layer : Layer) : mark (mark layer) = mark layer.
Proof.
  unfold mark, with_metadata. csimpl. f_equal. apply insert_insert_eq.
Qed.

Lemma mark_flag (layer : Layer) :
  metadata (mark layer) !! METADATA_WORKFLOW_VALID_KEY = Some (PBool false).
Proof. apply lookup_insert_eq. Qed.

Lemma touched_refl self : touched self self.
Proof. split; auto. Qed.

Lemma touched_trans self1 self2 self3 :
  touched self1 self2 → touched self2 self3 → touched self1 self3.
Proof.
  intros [Hw12 Hv12] [Hw23 Hv23]. split; [congruence|]. intros n.
  destruct (Hv12 n) as [E12|E12], (Hv23 n) as [E23|E23];
    rewrite E23, E12; auto.
  right. destruct (WorkflowManager.viewer self1 !! n); csimpl; [|done].
  by rewrite mark_mark.
Qed.

Lemma touched_flagged self f : touched self (flagged self f).
Proof.
  split; [done|]. intros n. csimpl.
  destruct (decide (n = f)) as [->|Hne].
  - right. apply lookup_alter_eq.
  - left. by apply lookup_alter_ne.
Qed.

Lemma touched_has_record self self' n :
  touched self self' → has_record self' n = has_record self n.
Proof.
  intros [_ Hv]. unfold has_record, _viewer_has_layer.
  destruct (Hv n) as [->| ->]; [done|].
  by destruct (WorkflowManager.viewer self !! n).
Qed.

Lemma touched_recipes self self' : touched self self' → recipes self' = recipes self.
Proof. intros [Hw _]. unfold recipes. by rewrite Hw. Qed.

(** Once set to [False], a flag stays so under further marking. *)
Lemma touched_marked self1 self2 self3 n :
  touched self1 self2 → touched self2 self3 →
  WorkflowManager.viewer self2 !! n =
    mark <$> WorkflowManager.viewer self1 !! n →
  WorkflowManager.viewer self3 !! n =
    mark <$> WorkflowManager.viewer self1 !! n.
Proof.
  intros _ [_ Hv23] E12. destruct (Hv23 n) as [E23|E23]; rewrite E23, E12;
    [done|].
  destruct (WorkflowManager.viewer self1 !! n); csimpl; [|done].
  by rewrite mark_mark.
Qed.

Lemma touched_then_marked self1 self2 self3 n :
  touched self1 self2 →
  WorkflowManager.viewer self3 !! n =
    mark <$> WorkflowManager.viewer self2 !! n →
  WorkflowManager.viewer self3 !! n =
    mark <$> WorkflowManager.viewer self1 !! n.
Proof.
  intros [_ Hv12] E23. rewrite E23. destruct (Hv12 n) as [->| ->]; [done|].
  destruct (WorkflowManager.viewer self1 !! n); csimpl; [|done].
  by rewrite mark_mark.
Qed.

(** Whether it returns or raises, [invalidate] only ever sets flags to
    [False]. *)
Lemma invalidate_touched fuel items self :
  touched self (WorkflowManager.invalidate fuel items self).2.
Proof.
  revert items self. induction fuel as [|fuel IHfuel]; intros items self.
  - apply touched_refl.
  - revert self. induction items as [|f items IHitems]; intros self.
    + apply touched_refl.
    + rewrite invalidate_cons. destruct (has_record self f); [|apply IHitems].
      destruct (followers (recipes self) f) as [fs|e];
        [|apply touched_flagged].
      pose proof (IHfuel fs (flagged self f)) as Hsub.
      destruct (WorkflowManager.invalidate fuel fs (flagged self f))
        as [[[]|e] self'] eqn:Hrun; csimpl in Hsub.
      * eapply touched_trans; [|apply IHitems].
        eapply touched_trans; [apply touched_flagged | exact Hsub].
      * eapply touched_trans; [apply touched_flagged | exact Hsub].
Qed.

(** A record that no chain of recorded names leads to is left as it is. *)
Lemma invalidate_elsewhere fuel items self n :
  ¬ chain (recipes self) (has_record self) items n →
  WorkflowManager.viewer (WorkflowManager.invalidate fuel items self).2 !! n =
  WorkflowManager.viewer self !! n.
Proof.
  revert items self. induction fuel as [|fuel IHfuel]; intros items self;
    [done|].
  revert self. induction items as [|f items IHitems]; intros self Hno; [done|].
  rewrite invalidate_cons. destruct (has_record self f) eqn:Hf.
  - assert (n ≠ f) as Hne.
    { intros ->. apply Hno, chain_here; [apply elem_of_cons; by left | done]. }
    assert (WorkflowManager.viewer (flagged self f) !! n =
            WorkflowManager.viewer self !! n) as Hflagged
      by by apply lookup_alter_ne.
    destruct (followers (recipes self) f) as [fs|e] eqn:Hfs; [|done].
    pose proof (touched_flagged self f) as Ht1.
    pose proof (invalidate_touched fuel fs (flagged self f)) as Ht2.
    assert (WorkflowManager.viewer
              (WorkflowManager.invalidate fuel fs (flagged self f)).2 !! n =
            WorkflowManager.viewer self !! n) as Hsub.
    { rewrite IHfuel; [done|]. intros Hchain. apply Hno.
      eapply chain_below; [apply elem_of_cons; by left|done|done|].
      eapply chain_ext; [|exact Hchain].
      intros x. by apply touched_has_record. }
    destruct (WorkflowManager.invalidate fuel fs (flagged self f))
      as [[[]|e] self'] eqn:Hrun; csimpl in *; [|done].
    rewrite IHitems; [done|]. intros Hchain. apply Hno.
    eapply chain_mono; [intros x Hx; apply elem_of_cons; right; exact Hx|].
    pose proof (touched_trans _ _ _ Ht1 Ht2) as Ht.
    rewrite (touched_recipes _ _ Ht) in Hchain.
    eapply chain_ext; [|exact Hchain].
    intros x. by apply touched_has_record.
  - apply IHitems. intros Hchain. apply Hno.
    eapply chain_mono; [|exact Hchain].
    intros x Hx. apply elem_of_cons. by right.
Qed.

(** On a bounded graph, with fuel for its depth, [invalidate] returns and has
    set the flag of every record that a chain of recorded names leads to. *)
Lemma invalidate_reaches d fuel items self :
  bounded (recipes self) d items = true → d < fuel →
  ∃ self',
    WorkflowManager.invalidate fuel items self = (Ok tt, self') ∧
    ∀ n, chain (recipes self) (has_record self) items n →
         WorkflowManager.viewer self' !! n =
           mark <$> WorkflowManager.viewer self !! n.
Proof.
  revert fuel items self. induction d as [|d IHd]; intros fuel items self.
  - destruct items; [|done]. intros _ Hfuel.
    destruct fuel as [|fuel]; [lia|]. exists self. split; [done|].
    intros n Hchain. by apply chain_nil in Hchain.
  - intros Hbounded Hfuel. destruct fuel as [|fuel]; [lia|].
    assert (d < fuel) as Hfuel' by lia. clear Hfuel.
    revert self Hbounded. induction items as [|f items IHitems];
      intros self Hbounded.
    + exists self. split; [done|]. intros n Hchain.
      by apply chain_nil in Hchain.
    + apply bounded_cons in Hbounded as [(fs & Hfs & Hbfs) Hbitems].
      rewrite invalidate_cons. destruct (has_record self f) eqn:Hf.
      * rewrite Hfs. pose proof (touched_flagged self f) as Ht1.
        destruct (IHd fuel fs (flagged self f) Hbfs Hfuel')
          as (self1 & Hrun1 & Hmarks1).
        pose proof (invalidate_touched fuel fs (flagged self f)) as Ht2.
        rewrite Hrun1 in Ht2 |- *. csimpl in Ht2.
        pose proof (touched_trans _ _ _ Ht1 Ht2) as Ht12.
        destruct (IHitems self1) as (self2 & Hrun2 & Hmarks2).
        { by rewrite (touched_recipes _ _ Ht12). }
        pose proof (invalidate_touched (S fuel) items self1) as Ht3.
        rewrite Hrun2 in Ht3. csimpl in Ht3.
        exists self2. split; [done|]. intros n Hchain.
        apply chain_cons_inv in Hchain
          as [[_ [->|(fs' & Hfs' & Hchain)]]|Hchain].
        -- eapply (touched_marked self (flagged self f)); [done| |].
           ++ by eapply touched_trans.
           ++ apply lookup_alter_eq.
        -- assert (fs' = fs) as -> by congruence.
           eapply (touched_marked self self1); [done|done|].
           eapply touched_then_marked; [exact Ht1|].
           apply Hmarks1. eapply chain_ext; [|exact Hchain].
           intros x. symmetry. by apply touched_has_record.
        -- eapply touched_then_marked; [exact Ht12|].
           apply Hmarks2. rewrite (touched_recipes _ _ Ht12).
           eapply chain_ext; [|exact Hchain].
           intros x. symmetry. by apply touched_has_record.
      * destruct (IHitems self Hbitems) as (self2 & Hrun2 & Hmarks2).
        exists self2. split; [done|]. intros n Hchain.
        apply chain_cons_inv in Hchain as [[Hvia _]|Hchain]; [congruence|].
        by apply Hmarks2.
Qed.
End invalidation.

Lemma chain_end tasks via items n : chain tasks via items n → via n = true.
Proof. induction 1; auto. Qed.

(** C1 (as amended): on a graph of bounded depth below [items], the call
    [invalidate(items)] returns, and afterwards every record reached from
    [items] by a chain of followers all of which have records, the starting
    name and the record itself included, has its validity flag set to
    [False].  The recursion stops at a name without a record: a record that
    no such chain leads to is left exactly as it was, also when it is a
    descendant of [items] behind a name without a record. *)
Theorem invalidate_marks_recorded_chains (self : WorkflowManager.t)
    (items : list string) (d fuel : nat) :
  bounded (recipes self) d items = true →
  d < fuel →
  ∃ self',
    WorkflowManager.invalidate fuel items self = (Ok tt, self') ∧
    recipes self' = recipes self ∧
    (∀ n, chain (recipes self) (has_record self) items n →
          has_record self' n = true ∧
          valid_flag (WorkflowManager.viewer self') n = Some (PBool false)) ∧
    (∀ n, ¬ chain (recipes self) (has_record self) items n →
          WorkflowManager.viewer self' !! n =
            WorkflowManager.viewer self !! n).
Proof.
  intros Hbounded Hfuel.
  destruct (invalidate_reaches d fuel items self Hbounded Hfuel)
    as (self' & Hrun & Hmarks).
  pose proof (invalidate_touched fuel items self) as Ht.
  pose proof (invalidate_elsewhere fuel items self) as Helse.
  rewrite Hrun in Ht, Helse. csimpl in *.
  exists self'. split_and!; [done|apply touched_recipes, Ht| |done].
  intros n Hchain. rewrite (touched_has_record _ _ _ Ht).
  pose proof (chain_end _ _ _ _ Hchain) as Hn. split; [done|].
  unfold valid_flag. rewrite (Hmarks n Hchain).
  unfold has_record, _viewer_has_layer in Hn.
  destruct (WorkflowManager.viewer self !! n) as [layer|]; [|done].
  apply mark_flag.
Qed.

Lemma invalidate_marks_recorded_chains_witness :
  bounded (recipes Demo.fresh) 3 ["A"] = true ∧
  3 < 5 ∧
  ∃ self',
    WorkflowManager.invalidate 5 ["A"] Demo.fresh = (Ok tt, self') ∧
    recipes self' = recipes Demo.fresh ∧
    (∀ n, chain (recipes Demo.fresh) (has_record Demo.fresh) ["A"] n →
          has_record self' n = true ∧
          valid_flag (WorkflowManager.viewer self') n = Some (PBool false)) ∧
    (∀ n, ¬ chain (recipes Demo.fresh) (has_record Demo.fresh) ["A"] n →
          WorkflowManager.viewer self' !! n =
            WorkflowManager.viewer Demo.fresh !! n).
Proof.
  assert (bounded (recipes Demo.fresh) 3 ["A"] = true) as Hbounded
    by reflexivity.
  assert (3 < 5) as Hfuel by lia.
  exact (conj Hbounded (conj Hfuel
    (invalidate_marks_recorded_chains Demo.fresh ["A"] 3 5 Hbounded Hfuel))).
Defined.

(** C1 as stated fails: [C] is a follower of [B], [B] of [A]; [C] has a
    record and [B] none.  After [invalidate(["A"])] the flag of [C] is still
    [True]. *)
Lemma invalidate_stops_at_missing_record :
  (WorkflowManager.invalidate 5 ["A"] Demo.gap).1 = Ok tt ∧
  chain (recipes Demo.gap) anything ["A"] "C" ∧
  has_record (WorkflowManager.invalidate 5 ["A"] Demo.gap).2 "C" = true ∧
  valid_flag
    (WorkflowManager.viewer (WorkflowManager.invalidate 5 ["A"] Demo.gap).2)
    "C" = Some (PBool true).
Proof.
  split_and!; [reflexivity| |vm_compute; reflexivity|vm_compute; reflexivity].
  eapply (chain_below _ _ _ "A" ["B"]);
    [apply elem_of_cons; by left|done|reflexivity|].
  eapply (chain_below _ _ _ "B" ["C"]);
    [apply elem_of_cons; by left|done|reflexivity|].
  apply chain_here; [apply elem_of_cons; by left|done].
Qed.

(** ** The scan for the first invalid layer *)

Section scan.
Implicit Types (self : WorkflowManager.t) (items : list string).

Lemma run_first_loop items self :
  first_some items (λ i,
    layers ← gets WorkflowManager.viewer;
    if _viewer_has_layer layers i then
      match layers !! i with
      | Some layer => mret (if _layer_invalid layer then Some i else None)
      | None => raise KeyError
      end
    else mret None) self = (Ok (find (invalid_in self) items), self).
Proof.
  induction items as [|i items IH]; [done|].
  cbn [first_some find]. rewrite run_bind, run_bind. unfold gets at 1.
  unfold invalid_in at 1, invalid_record, _viewer_has_layer.
  destruct (WorkflowManager.viewer self !! i) as [layer|]; [|exact IH].
  destruct (_layer_invalid layer); [done | exact IH].
Qed.

Lemma search_unfold fuel items self :
  WorkflowManager._search_first_invalid_layer (S fuel) items self =
  match find (invalid_in self) items with
  | Some i => (Ok (Some i), self)
  | None => below fuel items self
  end.
Proof.
  cbn [WorkflowManager._search_first_invalid_layer].
  rewrite run_bind, run_first_loop.
  by destruct (find (invalid_in self) items).
Qed.

Lemma below_nil fuel self : below fuel [] self = (Ok None, self).
Proof. reflexivity. Qed.

Lemma below_cons fuel i items self :
  below fuel (i :: items) self =
  match followers (recipes self) i with
  | Ok fs =>
      match WorkflowManager._search_first_invalid_layer fuel fs self with
      | (Ok (Some n), self') => (Ok (Some n), self')
      | (Ok None, self') => below fuel items self'
      | (Raise e, self') => (Raise e, self')
      end
  | Raise e => (Raise e, self)
  end.
Proof.
  unfold below at 1. cbn [first_some]. rewrite run_bind, run_bind, run_followers.
  destruct (followers (recipes self) i) as [fs|e]; [|done].
  destruct (WorkflowManager._search_first_invalid_layer fuel fs self)
    as [[[n|]|e] self']; reflexivity.
Qed.

(** The scan reads; it writes nothing. *)
Lemma search_readonly fuel items self :
  (WorkflowManager._search_first_invalid_layer fuel items self).2 = self.
Proof.
  revert items self. induction fuel as [|fuel IH]; intros items self; [done|].
  rewrite search_unfold. destruct (find (invalid_in self) items); [done|].
  induction items as [|i items IHitems]; [done|].
  rewrite below_cons. destruct (followers (recipes self) i) as [fs|e]; [|done].
  specialize (IH fs self).
  destruct (WorkflowManager._search_first_invalid_layer fuel fs self)
    as [[[n|]|e] self']; csimpl in IH; by subst.
Qed.

(** What the scan selects is an invalid record that followers lead to. *)
Lemma search_sound fuel items self n self' :
  WorkflowManager._search_first_invalid_layer fuel items self =
    (Ok (Some n), self') →
  invalid_in self n = true ∧ chain (recipes self) anything items n.
Proof.
  revert items self. induction fuel as [|fuel IH]; intros items self; [done|].
  rewrite search_unfold.
  destruct (find (invalid_in self) items) as [i|] eqn:Hfind.
  - intros [= <- <-]. apply find_some in Hfind as [Hin Hinv].
    split; [done|]. apply chain_here; [by apply list_elem_of_In | done].
  - clear Hfind. induction items as [|i items IHitems]; [done|].
    rewrite below_cons.
    destruct (followers (recipes self) i) as [fs|e] eqn:Hfs; [|done].
    pose proof (search_readonly fuel fs self) as Hro.
    destruct (WorkflowManager._search_first_invalid_layer fuel fs self)
      as [[[m|]|e] self1] eqn:Hrun; csimpl in Hro; subst self1; [| |done].
    + intros [= <- <-]. destruct (IH _ _ Hrun) as [Hinv Hchain].
      split; [done|].
      eapply chain_below; [apply elem_of_cons; by left|done|done|done].
    + intros Hrest. destruct (IHitems Hrest) as [Hinv Hchain].
      split; [done|]. eapply chain_mono; [|exact Hchain].
      intros x Hx. apply elem_of_cons. by right.
Qed.

(** The outcome of the second loop, given the outcome of the recursive
    scans. *)
Lemma below_spec d fuel self
    (IH : ∀ items, bounded (recipes self) d items = true →
       ∃ r, WorkflowManager._search_first_invalid_layer fuel items self =
              (Ok r, self) ∧
            (r = None → ∀ n, chain (recipes self) anything items n →
                             invalid_in self n = false)) items :
  bounded (recipes self) (S d) items = true →
  ∃ r, below fuel items self = (Ok r, self) ∧
    match r with
    | None =>
        ∀ i fs n, i ∈ items → followers (recipes self) i = Ok fs →
                  chain (recipes self) anything fs n →
                  invalid_in self n = false
    | Some n =>
        ∃ before i after fs,
          items = before ++ i :: after ∧
          (∀ j fs' m, j ∈ before → followers (recipes self) j = Ok fs' →
                      chain (recipes self) anything fs' m →
                      invalid_in self m = false) ∧
          followers (recipes self) i = Ok fs ∧
          WorkflowManager._search_first_invalid_layer fuel fs self =
            (Ok (Some n), self)
    end.
Proof.
  induction items as [|i items IHitems]; intros Hbounded.
  - exists None. split; [done|]. intros i fs n Hin. by apply elem_of_nil in Hin.
  - apply bounded_cons in Hbounded as [(fs & Hfs & Hbfs) Hbitems].
    rewrite below_cons, Hfs. destruct (IH fs Hbfs) as (r & Hrun & Hnone).
    rewrite Hrun. destruct r as [n|].
    + exists (Some n). split; [done|]. exists [], i, items, fs.
      split_and!; [done| |done|done].
      intros j fs' m Hj. by apply elem_of_nil in Hj.
    + destruct (IHitems Hbitems) as (r & Hrest & Hr). exists r.
      split; [done|]. destruct r as [n|].
      * destruct Hr as (before & j & after & fs' & -> & Hbefore & Hfs' & Hsel).
        exists (i :: before), j, after, fs'. split_and!; [done| |done|done].
        intros k fsk m [->|Hk]%elem_of_cons Hfsk Hchain.
        -- assert (fsk = fs) as -> by congruence. by apply Hnone.
        -- by eapply Hbefore.
      * intros k fsk m [->|Hk]%elem_of_cons Hfsk Hchain.
        -- assert (fsk = fs) as -> by congruence. by apply Hnone.
        -- by eapply Hr.
Qed.

(** On a bounded graph the scan returns, and it finds nothing only if no
    invalid record can be reached. *)
Lemma search_complete d fuel items self :
  bounded (recipes self) d items = true → d < fuel →
  ∃ r, WorkflowManager._search_first_invalid_layer fuel items self =
         (Ok r, self) ∧
       (r = None → ∀ n, chain (recipes self) anything items n →
                        invalid_in self n = false).
Proof.
  revert fuel items. induction d as [|d IHd]; intros fuel items.
  - destruct items; [|done]. intros _ Hfuel.
    destruct fuel as [|fuel]; [lia|]. exists None. split; [done|].
    intros _ n Hchain. by apply chain_nil in Hchain.
  - intros Hbounded Hfuel. destruct fuel as [|fuel]; [lia|].
    assert (d < fuel) as Hfuel' by lia. rewrite search_unfold.
    destruct (find (invalid_in self) items) as [i|] eqn:Hfind.
    + exists (Some i). split; [done|]. done.
    + destruct (below_spec d fuel self (λ its Hb, IHd fuel its Hb Hfuel')
                  items Hbounded) as (r & Hrun & Hr).
      exists r. split; [done|]. intros ->. intros n Hchain.
      inversion Hchain as [? ? Hin _|? f fs ? Hin _ Hfs Hbelow]; subst.
      * eapply find_none in Hfind; [done|]. by apply list_elem_of_In.
      * by eapply Hr.
Qed.

(** With enough fuel for the depth of the graph, the outcome of the scan
    does not depend on the fuel. *)
Lemma search_fuel d fuel fuel' items self :
  bounded (recipes self) d items = true → d < fuel → d < fuel' →
  WorkflowManager._search_first_invalid_layer fuel items self =
  WorkflowManager._search_first_invalid_layer fuel' items self.
Proof.
  revert fuel fuel' items. induction d as [|d IHd]; intros fuel fuel' items.
  - destruct items; [|done]. intros _ Hfuel Hfuel'.
    destruct fuel as [|fuel]; [lia|]. destruct fuel' as [|fuel']; [lia|].
    by rewrite !search_unfold.
  - intros Hbounded Hfuel Hfuel'.
    destruct fuel as [|fuel]; [lia|]. destruct fuel' as [|fuel']; [lia|].
    rewrite !search_unfold. destruct (find (invalid_in self) items); [done|].
    induction items as [|i items IHitems]; [done|].
    apply bounded_cons in Hbounded as [(fs & Hfs & Hbfs) Hbitems].
    rewrite !below_cons, Hfs. rewrite (IHd fuel fuel' fs Hbfs) by lia.
    pose proof (search_readonly fuel' fs self) as Hro.
    destruct (WorkflowManager._search_first_invalid_layer fuel' fs self)
      as [[[n|]|e] self']; csimpl in Hro; subst; auto.
Qed.

(** What the scan selects when no name of the list is an invalid record:
    the scans of the followers of the earlier names select nothing, and the
    scan of the followers of the name [i] selects it. *)
Lemma search_below d fuel items self n :
  bounded (recipes self) d items = true → d < fuel →
  find (invalid_in self) items = None →
  WorkflowManager._search_first_invalid_layer fuel items self =
    (Ok (Some n), self) →
  ∃ before i after fs,
    items = before ++ i :: after ∧
    (∀ j fs', j ∈ before → followers (recipes self) j = Ok fs' →
       WorkflowManager._search_first_invalid_layer fuel fs' self =
         (Ok None, self)) ∧
    followers (recipes self) i = Ok fs ∧
    bounded (recipes self) (pred d) fs = true ∧
    WorkflowManager._search_first_invalid_layer fuel fs self =
      (Ok (Some n), self).
Proof.
  intros Hbounded Hfuel Hfind Hrun. destruct fuel as [|fuel]; [lia|].
  rewrite search_unfold, Hfind in Hrun.
  destruct d as [|d]; [by destruct items|]. assert (d < fuel) as Hfuel' by lia.
  clear Hfind. induction items as [|i items IHitems]; [done|].
  apply bounded_cons in Hbounded as [(fs & Hfs & Hbfs) Hbitems].
  rewrite below_cons, Hfs in Hrun.
  destruct (search_complete d fuel fs self Hbfs Hfuel') as (r & Hfsrun & _).
  rewrite Hfsrun in Hrun.
  rewrite (search_fuel d fuel (S fuel) fs self Hbfs) in Hfsrun by lia.
  destruct r as [m|].
  - injection Hrun as ->. exists [], i, items, fs.
    split_and!; [done| |done|done|done].
    intros j fs' Hj. by apply elem_of_nil in Hj.
  - destruct (IHitems Hbitems Hrun)
      as (before & j & after & fs' & -> & Hbefore & Hfs' & Hb' & Hsel).
    exists (i :: before), j, after, fs'. split_and!; try done.
    intros k fsk [->|Hk]%elem_of_cons Hfsk; [|by eapply Hbefore].
    by assert (fsk = fs) as -> by congruence.
Qed.
End scan.

(** C2 (as amended): on a graph of bounded depth below [items] the scan
    returns without changing anything, and it is level-first, then
    depth-first, at every level.  Every name of the list is checked before
    any follower is looked at, and the first invalid record of the list is
    selected.  If the list has none, the followers of its names are scanned
    in list order by the same scan, each to its full depth before the next
    name's followers are looked at: the scans of the followers of the
    earlier names select nothing, no invalid record can be reached from
    those names, and what is selected is what the scan of the followers of
    the name [i] selects, which is again bounded.  A name contributes its
    followers whether it has a record or not.  Nothing is selected exactly
    when no invalid record can be reached from the list along followers. *)
Theorem scan_is_level_then_depth_first (self : WorkflowManager.t)
    (items : list string) (d fuel : nat) :
  bounded (recipes self) d items = true →
  d < fuel →
  ∃ selected,
    WorkflowManager._search_first_invalid_layer fuel items self =
      (Ok selected, self) ∧
    (selected = None ↔
     ∀ n, chain (recipes self) anything items n → invalid_in self n = false) ∧
    (∀ n, selected = Some n →
          invalid_in self n = true ∧ chain (recipes self) anything items n) ∧
    (∀ i, find (invalid_in self) items = Some i → selected = Some i) ∧
    (find (invalid_in self) items = None →
     ∀ n, selected = Some n →
       ∃ before i after fs,
         items = before ++ i :: after ∧
         (∀ m, chain (recipes self) anything before m →
               invalid_in self m = false) ∧
         (∀ j fs', j ∈ before → followers (recipes self) j = Ok fs' →
            WorkflowManager._search_first_invalid_layer fuel fs' self =
              (Ok None, self)) ∧
         followers (recipes self) i = Ok fs ∧
         bounded (recipes self) (pred d) fs = true ∧
         WorkflowManager._search_first_invalid_layer fuel fs self =
           (Ok (Some n), self) ∧
         chain (recipes self) anything fs n).
Proof.
  intros Hbounded Hfuel.
  destruct (search_complete d fuel items self Hbounded Hfuel)
    as (r & Hrun & Hnone).
  exists r. split_and!; [done| | | |].
  - split; [done|]. intros Hall. destruct r as [n|]; [|done].
    destruct (search_sound _ _ _ _ _ Hrun) as [Hinv Hchain].
    rewrite (Hall n Hchain) in Hinv. done.
  - intros n ->. by eapply search_sound.
  - intros i Hfind. destruct fuel as [|fuel]; [lia|].
    rewrite search_unfold, Hfind in Hrun. congruence.
  - intros Hfind n ->.
    destruct (search_below d fuel items self n Hbounded Hfuel Hfind Hrun)
      as (before & i & after & fs & -> & Hbefore & Hfs & Hbfs & Hsel).
    exists before, i, after, fs. split_and!; try done.
    + intros m Hchain.
      inversion Hchain as [? ? Hin _|? j fs' ? Hin _ Hfs' Hbelow]; subst.
      * eapply find_none in Hfind; [done|].
        apply list_elem_of_In, elem_of_app. by left.
      * specialize (Hbefore _ _ Hin Hfs').
        destruct (invalid_in self m) eqn:Hm; [|done].
        assert (bounded (recipes self) (pred d) fs' = true) as Hbfs'.
        { destruct d as [|d]; [by destruct before|]. csimpl.
          apply forallb_elem with (x := j) in Hbounded;
            [|apply elem_of_app; by left].
          by rewrite Hfs' in Hbounded. }
        destruct d as [|d]; [by destruct before|]. csimpl in Hbfs'.
        destruct (search_complete d fuel fs' self Hbfs' ltac:(lia))
          as (r & Hrun' & Hr).
        assert (r = None) as -> by congruence.
        by rewrite (Hr eq_refl m Hbelow) in Hm.
    + by eapply search_sound.
Qed.

Lemma scan_is_level_then_depth_first_witness :
  bounded (recipes Demo.fork_gap) 3 ["r1"; "r2"] = true ∧
  3 < 5 ∧
  find (invalid_in Demo.fork_gap) ["r1"; "r2"] = None ∧
  WorkflowManager._search_first_invalid_layer 5 ["r1"; "r2"] Demo.fork_gap =
    (Ok (Some "b"), Demo.fork_gap) ∧
  invalid_in Demo.fork_gap "b" = true ∧
  chain (recipes Demo.fork_gap) anything ["r1"; "r2"] "b" ∧
  ∃ before i after fs,
    ["r1"; "r2"] = before ++ i :: after ∧
    (∀ m, chain (recipes Demo.fork_gap) anything before m →
          invalid_in Demo.fork_gap m = false) ∧
    (∀ j fs', j ∈ before →
       followers (recipes Demo.fork_gap) j = Ok fs' →
       WorkflowManager._search_first_invalid_layer 5 fs' Demo.fork_gap =
         (Ok None, Demo.fork_gap)) ∧
    followers (recipes Demo.fork_gap) i = Ok fs ∧
    bounded (recipes Demo.fork_gap) 2 fs = true ∧
    WorkflowManager._search_first_invalid_layer 5 fs Demo.fork_gap =
      (Ok (Some "b"), Demo.fork_gap) ∧
    chain (recipes Demo.fork_gap) anything fs "b".
Proof.
  assert (bounded (recipes Demo.fork_gap) 3 ["r1"; "r2"] = true) as Hbounded
    by reflexivity.
  assert (3 < 5) as Hfuel by lia.
  assert (find (invalid_in Demo.fork_gap) ["r1"; "r2"] = None) as Hfind
    by reflexivity.
  assert (WorkflowManager._search_first_invalid_layer 5 ["r1"; "r2"]
            Demo.fork_gap = (Ok (Some "b"), Demo.fork_gap)) as Hscan
    by reflexivity.
  destruct (scan_is_level_then_depth_first Demo.fork_gap ["r1"; "r2"] 3 5
              Hbounded Hfuel) as (selected & Hrun & _ & Hsound & _ & Hbelow).
  assert (selected = Some "b") as -> by congruence.
  destruct (Hsound "b" eq_refl) as [Hinv Hchain].
  exact (conj Hbounded (conj Hfuel (conj Hfind (conj Hscan (conj Hinv
    (conj Hchain (Hbelow Hfind "b" eq_refl))))))).
Defined.

(** C2 as stated fails.  The roots are [r1] and [r2]; [c] is a follower of
    [r2], one step below the roots, and invalid; [b] is a follower of [a],
    which is a follower of [r1], two steps below.  The scan selects [b],
    where a breadth-first scan by layer selects [c].  It still selects [b]
    when [a] has no record, where the scan of the specification takes [a]
    for a dead end. *)
Lemma scan_is_not_breadth_first :
  (Workflow.roots Demo.fork_tasks).1 = Ok ["r1"; "r2"] ∧
  followers (recipes Demo.fork) "r2" = Ok ["c"] ∧
  invalid_in Demo.fork "c" = true ∧
  followers (recipes Demo.fork) "r1" = Ok ["a"] ∧
  followers (recipes Demo.fork) "a" = Ok ["b"] ∧
  (WorkflowManager._search_first_invalid_layer 5 ["r1"; "r2"] Demo.fork).1 =
    Ok (Some "b") ∧
  spec_find_first_invalid 5 (recipes Demo.fork)
    (WorkflowManager.viewer Demo.fork) ["r1"; "r2"] = Ok (Some "c") ∧
  has_record Demo.fork_gap "a" = false ∧
  (WorkflowManager._search_first_invalid_layer 5 ["r1"; "r2"]
     Demo.fork_gap).1 = Ok (Some "b") ∧
  spec_find_first_invalid 5 (recipes Demo.fork_gap)
    (WorkflowManager.viewer Demo.fork_gap) ["r1"; "r2"] = Ok (Some "c").
Proof. split_and!; vm_compute; reflexivity. Qed.

(** ** A record without a validity flag *)

Lemma find_first {A} (f : A → bool) (before after : list A) (x : A) :
  find f before = None → f x = true → find f (before ++ x :: after) = Some x.
Proof.
  intros Hbefore Hx. induction before as [|y before IH]; csimpl in *.
  - by rewrite Hx.
  - destruct (f y); [done | auto].
Qed.

(** C5 (as amended): a record whose metadata has no validity flag is not
    invalid: [_layer_invalid] answers [False] for it, and no scan selects
    it.  Only a record whose flag is present and equal to [False] qualifies
    for selection: [_layer_invalid] holds of a record exactly when its
    flag is [False] (or [0], which equals [False]); a record that a scan
    selects is one of these; and such a record is selected by the scan of
    a list in which no invalid record comes before it. *)
Theorem unflagged_record_is_not_invalid (self : WorkflowManager.t)
    (name : string) (layer : Layer) :
  WorkflowManager.viewer self !! name = Some layer →
  (_layer_invalid layer = true ↔
   metadata layer !! METADATA_WORKFLOW_VALID_KEY = Some (PBool false) ∨
   metadata layer !! METADATA_WORKFLOW_VALID_KEY = Some (PInt 0)) ∧
  (metadata layer !! METADATA_WORKFLOW_VALID_KEY = None →
   _layer_invalid layer = false ∧
   ∀ fuel items,
     (WorkflowManager._search_first_invalid_layer fuel items self).1 ≠
       Ok (Some name)) ∧
  (∀ fuel items,
     (WorkflowManager._search_first_invalid_layer fuel items self).1 =
       Ok (Some name) →
     _layer_invalid layer = true) ∧
  (_layer_invalid layer = true →
   ∀ fuel before after,
     find (invalid_in self) before = None →
     WorkflowManager._search_first_invalid_layer (S fuel)
       (before ++ name :: after) self = (Ok (Some name), self)).
Proof.
  intros Hlayer.
  assert (∀ fuel items,
            (WorkflowManager._search_first_invalid_layer fuel items self).1 =
              Ok (Some name) →
            _layer_invalid layer = true) as Hselected.
  { intros fuel items Hsel.
    destruct (WorkflowManager._search_first_invalid_layer fuel items self)
      as [r self'] eqn:Hrun. csimpl in Hsel. subst r.
    apply search_sound in Hrun as [Hn _].
    unfold invalid_in, invalid_record in Hn. by rewrite Hlayer in Hn. }
  split_and!.
  - unfold _layer_invalid.
    destruct (metadata layer !! METADATA_WORKFLOW_VALID_KEY) as [flag|];
      [|split; [done | by intros [?|?]]].
    split.
    + destruct flag as [|[]|z| | | | |]; csimpl; try done; [by left|].
      intros ->%Z.eqb_eq. by right.
    + by intros [[= ->]|[= ->]].
  - intros Hflag.
    assert (_layer_invalid layer = false) as Hinv
      by (unfold _layer_invalid; by rewrite Hflag).
    split; [done|]. intros fuel items Hsel.
    rewrite (Hselected _ _ Hsel) in Hinv. done.
  - exact Hselected.
  - intros Hinv fuel before after Hbefore. rewrite search_unfold.
    rewrite (find_first _ _ _ _ Hbefore); [done|].
    unfold invalid_in, invalid_record. by rewrite Hlayer.
Qed.

Lemma unflagged_record_is_not_invalid_witness :
  (WorkflowManager.viewer Demo.unflagged !! "B" =
     Some (Demo.layer Demo.none None) ∧
   metadata (Demo.layer Demo.none None) !! METADATA_WORKFLOW_VALID_KEY =
     None ∧
   _layer_invalid (Demo.layer Demo.none None) = false ∧
   ∀ fuel items,
     (WorkflowManager._search_first_invalid_layer fuel items
        Demo.unflagged).1 ≠ Ok (Some "B")) ∧
  (WorkflowManager.viewer Demo.stale !! "B" =
     Some (Demo.layer Demo.none (Some false)) ∧
   metadata (Demo.layer Demo.none (Some false))
     !! METADATA_WORKFLOW_VALID_KEY = Some (PBool false) ∧
   _layer_invalid (Demo.layer Demo.none (Some false)) = true ∧
   find (invalid_in Demo.stale) ["A"] = None ∧
   WorkflowManager._search_first_invalid_layer 5 ["A"; "B"; "C"] Demo.stale =
     (Ok (Some "B"), Demo.stale)).
Proof.
  assert (WorkflowManager.viewer Demo.unflagged !! "B" =
            Some (Demo.layer Demo.none None)) as Hlayer by reflexivity.
  assert (metadata (Demo.layer Demo.none None)
            !! METADATA_WORKFLOW_VALID_KEY = None) as Hflag by reflexivity.
  assert (WorkflowManager.viewer Demo.stale !! "B" =
            Some (Demo.layer Demo.none (Some false))) as Hlayer'
    by reflexivity.
  assert (metadata (Demo.layer Demo.none (Some false))
            !! METADATA_WORKFLOW_VALID_KEY = Some (PBool false)) as Hflag'
    by reflexivity.
  assert (find (invalid_in Demo.stale) ["A"] = None) as Hbefore
    by reflexivity.
  destruct (unflagged_record_is_not_invalid Demo.unflagged "B" _ Hlayer)
    as (_ & Habsent & _ & _).
  destruct (unflagged_record_is_not_invalid Demo.stale "B" _ Hlayer')
    as (Hiff & _ & _ & Hqualifies).
  pose proof (proj2 Hiff (or_introl Hflag')) as Hinv.
  split.
  - exact (conj Hlayer (conj Hflag (Habsent Hflag))).
  - exact (conj Hlayer' (conj Hflag' (conj Hinv (conj Hbefore
      (Hqualifies Hinv 4 ["A"] ["C"] Hbefore))))).
Defined.

(** C5 as stated fails: [B] has a record and follows the root [A].  With no
    flag on [B] the scan selects nothing; with the flag [False] on [B] it
    selects [B]. *)
Lemma unflagged_record_is_skipped :
  has_record Demo.unflagged "B" = true ∧
  valid_flag (WorkflowManager.viewer Demo.unflagged) "B" = None ∧
  (WorkflowManager._search_first_invalid_layer 5 ["A"] Demo.unflagged).1 =
    Ok None ∧
  valid_flag (WorkflowManager.viewer Demo.stale) "B" = Some (PBool false) ∧
  (WorkflowManager._search_first_invalid_layer 5 ["A"] Demo.stale).1 =
    Ok (Some "B").
Proof. split_and!; vm_compute; reflexivity. Qed.

(** ** The background step and the loop *)

Section background.
Context {rt : Runtime}.
Implicit Types (self : WorkflowManager.t).

Lemma run_roots self :
  WorkflowManager.in_workflow Workflow.roots self =
  ((Workflow.roots (WorkflowManager.workflow self)).1, self).
Proof. by destruct self. Qed.

Lemma run_get_task self name :
  WorkflowManager.in_workflow (Workflow.get_task name) self =
  (match Dict.get (recipes self) name with
   | Some task => Ok task
   | None => Raise KeyError
   end, self).
Proof.
  destruct self as [layers [tasks]].
  unfold WorkflowManager.in_workflow, Workflow.get_task, recipes. csimpl.
  rewrite run_bind. csimpl. by destruct (Dict.get tasks name).
Qed.

(** The recompute of a recorded call reads the live payloads and calls the
    function; it writes nothing. *)
Lemma run_compute self name f arguments :
  Dict.get (recipes self) name = Some (PTuple (PFun f :: arguments)) →
  WorkflowManager._compute name self =
  (call f (WorkflowManager.resolve (WorkflowManager.viewer self) <$> arguments),
   self).
Proof.
  intros Htask. unfold WorkflowManager._compute.
  rewrite run_bind, run_get_task, Htask. reflexivity.
Qed.

Lemma yields_nothing_bind {S A B} (m : M S A) (k : A → M S (option B)) :
  (∀ a, yields_nothing (k a)) → yields_nothing (m ≫= k).
Proof.
  intros Hk s. rewrite run_bind. destruct (m s) as [[a|e] s']; [apply Hk|].
  right. by exists e.
Qed.

Lemma yields_nothing_ret {S A} : yields_nothing (mret None : M S (option A)).
Proof. intros s. by left. Qed.

Lemma update_invalid_layer_yields_nothing fuel :
  yields_nothing (WorkflowManager._update_invalid_layer fuel).
Proof.
  unfold WorkflowManager._update_invalid_layer.
  apply yields_nothing_bind; intros origins.
  apply yields_nothing_bind; intros [layer|]; [|apply yields_nothing_ret].
  do 3 (apply yields_nothing_bind; intros ?). apply yields_nothing_ret.
Qed.

(** X28: the callback re-checks the record and drops the result when it is
    gone: a result for a name without a record leaves the manager exactly as
    it was and raises nothing. *)
Lemma update_layer_drops_orphan fuel self name payload :
  has_record self name = false →
  WorkflowManager.update_layer fuel (Some (name, payload)) self = (Ok tt, self).
Proof.
  intros Hgone. unfold WorkflowManager.update_layer. rewrite run_bind.
  unfold gets. fold (has_record self name). by rewrite Hgone.
Qed.

(** C4 (as amended): when the function of the selected layer raises during
    the recompute, nothing catches the exception: it leaves the step and
    ends the loop, whatever number of rounds was still to come.  Nothing has
    been written, so the record is still invalid. *)
Theorem failed_recompute_ends_loop self (fuel ticks : nat)
    (origins : list string) (name : string) (f : fid)
    (arguments : list pyobj) (e : exn) :
  (Workflow.roots (WorkflowManager.workflow self)).1 = Ok origins →
  (WorkflowManager._search_first_invalid_layer fuel origins self).1 =
    Ok (Some name) →
  Dict.get (recipes self) name = Some (PTuple (PFun f :: arguments)) →
  call f (WorkflowManager.resolve (WorkflowManager.viewer self) <$> arguments)
    = Raise e →
  WorkflowManager.loop_run fuel (S ticks) self = (Raise e, self) ∧
  invalid_in self name = true.
Proof.
  intros Hroots Hsel Htask Hcall.
  pose proof (search_readonly fuel origins self) as Hro.
  destruct (WorkflowManager._search_first_invalid_layer fuel origins self)
    as [r self'] eqn:Hrun. csimpl in Hsel. csimpl in Hro. subst r self'.
  split; [|by apply search_sound in Hrun as [? _]].
  cbn [WorkflowManager.loop_run]. rewrite run_bind.
  unfold WorkflowManager._update_invalid_layer.
  rewrite run_bind, run_roots, Hroots, run_bind, Hrun, run_bind.
  rewrite (run_compute _ _ _ _ Htask), Hcall. reflexivity.
Qed.
End background.

Lemma failed_recompute_ends_loop_witness :
  (Workflow.roots (WorkflowManager.workflow Demo.broken)).1 = Ok ["A"] ∧
  (WorkflowManager._search_first_invalid_layer 5 ["A"] Demo.broken).1 =
    Ok (Some "B") ∧
  Dict.get (recipes Demo.broken) "B" =
    Some (PTuple (PFun "boom" :: [PStr "A"])) ∧
  call "boom"
    (WorkflowManager.resolve (WorkflowManager.viewer Demo.broken)
       <$> [PStr "A"]) = Raise ValueError ∧
  WorkflowManager.loop_run 5 (S 2) Demo.broken = (Raise ValueError, Demo.broken) ∧
  invalid_in Demo.broken "B" = true.
Proof.
  assert ((Workflow.roots (WorkflowManager.workflow Demo.broken)).1 =
            Ok ["A"]) as Hroots by reflexivity.
  assert ((WorkflowManager._search_first_invalid_layer 5 ["A"]
             Demo.broken).1 = Ok (Some "B")) as Hsel
    by (vm_compute; reflexivity).
  assert (Dict.get (recipes Demo.broken) "B" =
            Some (PTuple (PFun "boom" :: [PStr "A"]))) as Htask
    by reflexivity.
  assert (call "boom"
            (WorkflowManager.resolve (WorkflowManager.viewer Demo.broken)
               <$> [PStr "A"]) = Raise ValueError) as Hcall
    by (vm_compute; reflexivity).
  exact (conj Hroots (conj Hsel (conj Htask (conj Hcall
    (failed_recompute_ends_loop Demo.broken 5 2 ["A"] "B" "boom" [PStr "A"]
       ValueError Hroots Hsel Htask Hcall))))).
Defined.

(** C4 as stated fails: [B = boom(A)] is invalid and [boom] raises.  A loop
    with three rounds to go ends in the first one with the exception. *)
Lemma failed_recompute_crashes_loop :
  WorkflowManager.loop_run 5 3 Demo.broken = (Raise ValueError, Demo.broken).
Proof. vm_compute. reflexivity. Qed.

(** C3: the background step writes the store itself and hands nothing on.
    On every manager the step yields [None] or raises; with [B] and [C]
    invalid it puts the recomputed payload of [B] into the layer and still
    yields [None], so that [update_layer] never receives a result. *)
Theorem background_step_writes_store :
  (∀ (rt : Runtime) fuel self,
     (WorkflowManager._update_invalid_layer fuel self).1 = Ok None ∨
     ∃ e, (WorkflowManager._update_invalid_layer fuel self).1 = Raise e) ∧
  (WorkflowManager._update_invalid_layer 5 Demo.stale).1 = Ok None ∧
  data <$> WorkflowManager.viewer Demo.stale !! "B" = Some (PList []) ∧
  data <$> WorkflowManager.viewer
             (WorkflowManager._update_invalid_layer 5 Demo.stale).2 !! "B" =
    Some (PList [PInt 2; PInt 4; PInt 6]).
Proof.
  split; [intros rt fuel self; apply update_invalid_layer_yields_nothing|].
  split_and!; vm_compute; reflexivity.
Qed.

(** C6: the handler of the data event marks the layer itself valid but
    leaves its direct followers alone; it invalidates the followers of the
    direct followers only.  With [B = double(A)] and [C = increment(B)], all
    valid, a data event of [A] leaves the flag of [B] at [True] and sets
    that of [C] to [False]. *)
Theorem data_event_skips_direct_followers :
  followers (recipes Demo.fresh) "A" = Ok ["B"] ∧
  (WorkflowManager._layer_data_updated 5 "A" Demo.fresh).1 = Ok tt ∧
  valid_flag
    (WorkflowManager.viewer
       (WorkflowManager._layer_data_updated 5 "A" Demo.fresh).2) "A" =
    Some (PBool true) ∧
  valid_flag
    (WorkflowManager.viewer
       (WorkflowManager._layer_data_updated 5 "A" Demo.fresh).2) "B" =
    Some (PBool true) ∧
  valid_flag
    (WorkflowManager.viewer
       (WorkflowManager._layer_data_updated 5 "A" Demo.fresh).2) "C" =
    Some (PBool false).
Proof. split_and!; vm_compute; reflexivity. Qed.

(** * Further properties of the task graph *)

(** ** Removing from a dictionary *)

Section dict_pop.
Context {V : Type}.
Implicit Types (d : Dict.t V) (k : string) (v : V).

Lemma Dict_pop_elem d k k' v : (k', v) ∈ Dict.pop d k → (k', v) ∈ d.
Proof.
  induction d as [|[k0 v0] d IH]; csimpl; [done|].
  destruct (String.eqb k0 k).
  - intros Hin. apply elem_of_cons. by right.
  - rewrite !elem_of_cons. intros [?|?]; auto.
Qed.


Lemma Dict_get_pop_ne d k k' :
  k ≠ k' → Dict.get (Dict.pop d k) k' = Dict.get d k'.
Proof.
  intros Hne. induction d as [|[k0 v0] d IH]; csimpl; [done|].
  destruct (String.eqb_spec k0 k) as [->|Hne0]; csimpl.
  - by apply String.eqb_neq in Hne as ->.
  - by rewrite IH.
Qed.

Lemma Dict_get_pop_eq d k : Dict.ok d → Dict.get (Dict.pop d k) k = None.
Proof.
  unfold Dict.ok, Dict.keys. induction d as [|[k0 v0] d IH]; csimpl; [done|].
  rewrite NoDup_cons. intros [Hk0 Hd].
  destruct (String.eqb_spec k0 k) as [->|Hne0]; csimpl.
  - by apply Dict_get_None.
  - apply String.eqb_neq in Hne0 as ->. auto.
Qed.

Lemma Dict_ok_pop d k : Dict.ok d → Dict.ok (Dict.pop d k).
Proof.
  unfold Dict.ok, Dict.keys. induction d as [|[k0 v0] d IH]; csimpl; [done|].
  rewrite NoDup_cons. intros [Hk0 Hd].
  destruct (String.eqb k0 k); csimpl; [done|].
  apply NoDup_cons. split; [|auto].
  intros ([k1 v1] & -> & Hin)%list_elem_of_fmap. apply Hk0.
  apply list_elem_of_fmap. exists (k1, v1). eauto using Dict_pop_elem.
Qed.

Lemma Dict_pop_set_fresh d k v :
  Dict.get d k = None → Dict.pop (Dict.set d k v) k = d.
Proof.
  induction d as [|[k0 v0] d IH]; csimpl.
  - intros _. by rewrite String.eqb_refl.
  - destruct (String.eqb k0 k) eqn:E; [done|]. csimpl. rewrite E.
    intros Hnone. by rewrite IH.
Qed.

Lemma Dict_get_mem d k : Dict.mem k d = true ↔ is_Some (Dict.get d k).
Proof.
  rewrite Dict_mem_spec. destruct (Dict.get d k) as [v|] eqn:Hget.
  - split; [eauto|]. intros _. apply list_elem_of_fmap.
    exists (k, v). eauto using Dict_get_elem.
  - apply Dict_get_None in Hget. split; [done|]. by intros [? ?].
Qed.
End dict_pop.

(** ** Recording and removing recipes *)

Section recipes.
Context {rt : Runtime}.
Implicit Types (w : Workflow.t) (name : string).

Lemma run_remove w name :
  Workflow.remove name w =
  (Ok tt, {| Workflow._tasks :=
               if Dict.mem name (Workflow._tasks w)
               then Dict.pop (Workflow._tasks w) name
               else Workflow._tasks w |}).
Proof.
  destruct w as [tasks]. unfold Workflow.remove. rewrite run_bind. csimpl.
  by destruct (Dict.mem name tasks).
Qed.

(** X1: a value that is not callable is stored verbatim, whatever further
    positional arguments come with it, and whatever keywords other than
    [set]'s own parameter names [self], [name] and [func_or_data]:
    [get_task] gives it back unchanged, and the other recipes are as they
    were. *)
Theorem set_literal_then_get_task w name (value : pyobj)
    (args : list pyobj) (kwargs : gmap string pyobj) :
  callable value = false →
  Workflow.keyword_clash kwargs = false →
  ∃ w',
    Workflow.set name value args kwargs w = (Ok tt, w') ∧
    Workflow.get_task name w' = (Ok value, w') ∧
    (∀ other, other ≠ name →
       Dict.get (Workflow._tasks w') other =
       Dict.get (Workflow._tasks w) other) ∧
    (Dict.ok (Workflow._tasks w) → Dict.ok (Workflow._tasks w')).
Proof.
  intros Hlit Hclash.
  exists {| Workflow._tasks := Dict.set (Workflow._tasks w) name value |}.
  split_and!.
  - unfold Workflow.set. by rewrite Hclash, Hlit.
  - unfold Workflow.get_task. rewrite run_bind. csimpl.
    by rewrite Dict_get_set_eq.
  - intros other Hne. csimpl. by rewrite Dict_get_set_ne.
  - csimpl. apply Dict_ok_set.
Qed.

Lemma bind_positional_raises params args kwargs e :
  Signature.bind_positional params args kwargs = Raise e → e = TypeError.
Proof.
  revert params. induction args as [|a args IH]; intros params; csimpl.
  - destruct params as [|p params]; [done|].
    repeat case_match; congruence.
  - destruct params as [|p params]; [congruence|].
    destruct (Signature.bind_positional params args kwargs) as [[? ?]|e'] eqn:E;
      csimpl; repeat case_match; try congruence.
    intros [= <-]. eauto.
Qed.

Lemma bind_keywords_raises params kwargs kwargs_param e :
  Signature.bind_keywords params kwargs kwargs_param = Raise e →
  e = TypeError.
Proof.
  revert kwargs kwargs_param.
  induction params as [|p params IH]; intros kwargs kwargs_param; csimpl;
    [done|].
  repeat case_match; eauto; try congruence.
  destruct (Signature.bind_keywords params (delete (pname p) kwargs)
              kwargs_param) as [[[? ?] ?]|e'] eqn:E; csimpl; [done|].
  intros [= <-]. eauto.
Qed.

Lemma bind_raises params args kwargs e :
  Signature.bind params args kwargs = Raise e → e = TypeError.
Proof.
  unfold Signature.bind.
  destruct (Signature.bind_positional params args kwargs)
    as [[pos rest]|e'] eqn:Hpos; csimpl.
  - destruct (Signature.bind_keywords rest kwargs None)
      as [[[kw unused] kp]|e''] eqn:Hkw; csimpl.
    + case_bool_decide; [done|]. destruct kp; congruence.
    + intros [= <-]. by eapply bind_keywords_raises.
  - intros [= <-]. by eapply bind_positional_raises.
Qed.

(** X2: when the arguments do not fit the signature of the function, [set]
    raises [TypeError] and records nothing: the dictionary keeps what it
    had, the earlier recipe of that name included. *)
Theorem set_rejected_arguments w name (f : fid) (args : list pyobj)
    (kwargs : gmap string pyobj) :
  is_Ok (Signature.bind (signature f) args kwargs) = false →
  Workflow.set name (PFun f) args kwargs w = (Raise TypeError, w).
Proof.
  intros Hbind. destruct (Workflow.keyword_clash kwargs) eqn:Hclash.
  - by apply run_set_clash.
  - rewrite run_set_callable by done.
    destruct (Signature.bind (signature f) args kwargs) as [?|e] eqn:E;
      [done|].
    by rewrite (bind_raises _ _ _ _ E).
Qed.

(** X3: after [remove], the name has no recipe: [get_task] raises
    [KeyError].  The other recipes are untouched, and removing a name that
    has no recipe changes nothing and raises nothing. *)
Theorem remove_then_get_task w name :
  Dict.ok (Workflow._tasks w) →
  ∃ w',
    Workflow.remove name w = (Ok tt, w') ∧
    Workflow.get_task name w' = (Raise KeyError, w') ∧
    (∀ other, other ≠ name →
       Dict.get (Workflow._tasks w') other =
       Dict.get (Workflow._tasks w) other) ∧
    Dict.ok (Workflow._tasks w') ∧
    (Dict.get (Workflow._tasks w) name = None → w' = w).
Proof.
  intros Hok. rewrite run_remove. eexists. split; [reflexivity|].
  destruct (Dict.mem name (Workflow._tasks w)) eqn:Hmem.
  - split_and!.
    + unfold Workflow.get_task. rewrite run_bind. csimpl.
      by rewrite Dict_get_pop_eq.
    + intros other Hne. csimpl. by rewrite Dict_get_pop_ne.
    + csimpl. by apply Dict_ok_pop.
    + intros Hnone. apply Dict_get_mem in Hmem as [? ?]. congruence.
  - assert (Dict.get (Workflow._tasks w) name = None) as Hnone.
    { destruct (Dict.get (Workflow._tasks w) name) eqn:E; [|done].
      assert (Dict.mem name (Workflow._tasks w) = true); [|congruence].
      apply Dict_get_mem. eauto. }
    split_and!; [|done|done|by destruct w].
    unfold Workflow.get_task. rewrite run_bind. csimpl. by rewrite Hnone.
Qed.

(** X4: recording a recipe under a name that had none and removing the name
    again gives back the dictionary as it was, entry for entry and in the
    same order. *)
Theorem set_then_remove w w' name (value : pyobj) (args : list pyobj)
    (kwargs : gmap string pyobj) :
  Dict.get (Workflow._tasks w) name = None →
  Workflow.set name value args kwargs w = (Ok tt, w') →
  Workflow.remove name w' = (Ok tt, w).
Proof.
  intros Hnone Hset. rewrite run_remove.
  assert (∃ task, Workflow._tasks w' =
                  Dict.set (Workflow._tasks w) name task) as [task Hw'].
  { destruct (Workflow.keyword_clash kwargs) eqn:Hclash.
    { by rewrite run_set_clash in Hset. }
    destruct (callable value) eqn:Hc.
    - destruct value; try done. rewrite run_set_callable in Hset by done.
      destruct (Signature.bind (signature f) args kwargs); [|done].
      injection Hset as <-. csimpl. eauto.
    - unfold Workflow.set in Hset. rewrite Hclash, Hc in Hset. csimpl in Hset.
      injection Hset as <-. csimpl. eauto. }
  rewrite Hw'.
  assert (Dict.mem name (Dict.set (Workflow._tasks w) name task) = true)
    as -> by (apply Dict_get_mem; rewrite Dict_get_set_eq; eauto).
  rewrite (Dict_pop_set_fresh _ _ _ Hnone). by destruct w.
Qed.
End recipes.

Lemma set_literal_then_get_task_witness :
  callable (PInt 5) = false ∧
  Workflow.keyword_clash {[ "unit" := PStr "px" ]} = false ∧
  ∃ w',
    Workflow.set "x" (PInt 5) [PStr "ignored"] {[ "unit" := PStr "px" ]}
      Demo.abc = (Ok tt, w') ∧
    Workflow.get_task "x" w' = (Ok (PInt 5), w') ∧
    (∀ other, other ≠ "x" →
       Dict.get (Workflow._tasks w') other =
       Dict.get (Workflow._tasks Demo.abc) other) ∧
    (Dict.ok (Workflow._tasks Demo.abc) → Dict.ok (Workflow._tasks w')).
Proof.
  assert (callable (PInt 5) = false) as Hlit by reflexivity.
  assert (Workflow.keyword_clash {[ "unit" := PStr "px" ]} = false) as Hclash
    by reflexivity.
  exact (conj Hlit (conj Hclash
    (set_literal_then_get_task Demo.abc "x" (PInt 5) [PStr "ignored"]
       {[ "unit" := PStr "px" ]} Hlit Hclash))).
Defined.

Lemma set_rejected_arguments_witness :
  is_Ok (Signature.bind (signature "double") [PStr "A"; PStr "B"] ∅) = false ∧
  Workflow.set "B" (PFun "double") [PStr "A"; PStr "B"] ∅ Demo.abc =
    (Raise TypeError, Demo.abc).
Proof.
  assert (is_Ok (Signature.bind (signature "double") [PStr "A"; PStr "B"] ∅)
          = false) as Hbind by reflexivity.
  exact (conj Hbind
    (set_rejected_arguments Demo.abc "B" "double" [PStr "A"; PStr "B"] ∅
       Hbind)).
Defined.

Lemma remove_then_get_task_witness :
  Dict.ok (Workflow._tasks Demo.abc) ∧
  ∃ w',
    Workflow.remove "B" Demo.abc = (Ok tt, w') ∧
    Workflow.get_task "B" w' = (Raise KeyError, w') ∧
    (∀ other, other ≠ "B" →
       Dict.get (Workflow._tasks w') other =
       Dict.get (Workflow._tasks Demo.abc) other) ∧
    Dict.ok (Workflow._tasks w') ∧
    (Dict.get (Workflow._tasks Demo.abc) "B" = None → w' = Demo.abc).
Proof.
  assert (Dict.ok (Workflow._tasks Demo.abc)) as Hok by compute_done.
  exact (conj Hok (remove_then_get_task Demo.abc "B" Hok)).
Defined.

Lemma set_then_remove_witness :
  Dict.get (Workflow._tasks Demo.abc) "D" = None ∧
  Workflow.set "D" (PFun "threshold") [PStr "C"] ∅ Demo.abc =
    (Ok tt,
     {| Workflow._tasks :=
          Workflow._tasks Demo.abc ++
          [("D", PTuple [PFun "threshold"; PStr "C"; PInt 1])] |}) ∧
  Workflow.remove "D"
    {| Workflow._tasks :=
         Workflow._tasks Demo.abc ++
         [("D", PTuple [PFun "threshold"; PStr "C"; PInt 1])] |} =
    (Ok tt, Demo.abc).
Proof.
  assert (Dict.get (Workflow._tasks Demo.abc) "D" = None) as Hnone
    by reflexivity.
  assert (Workflow.set "D" (PFun "threshold") [PStr "C"] ∅ Demo.abc =
          (Ok tt,
           {| Workflow._tasks :=
                Workflow._tasks Demo.abc ++
                [("D", PTuple [PFun "threshold"; PStr "C"; PInt 1])] |}))
    as Hset by reflexivity.
  exact (conj Hnone (conj Hset
    (set_then_remove Demo.abc _ "D" (PFun "threshold") [PStr "C"] ∅
       Hnone Hset))).
Defined.

(** ** Roots, followers and leaves *)

Section graph_queries.
Implicit Types (tasks items : Dict.t pyobj) (w : Workflow.t).

Lemma elem_PStr_cons (n : string) (x : pyobj) (l : list pyobj) :
  PStr n ∈ x :: l ↔ as_str x = Some n ∨ PStr n ∈ l.
Proof.
  rewrite elem_of_cons. destruct x; csimpl; intuition congruence.
Qed.

Lemma roots_step_spec tasks sources origins n :
  n ∈ foldl (Workflow.roots_step tasks) origins sources ↔
  n ∈ origins ∨ (PStr n ∈ sources ∧ Dict.get tasks n = None).
Proof.
  revert origins. induction sources as [|source sources IH];
    intros origins; csimpl.
  - rewrite elem_of_nil. tauto.
  - rewrite IH, elem_PStr_cons. unfold Workflow.roots_step.
    destruct (as_str source) as [s|]; [|intuition congruence].
    destruct (Dict.mem s tasks) eqn:Hmem; csimpl.
    + apply Dict_get_mem in Hmem as [v Hv]. intuition congruence.
    + assert (Dict.get tasks s = None) as Hs.
      { destruct (Dict.get tasks s) eqn:E; [|done].
        assert (Dict.mem s tasks = true); [|congruence].
        apply Dict_get_mem. eauto. }
      case_bool_decide; csimpl.
      * split; [tauto|]. intros [?|[[E|?] Hnone]]; [tauto| |tauto].
        injection E as ->. tauto.
      * rewrite elem_of_app, list_elem_of_singleton.
        split.
        -- intros [[?| ->]|[? ?]]; auto.
        -- intros [?|[[E|?] Hnone]]; auto. injection E as ->. auto.
Qed.

Lemma roots_step_NoDup tasks sources origins :
  NoDup origins → NoDup (foldl (Workflow.roots_step tasks) origins sources).
Proof.
  revert origins. induction sources as [|source sources IH];
    intros origins Hnd; csimpl; [done|].
  apply IH. unfold Workflow.roots_step.
  destruct (as_str source); [|done].
  destruct (Dict.mem s tasks); csimpl; [done|].
  case_bool_decide; csimpl; [done|].
  apply NoDup_app. split_and!; [done| |apply NoDup_singleton].
  intros x Hx ->%list_elem_of_singleton. done.
Qed.

Lemma roots_loop_spec tasks items origins rs :
  Workflow.roots_loop tasks items origins = Ok rs →
  (NoDup origins → NoDup rs) ∧
  ∀ n, n ∈ rs ↔
       n ∈ origins ∨ ((∃ m, refers items m n) ∧ Dict.get tasks n = None).
Proof.
  revert origins. induction items as [|[result task] items IH];
    intros origins; csimpl.
  - intros [= <-]. split; [done|]. intros n. split; [auto|].
    intros [?|[(m & task & sources & Hin & _) _]]; [done|].
    by apply elem_of_nil in Hin.
  - destruct (py_iter task) as [sources|e] eqn:Htask; csimpl; [|done].
    intros Hloop. destruct (IH _ Hloop) as [Hnd Hin]. split.
    + intros Hor. by apply Hnd, roots_step_NoDup.
    + intros n. rewrite Hin, roots_step_spec. unfold refers. split.
      * intros [[?|[Hsrc Hnone]]|[(m & task' & sources' & Hm & Hit & Hsrc)
                                     Hnone]];
          auto; right; (split; [|done]).
        -- exists result, task, sources. rewrite elem_of_cons. auto.
        -- exists m, task', sources'. rewrite elem_of_cons. auto.
      * intros [?|[(m & task' & sources' & Hm & Hit & Hsrc) Hnone]]; auto.
        apply elem_of_cons in Hm as [[= -> ->]|Hm].
        -- left. right. split; [congruence|done].
        -- right. split; [|done]. exists m, task', sources'. auto.
Qed.

Lemma roots_loop_is_Ok tasks items origins :
  is_Ok (Workflow.roots_loop tasks items origins) = tasks_iterable items.
Proof.
  revert origins. induction items as [|[result task] items IH];
    intros origins; csimpl; [done|].
  destruct (py_iter task) as [sources|e]; csimpl; [apply IH | done].
Qed.

Lemma followers_step_NoDup item result sources fs :
  NoDup fs → NoDup (foldl (Workflow.followers_step item result) fs sources).
Proof.
  revert fs. induction sources as [|source sources IH]; intros fs Hnd; csimpl;
    [done|].
  apply IH. unfold Workflow.followers_step.
  destruct (as_str source); [|done].
  destruct (String.eqb s item); [|done].
  case_bool_decide; csimpl; [done|].
  apply NoDup_app. split_and!; [done| |apply NoDup_singleton].
  intros x Hx ->%list_elem_of_singleton. done.
Qed.

Lemma followers_loop_NoDup item items fs fs' :
  Workflow.followers_loop item items fs = Ok fs' → NoDup fs → NoDup fs'.
Proof.
  revert fs. induction items as [|[result task] items IH]; intros fs; csimpl.
  - by intros [= <-].
  - destruct (py_iter task) as [sources|e]; csimpl; [|done].
    intros Hloop Hnd. eapply IH; [done|]. by apply followers_step_NoDup.
Qed.

Lemma refers_owner tasks m n : refers tasks m n → is_Some (Dict.get tasks m).
Proof.
  intros (task & sources & Hin & _). apply Dict_get_mem, Dict_mem_spec.
  apply list_elem_of_fmap. by exists (m, task).
Qed.

(** The first error of the loops over the recipes is the [TypeError] of a
    recipe that cannot be iterated over. *)
Lemma followers_loop_raises item items fs e :
  Workflow.followers_loop item items fs = Raise e → e = TypeError.
Proof.
  revert fs. induction items as [|[result task] items IH]; intros fs; csimpl;
    [done|].
  destruct task; csimpl; eauto; congruence.
Qed.

Lemma roots_loop_raises tasks items origins e :
  Workflow.roots_loop tasks items origins = Raise e → e = TypeError.
Proof.
  revert origins. induction items as [|[result task] items IH];
    intros origins; csimpl; [done|].
  destruct task; csimpl; eauto; congruence.
Qed.

(** X5: [roots] returns, each exactly once, the names that some recipe
    refers to and that have no recipe of their own. *)
Theorem roots_are_referenced_names_without_recipe w :
  tasks_iterable (Workflow._tasks w) = true →
  ∃ rs,
    Workflow.roots w = (Ok rs, w) ∧
    NoDup rs ∧
    ∀ n, n ∈ rs ↔
         (∃ m, refers (Workflow._tasks w) m n) ∧
         Dict.get (Workflow._tasks w) n = None.
Proof.
  intros Hit.
  pose proof (roots_loop_is_Ok (Workflow._tasks w) (Workflow._tasks w) [])
    as Hok. rewrite Hit in Hok.
  destruct (Workflow.roots_loop (Workflow._tasks w) (Workflow._tasks w) [])
    as [rs|e] eqn:Hloop; [|done].
  exists rs. destruct (roots_loop_spec _ _ _ _ Hloop) as [Hnd Hin].
  split_and!.
  - unfold Workflow.roots. rewrite run_bind. csimpl. unfold lift.
    by rewrite Hloop.
  - apply Hnd, NoDup_nil_2.
  - intros n. rewrite Hin, elem_of_nil. tauto.
Qed.

(** X6: [followers_of] returns, each exactly once, the names whose recipe
    has the given name among its elements; every one of them owns a
    recipe. *)
Theorem followers_are_referring_recipes w (item : string) :
  tasks_iterable (Workflow._tasks w) = true →
  ∃ fs,
    Workflow.followers_of item w = (Ok fs, w) ∧
    NoDup fs ∧
    (∀ m, m ∈ fs ↔ refers (Workflow._tasks w) m item) ∧
    (∀ m, m ∈ fs → is_Some (Dict.get (Workflow._tasks w) m)).
Proof.
  intros Hit. destruct (followers_iterable _ item Hit) as [fs Hfs].
  exists fs. split_and!.
  - by rewrite run_followers_of, Hfs.
  - eapply followers_loop_NoDup; [exact Hfs | apply NoDup_nil_2].
  - intros m. by apply followers_spec.
  - intros m Hm. eapply refers_owner. by eapply followers_spec.
Qed.

(** X7: a recipe that cannot be iterated over, such as a number stored with
    [set], breaks the queries that loop over all recipes: [roots] raises
    [TypeError], and so does [followers_of], for every name asked about. *)
Theorem literal_recipe_breaks_queries w :
  tasks_iterable (Workflow._tasks w) = false →
  Workflow.roots w = (Raise TypeError, w) ∧
  ∀ item, Workflow.followers_of item w = (Raise TypeError, w).
Proof.
  intros Hit. split.
  - pose proof (roots_loop_is_Ok (Workflow._tasks w) (Workflow._tasks w) [])
      as Hok. rewrite Hit in Hok.
    unfold Workflow.roots. rewrite run_bind. csimpl. unfold lift.
    destruct (Workflow.roots_loop (Workflow._tasks w) (Workflow._tasks w) [])
      as [rs|e] eqn:Hloop; [done|].
    by rewrite (roots_loop_raises _ _ _ _ Hloop).
  - intros item.
    pose proof (followers_loop_is_Ok item (Workflow._tasks w) []) as Hok.
    rewrite Hit in Hok. rewrite run_followers_of. unfold followers.
    destruct (Workflow.followers_loop item (Workflow._tasks w) [])
      as [fs|e] eqn:Hloop; [done|].
    by rewrite (followers_loop_raises _ _ _ _ Hloop).
Qed.
End graph_queries.

Lemma roots_are_referenced_names_without_recipe_witness :
  tasks_iterable (Workflow._tasks Demo.fork_tasks) = true ∧
  ∃ rs,
    Workflow.roots Demo.fork_tasks = (Ok rs, Demo.fork_tasks) ∧
    NoDup rs ∧
    ∀ n, n ∈ rs ↔
         (∃ m, refers (Workflow._tasks Demo.fork_tasks) m n) ∧
         Dict.get (Workflow._tasks Demo.fork_tasks) n = None.
Proof.
  assert (tasks_iterable (Workflow._tasks Demo.fork_tasks) = true) as Hit
    by reflexivity.
  exact (conj Hit (roots_are_referenced_names_without_recipe _ Hit)).
Defined.

Lemma followers_are_referring_recipes_witness :
  tasks_iterable (Workflow._tasks Demo.abc) = true ∧
  ∃ fs,
    Workflow.followers_of "A" Demo.abc = (Ok fs, Demo.abc) ∧
    NoDup fs ∧
    (∀ m, m ∈ fs ↔ refers (Workflow._tasks Demo.abc) m "A") ∧
    (∀ m, m ∈ fs → is_Some (Dict.get (Workflow._tasks Demo.abc) m)).
Proof.
  assert (tasks_iterable (Workflow._tasks Demo.abc) = true) as Hit
    by reflexivity.
  exact (conj Hit (followers_are_referring_recipes Demo.abc "A" Hit)).
Defined.

Lemma literal_recipe_breaks_queries_witness :
  tasks_iterable [("x", PInt 5)] = false ∧
  Workflow.roots {| Workflow._tasks := [("x", PInt 5)] |} =
    (Raise TypeError, {| Workflow._tasks := [("x", PInt 5)] |}) ∧
  ∀ item,
    Workflow.followers_of item {| Workflow._tasks := [("x", PInt 5)] |} =
      (Raise TypeError, {| Workflow._tasks := [("x", PInt 5)] |}).
Proof.
  assert (tasks_iterable [("x", PInt 5)] = false) as Hit by reflexivity.
  exact (conj Hit
    (literal_recipe_breaks_queries {| Workflow._tasks := [("x", PInt 5)] |}
       Hit)).
Defined.

Section graph_composition.
Context {rt : Runtime}.
Implicit Types (tasks : Dict.t pyobj) (w : Workflow.t).

Lemma followers_none tasks l :
  tasks_iterable tasks = true →
  followers tasks l = Ok [] ↔ ¬ ∃ m, refers tasks m l.
Proof.
  intros Hit. destruct (followers_iterable _ l Hit) as [fs Hfs].
  rewrite Hfs. split.
  - intros [= ->] [m Hm]. apply (followers_spec _ _ _ _ Hfs) in Hm.
    by apply elem_of_nil in Hm.
  - intros Hno. f_equal. apply elem_of_nil_inv. intros m Hm.
    apply Hno. exists m. by apply (followers_spec _ _ _ _ Hfs).
Qed.

Lemma run_leafs_loop w (ks : list string) :
  tasks_iterable (Workflow._tasks w) = true →
  ∃ ls,
    Workflow.filter_m ks (λ l,
      followers ← Workflow.followers_of l;
      mret (bool_decide (length followers = 0))) w = (Ok ls, w) ∧
    ∀ l, l ∈ ls ↔ l ∈ ks ∧ followers (Workflow._tasks w) l = Ok [].
Proof.
  intros Hit. induction ks as [|k ks (ls & Hrun & Hls)].
  - exists []. split; [done|]. intros l. rewrite elem_of_nil. tauto.
  - destruct (followers_iterable _ k Hit) as [fs Hfs].
    exists (if bool_decide (length fs = 0) then k :: ls else ls). split.
    + cbn [Workflow.filter_m]. rewrite run_bind, run_bind, run_followers_of, Hfs.
      csimpl. rewrite run_bind, Hrun. reflexivity.
    + intros l. rewrite elem_of_cons. case_bool_decide as Hlen.
      * apply nil_length_inv in Hlen as ->. rewrite elem_of_cons, Hls.
        split; [intros [->|[? ?]]; auto | intros [[->|?] ?]; auto].
      * rewrite Hls. split; [intros [? ?]; auto|].
        intros [[->|?] Hl]; [|auto]. destruct Hlen.
        assert (fs = []) as -> by congruence. done.
Qed.

(** X8: [leafs] returns the names that own a recipe and that no recipe
    refers to; none of them is among the [roots]. *)
Theorem leafs_are_unreferenced_recipes w :
  tasks_iterable (Workflow._tasks w) = true →
  ∃ ls rs,
    Workflow.leafs w = (Ok ls, w) ∧
    Workflow.roots w = (Ok rs, w) ∧
    (∀ l, l ∈ ls ↔
          is_Some (Dict.get (Workflow._tasks w) l) ∧
          ¬ ∃ m, refers (Workflow._tasks w) m l) ∧
    (∀ l, l ∈ ls → l ∉ rs).
Proof.
  intros Hit.
  destruct (run_leafs_loop w (Dict.keys (Workflow._tasks w)) Hit)
    as (ls & Hrun & Hls).
  pose proof (roots_loop_is_Ok (Workflow._tasks w) (Workflow._tasks w) [])
    as Hok. rewrite Hit in Hok.
  destruct (Workflow.roots_loop (Workflow._tasks w) (Workflow._tasks w) [])
    as [rs|e] eqn:Hloop; [|done].
  destruct (roots_loop_spec _ _ _ _ Hloop) as [_ Hrs].
  assert (∀ l, l ∈ ls ↔
               is_Some (Dict.get (Workflow._tasks w) l) ∧
               ¬ ∃ m, refers (Workflow._tasks w) m l) as Hchar.
  { intros l. rewrite Hls, (followers_none _ _ Hit).
    by rewrite <-Dict_get_mem, Dict_mem_spec. }
  exists ls, rs. split_and!.
  - unfold Workflow.leafs. rewrite run_bind. exact Hrun.
  - unfold Workflow.roots. rewrite run_bind. csimpl. unfold lift.
    by rewrite Hloop.
  - exact Hchar.
  - intros l [[v Hv] _]%Hchar [Hl|[_ Hnone]]%Hrs; [|congruence].
    by apply elem_of_nil in Hl.
Qed.




End graph_composition.

Lemma leafs_are_unreferenced_recipes_witness :
  tasks_iterable (Workflow._tasks Demo.abc) = true ∧
  ∃ ls rs,
    Workflow.leafs Demo.abc = (Ok ls, Demo.abc) ∧
    Workflow.roots Demo.abc = (Ok rs, Demo.abc) ∧
    (∀ l, l ∈ ls ↔
          is_Some (Dict.get (Workflow._tasks Demo.abc) l) ∧
          ¬ ∃ m, refers (Workflow._tasks Demo.abc) m l) ∧
    (∀ l, l ∈ ls → l ∉ rs).
Proof.
  assert (tasks_iterable (Workflow._tasks Demo.abc) = true) as Hit
    by reflexivity.
  exact (conj Hit (leafs_are_unreferenced_recipes Demo.abc Hit)).
Defined.



Section recording_edges.
Context {rt : Runtime}.

End recording_edges.


(** X29: a layer name that a var-positional parameter collects is stored
    inside a tuple, and the queries, which look for strings among the
    elements of a recipe, do not see it.  After
    [set("S", stack, "A", "B")] for [def stack(first, *images)], the recipe
    is [(stack, "A", ("B",))]: ["S"] follows ["A"] and not ["B"], and ["B"]
    is neither a source of ["S"] nor a root. *)
Theorem var_positional_makes_no_follower :
  ∃ w',
    Workflow.set "S" (PFun "stack") [PStr "A"; PStr "B"] ∅ Workflow.init =
      (Ok tt, w') ∧
    Workflow.get_task "S" w' =
      (Ok (PTuple [PFun "stack"; PStr "A"; PTuple [PStr "B"]]), w') ∧
    Workflow.followers_of "A" w' = (Ok ["S"], w') ∧
    Workflow.followers_of "B" w' = (Ok [], w') ∧
    Workflow.sources_of "S" w' = (Ok ["A"], w') ∧
    Workflow.roots w' = (Ok ["A"], w').
Proof.
  exists {| Workflow._tasks :=
              [("S", PTuple [PFun "stack"; PStr "A"; PTuple [PStr "B"]])] |}.
  split_and!; reflexivity.
Qed.

(** * Further properties of the manager *)

(** ** What invalidation leaves alone *)

Section payload_frames.
Implicit Types (self : WorkflowManager.t) (items : list string).

Lemma payloads_alter_metadata self name key value :
  data <$> alter (with_metadata key value) name (WorkflowManager.viewer self) =
  payloads self.
Proof.
  apply map_eq. intros n. unfold payloads. rewrite !lookup_fmap.
  destruct (decide (n = name)) as [->|Hne].
  - rewrite lookup_alter_eq.
    by destruct (WorkflowManager.viewer self !! name).
  - by rewrite lookup_alter_ne.
Qed.

Lemma set_metadata_keeps_payloads name key value :
  preserves recipes_and_payloads (WorkflowManager.set_metadata name key value).
Proof.
  intros self. unfold recipes_and_payloads. csimpl. f_equal.
  unfold payloads at 1. csimpl. apply payloads_alter_metadata.
Qed.

Lemma in_workflow_keeps_payloads {A} (m : M Workflow.t A) :
  preserves id m →
  preserves recipes_and_payloads (WorkflowManager.in_workflow m).
Proof.
  intros Hm self. pose proof (in_workflow_readonly m Hm self) as E.
  unfold id in E. by rewrite E.
Qed.

Lemma invalidate_keeps_payloads fuel items :
  preserves recipes_and_payloads (WorkflowManager.invalidate fuel items).
Proof.
  revert items. induction fuel as [|fuel IH]; intros items; simpl.
  - apply preserves_raise.
  - frame.
    + apply set_metadata_keeps_payloads.
    + apply in_workflow_keeps_payloads, followers_of_readonly.
    + apply IH.
Qed.

Lemma layer_data_updated_keeps_payloads fuel source :
  preserves recipes_and_payloads
    (WorkflowManager._layer_data_updated fuel source).
Proof.
  unfold WorkflowManager._layer_data_updated. frame.
  - apply set_metadata_keeps_payloads.
  - apply in_workflow_keeps_payloads, followers_of_readonly.
  - apply in_workflow_keeps_payloads, followers_of_readonly.
  - apply invalidate_keeps_payloads.
Qed.

Lemma has_record_payloads self n :
  has_record self n = bool_decide (is_Some (payloads self !! n)).
Proof.
  unfold has_record, _viewer_has_layer, payloads. rewrite lookup_fmap.
  by destruct (WorkflowManager.viewer self !! n).
Qed.

(** X12: [invalidate] only touches validity flags.  Whether it returns or
    raises, the recipes and the payload of every record are what they were,
    and no record has been added or removed. *)
Theorem invalidate_keeps_recipes_and_payloads fuel items self :
  WorkflowManager.workflow (WorkflowManager.invalidate fuel items self).2 =
    WorkflowManager.workflow self ∧
  payloads (WorkflowManager.invalidate fuel items self).2 = payloads self ∧
  ∀ n, has_record (WorkflowManager.invalidate fuel items self).2 n =
       has_record self n.
Proof.
  pose proof (invalidate_keeps_payloads fuel items self) as E.
  unfold recipes_and_payloads in E. injection E as Hw Hp.
  split_and!; [done|done|]. intros n. by rewrite !has_record_payloads, Hp.
Qed.

(** X13: the handler of the data event only touches validity flags, too:
    recipes, payloads and the set of records are as before, whether it
    returns or raises. *)
Theorem data_event_keeps_recipes_and_payloads fuel (source : string) self :
  WorkflowManager.workflow
    (WorkflowManager._layer_data_updated fuel source self).2 =
    WorkflowManager.workflow self ∧
  payloads (WorkflowManager._layer_data_updated fuel source self).2 =
    payloads self.
Proof.
  pose proof (layer_data_updated_keeps_payloads fuel source self) as E.
  unfold recipes_and_payloads in E. by injection E as Hw Hp.
Qed.

(** X14: names without a record are skipped.  A call of [invalidate] on
    names none of which has a record, the empty list included, returns and
    changes nothing. *)
Theorem invalidate_without_records fuel items self :
  (∀ f, f ∈ items → has_record self f = false) →
  WorkflowManager.invalidate (S fuel) items self = (Ok tt, self).
Proof.
  induction items as [|f items IH]; intros Hnone; [done|].
  rewrite invalidate_cons, Hnone by (apply elem_of_cons; by left).
  apply IH. intros g Hg. apply Hnone, elem_of_cons. by right.
Qed.
End payload_frames.

Lemma invalidate_without_records_witness :
  (∀ f, f ∈ ["B"; "Z"] → has_record Demo.gap f = false) ∧
  WorkflowManager.invalidate (S 0) ["B"; "Z"] Demo.gap = (Ok tt, Demo.gap).
Proof.
  assert (∀ f, f ∈ ["B"; "Z"] → has_record Demo.gap f = false) as Hnone.
  { intros f [->|[->|Hf]%elem_of_cons]%elem_of_cons; [done|done|].
    by apply elem_of_nil in Hf. }
  exact (conj Hnone (invalidate_without_records 0 ["B"; "Z"] Demo.gap Hnone)).
Defined.

(** ** Invalidating twice, and what invalidation can raise *)

Section invalidation_more.
Implicit Types (self : WorkflowManager.t) (items : list string).

(** A record that [invalidate] changes lies on a chain of recorded names. *)
Lemma invalidate_changes_chain fuel items self n :
  WorkflowManager.viewer (WorkflowManager.invalidate fuel items self).2 !! n =
    WorkflowManager.viewer self !! n ∨
  chain (recipes self) (has_record self) items n.
Proof.
  revert items self. induction fuel as [|fuel IHfuel]; intros items self;
    [by left|].
  revert self. induction items as [|f items IHitems]; intros self; [by left|].
  rewrite invalidate_cons. destruct (has_record self f) eqn:Hf.
  - destruct (decide (n = f)) as [->|Hne].
    { right. apply chain_here; [apply elem_of_cons; by left | done]. }
    assert (WorkflowManager.viewer (flagged self f) !! n =
            WorkflowManager.viewer self !! n) as Hflagged
      by by apply lookup_alter_ne.
    destruct (followers (recipes self) f) as [fs|e] eqn:Hfs; [|by left].
    pose proof (touched_flagged self f) as Ht1.
    pose proof (invalidate_touched fuel fs (flagged self f)) as Ht2.
    destruct (IHfuel fs (flagged self f)) as [Hsub|Hsub].
    + destruct (WorkflowManager.invalidate fuel fs (flagged self f))
        as [[[]|e] self'] eqn:Hrun; csimpl in *; [|left; congruence].
      destruct (IHitems self') as [Hrest|Hrest]; [left; congruence|].
      right. eapply chain_mono;
        [intros x Hx; apply elem_of_cons; right; exact Hx|].
      pose proof (touched_trans _ _ _ Ht1 Ht2) as Ht.
      rewrite (touched_recipes _ _ Ht) in Hrest.
      eapply chain_ext; [|exact Hrest].
      intros x. by apply touched_has_record.
    + right. eapply chain_below; [apply elem_of_cons; by left|done|done|].
      eapply chain_ext; [|exact Hsub].
      intros x. by apply touched_has_record.
  - destruct (IHitems self) as [Hrest|Hrest]; [by left|].
    right. eapply chain_mono; [|exact Hrest].
    intros x Hx. apply elem_of_cons. by right.
Qed.

(** X15: [invalidate] is idempotent.  On a graph of bounded depth below the
    items, a second call with the same items returns and leaves the manager
    exactly as the first call left it. *)
Theorem invalidate_idempotent self items (d fuel : nat) :
  bounded (recipes self) d items = true →
  d < fuel →
  ∃ self',
    WorkflowManager.invalidate fuel items self = (Ok tt, self') ∧
    WorkflowManager.invalidate fuel items self' = (Ok tt, self').
Proof.
  intros Hbounded Hfuel.
  destruct (invalidate_reaches d fuel items self Hbounded Hfuel)
    as (self1 & Hrun1 & Hmarks1).
  pose proof (invalidate_touched fuel items self) as Ht1.
  rewrite Hrun1 in Ht1. csimpl in Ht1.
  exists self1. split; [done|].
  destruct (invalidate_reaches d fuel items self1) as (self2 & Hrun2 & Hmarks2);
    [by rewrite (touched_recipes _ _ Ht1)|done|].
  rewrite Hrun2. f_equal.
  pose proof (invalidate_touched fuel items self1) as Ht2.
  rewrite Hrun2 in Ht2. csimpl in Ht2.
  assert (WorkflowManager.viewer self2 = WorkflowManager.viewer self1) as Hv.
  { apply map_eq. intros n.
    pose proof (invalidate_changes_chain fuel items self1 n) as Hn.
    rewrite Hrun2 in Hn. csimpl in Hn. destruct Hn as [Hn|Hn]; [done|].
    rewrite (Hmarks2 n Hn).
    rewrite (touched_recipes _ _ Ht1) in Hn.
    assert (chain (recipes self) (has_record self) items n) as Hn'.
    { eapply chain_ext; [|exact Hn]. intros x. by apply touched_has_record. }
    rewrite (Hmarks1 n Hn').
    destruct (WorkflowManager.viewer self !! n); csimpl; [|done].
    by rewrite mark_mark. }
  destruct Ht2 as [Hw _]. destruct self1, self2. csimpl in *. congruence.
Qed.

Lemma invalidate_raises fuel items self e :
  tasks_iterable (recipes self) = true →
  (WorkflowManager.invalidate fuel items self).1 = Raise e →
  e = RecursionError.
Proof.
  revert items self. induction fuel as [|fuel IHfuel]; intros items self Hit.
  - csimpl. congruence.
  - revert self Hit. induction items as [|f items IHitems]; intros self Hit;
      [done|].
    rewrite invalidate_cons. destruct (has_record self f); [|by apply IHitems].
    destruct (followers_iterable _ f Hit) as [fs ->].
    pose proof (invalidate_touched fuel fs (flagged self f)) as Ht2.
    pose proof (IHfuel fs (flagged self f) Hit) as Hsub.
    destruct (WorkflowManager.invalidate fuel fs (flagged self f))
      as [[[]|e'] self'] eqn:Hrun; csimpl in *.
    + apply IHitems. rewrite (touched_recipes _ _ Ht2). exact Hit.
    + intros [= <-]. by apply Hsub.
Qed.

Lemma search_raises fuel items self e :
  tasks_iterable (recipes self) = true →
  (WorkflowManager._search_first_invalid_layer fuel items self).1 = Raise e →
  e = RecursionError.
Proof.
  intros Hit. revert items. induction fuel as [|fuel IHfuel]; intros items.
  - csimpl. congruence.
  - rewrite search_unfold. destruct (find (invalid_in self) items); [done|].
    induction items as [|i items IHitems]; [done|].
    rewrite below_cons. destruct (followers_iterable _ i Hit) as [fs ->].
    pose proof (search_readonly fuel fs self) as Hro.
    pose proof (IHfuel fs) as Hsub.
    destruct (WorkflowManager._search_first_invalid_layer fuel fs self)
      as [[[n|]|e'] self'] eqn:Hrun; csimpl in *; subst self'; [done| |].
    + exact IHitems.
    + intros [= <-]. by apply Hsub.
Qed.

(** X16: on recipes that can all be iterated over, the only exception that
    [invalidate] or the scan can end with is [RecursionError]. *)
Theorem only_recursion_can_fail fuel items self :
  tasks_iterable (recipes self) = true →
  ((WorkflowManager.invalidate fuel items self).1 = Ok tt ∨
   (WorkflowManager.invalidate fuel items self).1 = Raise RecursionError) ∧
  ((∃ selected,
      (WorkflowManager._search_first_invalid_layer fuel items self).1 =
        Ok selected) ∨
   (WorkflowManager._search_first_invalid_layer fuel items self).1 =
     Raise RecursionError).
Proof.
  intros Hit. split.
  - pose proof (invalidate_raises fuel items self) as Hr.
    destruct (WorkflowManager.invalidate fuel items self) as [[[]|e] s'];
      csimpl in *; [by left|].
    right. f_equal. by apply Hr.
  - pose proof (search_raises fuel items self) as Hr.
    destruct (WorkflowManager._search_first_invalid_layer fuel items self)
      as [[r|e] s']; csimpl in *; [left; eauto|].
    right. f_equal. by apply Hr.
Qed.

Lemma followers_Ok_iterable tasks (x : string) fs :
  followers tasks x = Ok fs → tasks_iterable tasks = true.
Proof.
  intros Hfs. rewrite <-(followers_loop_is_Ok x tasks []).
  unfold followers in Hfs. by rewrite Hfs.
Qed.

(** X17: a dependency cycle among recorded names exhausts every recursion
    depth.  If [C] is a set of names, each with a record and each with a
    follower that is in [C] again, then [invalidate] on items of which one
    is in [C] raises [RecursionError], however deep it is allowed to
    recurse. *)
Theorem invalidate_on_cycle self (C : string → Prop) items (g : string)
    (fuel : nat) :
  (∀ x, C x →
        has_record self x = true ∧
        ∃ fs y, followers (recipes self) x = Ok fs ∧ y ∈ fs ∧ C y) →
  g ∈ items →
  C g →
  (WorkflowManager.invalidate fuel items self).1 = Raise RecursionError.
Proof.
  intros Hcycle Hg HCg.
  assert (tasks_iterable (recipes self) = true) as Hit.
  { destruct (Hcycle g HCg) as (_ & fs & y & Hfs & _).
    by eapply followers_Ok_iterable. }
  assert (∀ items self',
            touched self self' → (∃ g, g ∈ items ∧ C g) →
            (WorkflowManager.invalidate fuel items self').1 =
              Raise RecursionError) as Hgen; [|by eapply Hgen;
                [apply touched_refl|eauto]].
  clear g items Hg HCg.
  induction fuel as [|fuel IHfuel]; intros items self' Ht Hex; [done|].
  revert self' Ht. induction items as [|x items IHitems]; intros self' Ht.
  { destruct Hex as (g & Hg & _). by apply elem_of_nil in Hg. }
  rewrite invalidate_cons, (touched_recipes _ _ Ht).
  destruct Hex as (g & [->|Hg]%elem_of_cons & HCg).
  - destruct (Hcycle x HCg) as (Hx & fs & y & Hfs & Hy & HCy).
    rewrite (touched_has_record _ _ _ Ht), Hx, Hfs.
    pose proof (IHfuel fs (flagged self' x)) as Hsub.
    destruct (WorkflowManager.invalidate fuel fs (flagged self' x))
      as [[[]|e] s1]; csimpl in *.
    + discriminate Hsub; [|eauto].
      eapply touched_trans; [exact Ht | apply touched_flagged].
    + apply Hsub; [|eauto].
      eapply touched_trans; [exact Ht | apply touched_flagged].
  - destruct (has_record self' x) eqn:Hx; [|apply IHitems; eauto].
    destruct (followers_iterable _ x Hit) as [fs ->].
    pose proof (invalidate_touched fuel fs (flagged self' x)) as Ht2.
    pose proof (invalidate_raises fuel fs (flagged self' x)) as Hr.
    destruct (WorkflowManager.invalidate fuel fs (flagged self' x))
      as [[[]|e] s1]; csimpl in *.
    + apply IHitems; [eauto|].
      eapply touched_trans; [exact Ht|].
      eapply touched_trans; [apply touched_flagged | exact Ht2].
    + f_equal. apply Hr; [|done].
      change (recipes (flagged self' x)) with (recipes self').
      by rewrite (touched_recipes _ _ Ht).
Qed.
End invalidation_more.

Lemma invalidate_idempotent_witness :
  bounded (recipes Demo.fresh) 3 ["A"] = true ∧
  3 < 5 ∧
  ∃ self',
    WorkflowManager.invalidate 5 ["A"] Demo.fresh = (Ok tt, self') ∧
    WorkflowManager.invalidate 5 ["A"] self' = (Ok tt, self').
Proof.
  assert (bounded (recipes Demo.fresh) 3 ["A"] = true) as Hbounded
    by reflexivity.
  assert (3 < 5) as Hfuel by lia.
  exact (conj Hbounded (conj Hfuel
    (invalidate_idempotent Demo.fresh ["A"] 3 5 Hbounded Hfuel))).
Defined.

Lemma only_recursion_can_fail_witness :
  tasks_iterable (recipes Demo.selfloop) = true ∧
  ((WorkflowManager.invalidate 4 ["A"] Demo.selfloop).1 = Ok tt ∨
   (WorkflowManager.invalidate 4 ["A"] Demo.selfloop).1 =
     Raise RecursionError) ∧
  ((∃ selected,
      (WorkflowManager._search_first_invalid_layer 4 ["A"] Demo.selfloop).1 =
        Ok selected) ∨
   (WorkflowManager._search_first_invalid_layer 4 ["A"] Demo.selfloop).1 =
     Raise RecursionError).
Proof.
  assert (tasks_iterable (recipes Demo.selfloop) = true) as Hit
    by reflexivity.
  exact (conj Hit (only_recursion_can_fail 4 ["A"] Demo.selfloop Hit)).
Defined.

Lemma invalidate_on_cycle_witness :
  (∀ x, x = "A" →
        has_record Demo.selfloop x = true ∧
        ∃ fs y, followers (recipes Demo.selfloop) x = Ok fs ∧
                y ∈ fs ∧ y = "A") ∧
  "A" ∈ ["A"] ∧
  "A" = "A" ∧
  (WorkflowManager.invalidate 7 ["A"] Demo.selfloop).1 = Raise RecursionError.
Proof.
  assert (∀ x, x = "A" →
            has_record Demo.selfloop x = true ∧
            ∃ fs y, followers (recipes Demo.selfloop) x = Ok fs ∧
                    y ∈ fs ∧ y = "A") as Hcycle.
  { intros x ->. split; [reflexivity|]. exists ["A"], "A".
    split_and!; [reflexivity| |reflexivity]. apply elem_of_cons. by left. }
  assert ("A" ∈ ["A"]) as Hin by (apply elem_of_cons; by left).
  exact (conj Hcycle (conj Hin (conj eq_refl
    (invalidate_on_cycle Demo.selfloop (λ x, x = "A") ["A"] "A" 7
       Hcycle Hin eq_refl)))).
Defined.

(** ** The scan and the recompute only read *)

Section reads.
Context {rt : Runtime}.
Implicit Types (self : WorkflowManager.t) (items : list string).

Lemma compute_readonly name self :
  (WorkflowManager._compute name self).2 = self.
Proof.
  unfold WorkflowManager._compute. rewrite run_bind, run_get_task.
  destruct (Dict.get (recipes self) name) as [task|]; [|done].
  rewrite run_bind. unfold lift at 1.
  destruct (py_iter task) as [[|function arguments]|e]; [done| |done].
  rewrite run_bind. reflexivity.
Qed.

(** X18: the scan and the recompute write nothing.  Whatever they are asked
    and however they end, the manager is afterwards what it was before:
    recipes, payloads and flags. *)
Theorem scan_and_compute_write_nothing fuel items (name : string) self :
  (WorkflowManager._search_first_invalid_layer fuel items self).2 = self ∧
  (WorkflowManager._compute name self).2 = self.
Proof. split; [apply search_readonly | apply compute_readonly]. Qed.

Lemma resolve_payloads (layers1 layers2 : gmap string Layer) (a : pyobj) :
  data <$> layers1 = data <$> layers2 →
  WorkflowManager.resolve layers1 a = WorkflowManager.resolve layers2 a.
Proof.
  intros Hp. unfold WorkflowManager.resolve.
  destruct (as_str a) as [n|]; [|done].
  assert ((data <$> layers1) !! n = (data <$> layers2) !! n) as Hn
    by by rewrite Hp.
  rewrite !lookup_fmap in Hn.
  destruct (layers1 !! n), (layers2 !! n); csimpl in Hn; congruence.
Qed.

(** X19: the recompute depends on the recipe and on the current payloads
    only.  Two managers with the same recipes and the same payloads give
    the same result, whatever their validity flags say: a source that is
    itself invalid is used as it is. *)
Theorem compute_ignores_flags (name : string) self1 self2 :
  recipes self1 = recipes self2 →
  payloads self1 = payloads self2 →
  (WorkflowManager._compute name self1).1 =
  (WorkflowManager._compute name self2).1.
Proof.
  intros Hr Hp. unfold WorkflowManager._compute.
  rewrite !run_bind, !run_get_task, Hr.
  destruct (Dict.get (recipes self2) name) as [task|]; [|done].
  rewrite !run_bind. unfold lift at 1 3.
  destruct (py_iter task) as [[|function arguments]|e]; [done| |done].
  rewrite !run_bind. unfold gets, lift. csimpl. f_equal.
  apply list_fmap_ext. intros i a _. by apply resolve_payloads.
Qed.

(** X20: the recompute resolves one level only.  For a recorded call it
    calls the function once, on the arguments as recorded, except that a
    string naming a record is replaced by the live payload of that record; a
    string naming no record is passed on as the string it is, and nothing is
    evaluated recursively. *)
Theorem compute_one_level (name : string) (f : fid) (arguments : list pyobj)
    self :
  Dict.get (recipes self) name = Some (PTuple (PFun f :: arguments)) →
  ∃ resolved,
    WorkflowManager._compute name self = (call f resolved, self) ∧
    length resolved = length arguments ∧
    ∀ i a, arguments !! i = Some a →
      resolved !! i =
      Some match a with
           | PStr n => default a (payloads self !! n)
           | _ => a
           end.
Proof.
  intros Htask.
  exists (WorkflowManager.resolve (WorkflowManager.viewer self) <$> arguments).
  split_and!; [by apply run_compute|by rewrite length_fmap|].
  intros i a Ha. rewrite list_lookup_fmap, Ha. csimpl. f_equal.
  unfold WorkflowManager.resolve, payloads.
  destruct a; csimpl; try done. rewrite lookup_fmap.
  by destruct (WorkflowManager.viewer self !! s).
Qed.
End reads.

Lemma compute_ignores_flags_witness :
  recipes Demo.stale = recipes Demo.fresh ∧
  payloads Demo.stale = payloads Demo.fresh ∧
  (WorkflowManager._compute "B" Demo.stale).1 =
  (WorkflowManager._compute "B" Demo.fresh).1.
Proof.
  assert (recipes Demo.stale = recipes Demo.fresh) as Hr by reflexivity.
  assert (payloads Demo.stale = payloads Demo.fresh) as Hp
    by (vm_compute; reflexivity).
  exact (conj Hr (conj Hp
    (compute_ignores_flags "B" Demo.stale Demo.fresh Hr Hp))).
Defined.

Lemma compute_one_level_witness :
  Dict.get (recipes Demo.stale) "B" =
    Some (PTuple (PFun "double" :: [PStr "A"])) ∧
  ∃ resolved,
    WorkflowManager._compute "B" Demo.stale = (call "double" resolved, Demo.stale) ∧
    length resolved = length [PStr "A"] ∧
    ∀ i a, [PStr "A"] !! i = Some a →
      resolved !! i =
      Some match a with
           | PStr n => default a (payloads Demo.stale !! n)
           | _ => a
           end.
Proof.
  assert (Dict.get (recipes Demo.stale) "B" =
            Some (PTuple (PFun "double" :: [PStr "A"]))) as Htask
    by reflexivity.
  exact (conj Htask
    (compute_one_level "B" "double" [PStr "A"] Demo.stale Htask)).
Defined.

(** ** The step, the callback and the loop *)

Section ticks.
Context {rt : Runtime}.
Implicit Types (self : WorkflowManager.t) (items : list string).

Lemma chain_weaken tasks (via via' : string → bool) items n :
  (∀ x, via x = true → via' x = true) →
  chain tasks via items n → chain tasks via' items n.
Proof.
  intros Himp Hchain.
  induction Hchain as [items n Hin Hvia|items f fs n Hin Hvia Hfs _ IH].
  - apply chain_here; auto.
  - eapply chain_below; eauto.
Qed.

Lemma chain_reaches tasks d items n :
  bounded tasks d items = true →
  chain tasks anything items n → reaches tasks d items n = true.
Proof.
  intros Hbounded Hchain. revert d Hbounded.
  induction Hchain as [items n Hin _|items f fs n Hin _ Hfs _ IH];
    intros d Hbounded.
  - destruct d as [|d]; [destruct items; [by apply elem_of_nil in Hin|done]|].
    csimpl. apply existsb_exists. exists n.
    split; [by apply list_elem_of_In|]. by rewrite String.eqb_refl.
  - destruct d as [|d]; [destruct items; [by apply elem_of_nil in Hin|done]|].
    csimpl in *. apply existsb_exists. exists f.
    split; [by apply list_elem_of_In|]. apply orb_true_iff. right.
    pose proof (proj1 (forallb_elem _ _) Hbounded f Hin) as Hf.
    csimpl in Hf. rewrite Hfs in Hf |- *. by apply IH.
Qed.

Lemma payloads_alter_data self name value :
  data <$> alter (with_data value) name (WorkflowManager.viewer self) =
  alter (λ _, value) name (payloads self).
Proof.
  apply map_eq. intros n. unfold payloads.
  destruct (decide (n = name)) as [->|Hne].
  - rewrite lookup_fmap, !lookup_alter_eq, lookup_fmap.
    by destruct (WorkflowManager.viewer self !! name).
  - by rewrite lookup_fmap, !lookup_alter_ne, lookup_fmap.
Qed.

Lemma run_set_data fuel name value self :
  WorkflowManager.set_data fuel name value self =
  let self1 :=
    {| WorkflowManager.viewer :=
         alter (with_data value) name (WorkflowManager.viewer self);
       WorkflowManager.workflow := WorkflowManager.workflow self |} in
  match WorkflowManager.viewer self1 !! name with
  | Some layer =>
      if data_connected layer
      then WorkflowManager._layer_data_updated fuel name self1
      else (Ok tt, self1)
  | None => (Ok tt, self1)
  end.
Proof.
  unfold WorkflowManager.set_data. rewrite run_bind.
  unfold modify at 1. rewrite run_bind. unfold gets at 1. cbv zeta.
  destruct (alter (with_data value) name (WorkflowManager.viewer self)
              !! name) as [layer|] eqn:E; csimpl; rewrite E; [|done].
  by destruct (data_connected layer).
Qed.

(** Assigning a payload replaces the payload of that record, if there is
    one, and changes no other payload and no recipe, whatever the handler of
    the data event then does to the flags. *)
Lemma set_data_payloads fuel name value self :
  WorkflowManager.workflow (WorkflowManager.set_data fuel name value self).2 =
    WorkflowManager.workflow self ∧
  payloads (WorkflowManager.set_data fuel name value self).2 =
    alter (λ _, value) name (payloads self).
Proof.
  rewrite run_set_data. cbv zeta.
  set (self1 := {| WorkflowManager.viewer :=
                     alter (with_data value) name (WorkflowManager.viewer self);
                   WorkflowManager.workflow := WorkflowManager.workflow self |}).
  assert (payloads self1 = alter (λ _, value) name (payloads self)) as Hp
    by apply payloads_alter_data.
  destruct (WorkflowManager.viewer self1 !! name) as [layer|]; [|done].
  destruct (data_connected layer); [|done].
  pose proof (layer_data_updated_keeps_payloads fuel name self1) as E.
  unfold recipes_and_payloads in E. injection E as Hw' Hp'.
  by rewrite Hw', Hp'.
Qed.

Lemma run_update_layer fuel name payload self :
  WorkflowManager.update_layer fuel (Some (name, payload)) self =
  if has_record self name
  then WorkflowManager.set_data fuel name payload self
  else (Ok tt, self).
Proof.
  unfold WorkflowManager.update_layer. rewrite run_bind. unfold gets at 1.
  fold (has_record self name). by destruct (has_record self name).
Qed.

(** X21: the callback of the worker replaces the payload of the named record
    if the record exists, and touches no other payload and no recipe; a
    result for a record that is gone changes no payload at all. *)
Theorem update_layer_replaces_payload fuel (name : string) (payload : pyobj)
    self :
  WorkflowManager.workflow
    (WorkflowManager.update_layer fuel (Some (name, payload)) self).2 =
    WorkflowManager.workflow self ∧
  payloads (WorkflowManager.update_layer fuel (Some (name, payload)) self).2 =
    alter (λ _, payload) name (payloads self).
Proof.
  rewrite run_update_layer.
  destruct (has_record self name) eqn:Hhas; [apply set_data_payloads|].
  split; [done|]. csimpl. symmetry. apply map_eq. intros n.
  destruct (decide (n = name)) as [->|Hne]; [|by rewrite lookup_alter_ne].
  rewrite lookup_alter_eq. rewrite has_record_payloads in Hhas.
  destruct (payloads self !! name); [|done].
  by rewrite bool_decide_eq_true_2 in Hhas by eauto.
Qed.

Lemma run_step_selected fuel self (origins : list string) (name : string)
    (payload arr : pyobj) :
  (Workflow.roots (WorkflowManager.workflow self)).1 = Ok origins →
  WorkflowManager._search_first_invalid_layer fuel origins self =
    (Ok (Some name), self) →
  WorkflowManager._compute name self = (Ok payload, self) →
  asarray payload = Ok arr →
  WorkflowManager._update_invalid_layer fuel self =
  match WorkflowManager.set_data fuel name arr self with
  | (Ok _, self') => (Ok None, self')
  | (Raise e, self') => (Raise e, self')
  end.
Proof.
  intros Hroots Hrun Hc Harr. unfold WorkflowManager._update_invalid_layer.
  rewrite run_bind, run_roots, Hroots, run_bind, Hrun, run_bind, Hc.
  rewrite run_bind. unfold lift at 1. rewrite Harr, run_bind.
  by destruct (WorkflowManager.set_data fuel name arr self) as [[[]|e] s'].
Qed.

(** X22: a step in which the scan selects a record and the recompute
    returns leaves the recomputed value, passed through [np.asarray], as the
    payload of that record.  No other payload and no recipe has changed,
    whether or not the handler of the data event then fails. *)
Theorem step_stores_recomputed_payload fuel self (origins : list string)
    (name : string) (payload arr : pyobj) :
  (Workflow.roots (WorkflowManager.workflow self)).1 = Ok origins →
  (WorkflowManager._search_first_invalid_layer fuel origins self).1 =
    Ok (Some name) →
  (WorkflowManager._compute name self).1 = Ok payload →
  asarray payload = Ok arr →
  WorkflowManager.workflow (WorkflowManager._update_invalid_layer fuel self).2 =
    WorkflowManager.workflow self ∧
  payloads (WorkflowManager._update_invalid_layer fuel self).2 =
    <[name := arr]> (payloads self).
Proof.
  intros Hroots Hsel Hcompute Harr.
  pose proof (search_readonly fuel origins self) as Hro.
  destruct (WorkflowManager._search_first_invalid_layer fuel origins self)
    as [r self'] eqn:Hrun. csimpl in Hsel. csimpl in Hro. subst r self'.
  pose proof (compute_readonly name self) as Hcro.
  destruct (WorkflowManager._compute name self) as [r self'] eqn:Hc.
  csimpl in Hcompute. csimpl in Hcro. subst r self'.
  assert (is_Some (payloads self !! name)) as [old Hold].
  { apply search_sound in Hrun as [Hinv _].
    unfold invalid_in, invalid_record in Hinv. unfold payloads.
    rewrite lookup_fmap.
    destruct (WorkflowManager.viewer self !! name); [eauto|done]. }
  rewrite (run_step_selected fuel self origins name payload arr)
    by (rewrite ?Hrun, ?Hc; done).
  destruct (set_data_payloads fuel name arr self) as [Hw Hp].
  assert (alter (λ _, arr) name (payloads self) =
          <[name := arr]> (payloads self)) as Halter.
  { apply map_eq. intros n. destruct (decide (n = name)) as [->|Hne].
    - by rewrite lookup_alter_eq, lookup_insert_eq, Hold.
    - by rewrite lookup_alter_ne, lookup_insert_ne. }
  rewrite <-Halter.
  by destruct (WorkflowManager.set_data fuel name arr self) as [[[]|e] s'].
Qed.

(** X23: when no invalid record can be reached from the roots, the loop
    idles: any number of rounds returns and leaves the manager exactly as
    it was. *)
Theorem loop_idles_when_all_valid fuel (d ticks : nat) self
    (origins : list string) :
  (Workflow.roots (WorkflowManager.workflow self)).1 = Ok origins →
  bounded (recipes self) d origins = true →
  d < fuel →
  (∀ n, chain (recipes self) anything origins n → invalid_in self n = false) →
  WorkflowManager.loop_run fuel ticks self = (Ok tt, self).
Proof.
  intros Hroots Hbounded Hfuel Hvalid.
  destruct (search_complete d fuel origins self Hbounded Hfuel)
    as (r & Hrun & _).
  assert (r = None) as ->.
  { destruct r as [n|]; [|done].
    destruct (search_sound _ _ _ _ _ Hrun) as [Hinv Hchain].
    rewrite (Hvalid n Hchain) in Hinv. done. }
  induction ticks as [|ticks IH]; [done|].
  cbn [WorkflowManager.loop_run]. rewrite run_bind.
  unfold WorkflowManager._update_invalid_layer at 1.
  rewrite run_bind, run_roots, Hroots, run_bind, Hrun. csimpl.
  rewrite run_bind. exact IH.
Qed.

(** X24: when a layer is removed from the viewer, its recipe goes and
    nothing else: the records and the other recipes are as before, and a
    recompute of the removed name raises [KeyError]. *)
Theorem layer_removed_forgets_recipe (name : string) self :
  Dict.ok (recipes self) →
  ∃ self',
    WorkflowManager._layer_removed name self = (Ok tt, self') ∧
    WorkflowManager.viewer self' = WorkflowManager.viewer self ∧
    Dict.get (recipes self') name = None ∧
    (∀ other, other ≠ name →
       Dict.get (recipes self') other = Dict.get (recipes self) other) ∧
    WorkflowManager._compute name self' = (Raise KeyError, self').
Proof.
  intros Hok. unfold WorkflowManager._layer_removed,
    WorkflowManager.in_workflow. rewrite run_remove. eexists.
  split; [reflexivity|]. unfold recipes in *. csimpl.
  assert (Dict.get
            (if Dict.mem name (Workflow._tasks (WorkflowManager.workflow self))
             then Dict.pop (Workflow._tasks (WorkflowManager.workflow self))
                    name
             else Workflow._tasks (WorkflowManager.workflow self)) name = None)
    as Hnone.
  { destruct (Dict.mem name _) eqn:Hmem; [by apply Dict_get_pop_eq|].
    destruct (Dict.get _ name) eqn:E; [|done].
    assert (Dict.mem name (Workflow._tasks (WorkflowManager.workflow self))
            = true); [|congruence].
    apply Dict_get_mem. eauto. }
  split_and!; [done|done| |].
  - intros other Hne. destruct (Dict.mem name _); [|done].
    by apply Dict_get_pop_ne.
  - unfold WorkflowManager._compute.
    rewrite run_bind, run_get_task. unfold recipes. csimpl.
    by rewrite Hnone.
Qed.
End ticks.

Lemma step_stores_recomputed_payload_witness :
  (Workflow.roots (WorkflowManager.workflow Demo.stale)).1 = Ok ["A"] ∧
  (WorkflowManager._search_first_invalid_layer 5 ["A"] Demo.stale).1 =
    Ok (Some "B") ∧
  (WorkflowManager._compute "B" Demo.stale).1 =
    Ok (PList [PInt 2; PInt 4; PInt 6]) ∧
  asarray (PList [PInt 2; PInt 4; PInt 6]) =
    Ok (PList [PInt 2; PInt 4; PInt 6]) ∧
  WorkflowManager.workflow
    (WorkflowManager._update_invalid_layer 5 Demo.stale).2 =
    WorkflowManager.workflow Demo.stale ∧
  payloads (WorkflowManager._update_invalid_layer 5 Demo.stale).2 =
    <["B" := PList [PInt 2; PInt 4; PInt 6]]> (payloads Demo.stale).
Proof.
  assert ((Workflow.roots (WorkflowManager.workflow Demo.stale)).1 =
            Ok ["A"]) as Hroots by reflexivity.
  assert ((WorkflowManager._search_first_invalid_layer 5 ["A"]
             Demo.stale).1 = Ok (Some "B")) as Hsel
    by (vm_compute; reflexivity).
  assert ((WorkflowManager._compute "B" Demo.stale).1 =
            Ok (PList [PInt 2; PInt 4; PInt 6])) as Hc
    by (vm_compute; reflexivity).
  assert (asarray (PList [PInt 2; PInt 4; PInt 6]) =
            Ok (PList [PInt 2; PInt 4; PInt 6])) as Harr by reflexivity.
  exact (conj Hroots (conj Hsel (conj Hc (conj Harr
    (step_stores_recomputed_payload 5 Demo.stale ["A"] "B" _ _
       Hroots Hsel Hc Harr))))).
Defined.

(** In the graph [B = double(A)], [C = increment(B)] nothing below [A]
    leads back to the name it started from. *)
Lemma abc_acyclic (items : list string) (n : string) :
  reaches (Workflow._tasks Demo.abc) 3 items n = false →
  bounded (Workflow._tasks Demo.abc) 3 items = true →
  ¬ chain (Workflow._tasks Demo.abc) anything items n.
Proof.
  intros Hno Hbounded Hchain.
  rewrite (chain_reaches _ _ _ _ Hbounded Hchain) in Hno. done.
Qed.

Lemma loop_idles_when_all_valid_witness :
  (Workflow.roots (WorkflowManager.workflow Demo.fresh)).1 = Ok ["A"] ∧
  bounded (recipes Demo.fresh) 3 ["A"] = true ∧
  3 < 5 ∧
  (∀ n, chain (recipes Demo.fresh) anything ["A"] n →
        invalid_in Demo.fresh n = false) ∧
  WorkflowManager.loop_run 5 4 Demo.fresh = (Ok tt, Demo.fresh).
Proof.
  assert ((Workflow.roots (WorkflowManager.workflow Demo.fresh)).1 =
            Ok ["A"]) as Hroots by reflexivity.
  assert (bounded (recipes Demo.fresh) 3 ["A"] = true) as Hbounded
    by reflexivity.
  assert (3 < 5) as Hfuel by lia.
  assert (∀ n, chain (recipes Demo.fresh) anything ["A"] n →
               invalid_in Demo.fresh n = false) as Hvalid.
  { intros n Hchain.
    pose proof (chain_reaches _ _ _ _ Hbounded Hchain) as Hn.
    destruct (decide (n = "A")) as [->|HA]; [by vm_compute|].
    destruct (decide (n = "B")) as [->|HB]; [by vm_compute|].
    destruct (decide (n = "C")) as [->|HC]; [by vm_compute|].
    apply String.eqb_neq in HA, HB, HC.
    rewrite String.eqb_sym in HA. rewrite String.eqb_sym in HB.
    rewrite String.eqb_sym in HC.
    vm_compute in Hn. vm_compute in HA. vm_compute in HB. vm_compute in HC.
    rewrite HA, HB, HC in Hn. done. }
  exact (conj Hroots (conj Hbounded (conj Hfuel (conj Hvalid
    (loop_idles_when_all_valid 5 3 4 Demo.fresh ["A"]
       Hroots Hbounded Hfuel Hvalid))))).
Defined.

Lemma layer_removed_forgets_recipe_witness :
  Dict.ok (recipes Demo.fresh) ∧
  ∃ self',
    WorkflowManager._layer_removed "B" Demo.fresh = (Ok tt, self') ∧
    WorkflowManager.viewer self' = WorkflowManager.viewer Demo.fresh ∧
    Dict.get (recipes self') "B" = None ∧
    (∀ other, other ≠ "B" →
       Dict.get (recipes self') other = Dict.get (recipes Demo.fresh) other) ∧
    WorkflowManager._compute "B" self' = (Raise KeyError, self').
Proof.
  assert (Dict.ok (recipes Demo.fresh)) as Hok by compute_done.
  exact (conj Hok (layer_removed_forgets_recipe "B" Demo.fresh Hok)).
Defined.

(** ** The data event and the validity of its source *)

Section data_event.
Context {rt : Runtime}.
Implicit Types (self : WorkflowManager.t) (items : list string).

(** The loop of [_layer_data_updated] leaves alone a record that no chain
    below the followers of the followers leads to. *)
Lemma data_event_loop_elsewhere fuel self0 (source : string) fs :
  ∀ self,
    touched self0 self →
    (∀ f fs', f ∈ fs → followers (recipes self0) f = Ok fs' →
              ¬ chain (recipes self0) (has_record self0) fs' source) →
    WorkflowManager.viewer
      (for_each fs (λ f,
         has_layer ← gets (λ self,
           _viewer_has_layer (WorkflowManager.viewer self) f);
         if has_layer : bool then
           followers ← WorkflowManager.in_workflow (Workflow.followers_of f);
           WorkflowManager.invalidate fuel followers
         else mret tt) self).2 !! source =
    WorkflowManager.viewer self !! source.
Proof.
  induction fs as [|f fs IH]; intros self Ht Hno; [done|].
  cbn [for_each]. rewrite run_bind, run_bind. unfold gets at 1.
  fold (has_record self f).
  assert (∀ f' fs', f' ∈ fs → followers (recipes self0) f' = Ok fs' →
            ¬ chain (recipes self0) (has_record self0) fs' source) as Hno'.
  { intros f' fs' Hf'. apply Hno, elem_of_cons. by right. }
  destruct (has_record self f); [|by apply IH].
  rewrite run_bind, run_followers, (touched_recipes _ _ Ht).
  destruct (followers (recipes self0) f) as [fs'|e] eqn:Hfs; [|done].
  pose proof (invalidate_touched fuel fs' self) as Ht'.
  pose proof (invalidate_elsewhere fuel fs' self source) as Helse.
  destruct (WorkflowManager.invalidate fuel fs' self) as [[[]|e] self']
    eqn:Hrun; csimpl in *.
  - rewrite IH; [|by eapply touched_trans|done].
    apply Helse. rewrite (touched_recipes _ _ Ht). intros Hchain.
    eapply (Hno f fs'); [apply elem_of_cons; by left|done|].
    eapply chain_ext; [|exact Hchain].
    intros x. by apply touched_has_record.
  - apply Helse. rewrite (touched_recipes _ _ Ht). intros Hchain.
    eapply (Hno f fs'); [apply elem_of_cons; by left|done|].
    eapply chain_ext; [|exact Hchain].
    intros x. by apply touched_has_record.
Qed.
Lemma run_layer_data_updated fuel (source : string) self :
  WorkflowManager._layer_data_updated fuel source self =
  let self1 :=
    {| WorkflowManager.viewer :=
         alter (with_metadata METADATA_WORKFLOW_VALID_KEY (PBool true)) source
           (WorkflowManager.viewer self);
       WorkflowManager.workflow := WorkflowManager.workflow self |} in
  match followers (recipes self) source with
  | Ok fs =>
      for_each fs (λ f,
        has_layer ← gets (λ self,
          _viewer_has_layer (WorkflowManager.viewer self) f);
        if has_layer : bool then
          followers ← WorkflowManager.in_workflow (Workflow.followers_of f);
          WorkflowManager.invalidate fuel followers
        else mret tt) self1
  | Raise e => (Raise e, self1)
  end.
Proof.
  unfold WorkflowManager._layer_data_updated. rewrite run_bind.
  unfold WorkflowManager.set_metadata, modify at 1.
  rewrite run_bind, run_followers. cbv zeta.
  change (recipes {| WorkflowManager.viewer := _;
                     WorkflowManager.workflow := WorkflowManager.workflow self |})
    with (recipes self).
  by destruct (followers (recipes self) source).
Qed.

(** After the handler has run for a record that does not depend on itself,
    the flag of that record is [True], whether the handler returned or
    raised. *)
Lemma data_event_source_flag fuel (source : string) self :
  has_record self source = true →
  (∀ fs, followers (recipes self) source = Ok fs →
         ¬ chain (recipes self) anything fs source) →
  valid_flag
    (WorkflowManager.viewer
       (WorkflowManager._layer_data_updated fuel source self).2) source =
    Some (PBool true).
Proof.
  intros Hhas Hacyclic. rewrite run_layer_data_updated. cbv zeta.
  set (self1 := {| WorkflowManager.viewer :=
                     alter (with_metadata METADATA_WORKFLOW_VALID_KEY
                              (PBool true)) source
                       (WorkflowManager.viewer self);
                   WorkflowManager.workflow := WorkflowManager.workflow self |}).
  assert (valid_flag (WorkflowManager.viewer self1) source = Some (PBool true))
    as Hflag.
  { unfold valid_flag, self1. csimpl. rewrite lookup_alter_eq.
    unfold has_record, _viewer_has_layer in Hhas.
    destruct (WorkflowManager.viewer self !! source); [|done].
    csimpl. apply lookup_insert_eq. }
  assert (∀ x, has_record self1 x = has_record self x) as Hrec.
  { intros x. unfold has_record, _viewer_has_layer, self1. csimpl.
    destruct (decide (x = source)) as [->|Hne].
    - rewrite lookup_alter_eq.
      by destruct (WorkflowManager.viewer self !! source).
    - by rewrite lookup_alter_ne. }
  destruct (followers (recipes self) source) as [fs|e] eqn:Hfs; [|done].
  unfold valid_flag in *.
  rewrite (data_event_loop_elsewhere fuel self1 source fs self1);
    [done|apply touched_refl|].
  intros f fs' Hf Hfs' Hchain. apply (Hacyclic fs eq_refl).
  eapply chain_below; [exact Hf|done|exact Hfs'|].
  eapply chain_weaken; [|exact Hchain]. done.
Qed.

(** X25: a data event leaves its source valid.  After the handler has run
    for a record that does not depend on itself, directly or through other
    recipes, the flag of the record is [True] and the scan does not take it
    for invalid, whether the handler returned or raised. *)
Theorem data_event_marks_source_valid fuel (source : string) self :
  has_record self source = true →
  (∀ fs, followers (recipes self) source = Ok fs →
         ¬ chain (recipes self) anything fs source) →
  valid_flag
    (WorkflowManager.viewer
       (WorkflowManager._layer_data_updated fuel source self).2) source =
    Some (PBool true) ∧
  invalid_in (WorkflowManager._layer_data_updated fuel source self).2 source =
    false.
Proof.
  intros Hhas Hacyclic.
  pose proof (data_event_source_flag fuel source self Hhas Hacyclic) as Hflag.
  split; [done|]. unfold invalid_in, invalid_record, _layer_invalid.
  unfold valid_flag in Hflag.
  destruct (WorkflowManager.viewer _ !! source) as [layer|]; [|done].
  csimpl in Hflag. by rewrite Hflag.
Qed.

(** X26: a step that recomputes a record whose data event is connected
    leaves that record valid, provided the record does not depend on
    itself: the next scan does not select it again. *)
Theorem step_leaves_recomputed_valid fuel self (origins : list string)
    (name : string) (payload arr : pyobj) :
  (Workflow.roots (WorkflowManager.workflow self)).1 = Ok origins →
  (WorkflowManager._search_first_invalid_layer fuel origins self).1 =
    Ok (Some name) →
  (WorkflowManager._compute name self).1 = Ok payload →
  asarray payload = Ok arr →
  data_connected <$> WorkflowManager.viewer self !! name = Some true →
  (∀ fs, followers (recipes self) name = Ok fs →
         ¬ chain (recipes self) anything fs name) →
  valid_flag
    (WorkflowManager.viewer (WorkflowManager._update_invalid_layer fuel self).2)
    name = Some (PBool true).
Proof.
  intros Hroots Hsel Hcompute Harr Hconn Hacyclic.
  pose proof (search_readonly fuel origins self) as Hro.
  destruct (WorkflowManager._search_first_invalid_layer fuel origins self)
    as [r self'] eqn:Hrun. csimpl in Hsel. csimpl in Hro. subst r self'.
  pose proof (compute_readonly name self) as Hcro.
  destruct (WorkflowManager._compute name self) as [r self'] eqn:Hc.
  csimpl in Hcompute. csimpl in Hcro. subst r self'.
  rewrite (run_step_selected fuel self origins name payload arr) by done.
  assert ((WorkflowManager.set_data fuel name arr self).2 =
          (WorkflowManager._layer_data_updated fuel name
             {| WorkflowManager.viewer :=
                  alter (with_data arr) name (WorkflowManager.viewer self);
                WorkflowManager.workflow := WorkflowManager.workflow self |}).2)
    as Hset.
  { rewrite run_set_data. cbv zeta. csimpl. rewrite lookup_alter_eq.
    destruct (WorkflowManager.viewer self !! name) as [layer|]; [|done].
    csimpl in *. injection Hconn as ->. done. }
  assert ((match WorkflowManager.set_data fuel name arr self with
           | (Ok _, self') => (Ok (None : option (string * pyobj)), self')
           | (Raise e, self') => (Raise e, self')
           end).2 = (WorkflowManager.set_data fuel name arr self).2) as ->
    by by destruct (WorkflowManager.set_data fuel name arr self)
         as [[[]|e] s'].
  rewrite Hset. apply data_event_source_flag; [|exact Hacyclic].
  unfold has_record, _viewer_has_layer. csimpl. rewrite lookup_alter_eq.
  by destruct (WorkflowManager.viewer self !! name).
Qed.
End data_event.

Lemma data_event_marks_source_valid_witness :
  has_record Demo.stale "B" = true ∧
  (∀ fs, followers (recipes Demo.stale) "B" = Ok fs →
         ¬ chain (recipes Demo.stale) anything fs "B") ∧
  valid_flag
    (WorkflowManager.viewer
       (WorkflowManager._layer_data_updated 5 "B" Demo.stale).2) "B" =
    Some (PBool true) ∧
  invalid_in (WorkflowManager._layer_data_updated 5 "B" Demo.stale).2 "B" =
    false.
Proof.
  assert (has_record Demo.stale "B" = true) as Hhas by reflexivity.
  assert (∀ fs, followers (recipes Demo.stale) "B" = Ok fs →
                ¬ chain (recipes Demo.stale) anything fs "B") as Hacyclic.
  { intros fs [= <-]. by apply abc_acyclic. }
  exact (conj Hhas (conj Hacyclic
    (data_event_marks_source_valid 5 "B" Demo.stale Hhas Hacyclic))).
Defined.

Lemma step_leaves_recomputed_valid_witness :
  (Workflow.roots (WorkflowManager.workflow Demo.stale)).1 = Ok ["A"] ∧
  (WorkflowManager._search_first_invalid_layer 5 ["A"] Demo.stale).1 =
    Ok (Some "B") ∧
  (WorkflowManager._compute "B" Demo.stale).1 =
    Ok (PList [PInt 2; PInt 4; PInt 6]) ∧
  asarray (PList [PInt 2; PInt 4; PInt 6]) =
    Ok (PList [PInt 2; PInt 4; PInt 6]) ∧
  data_connected <$> WorkflowManager.viewer Demo.stale !! "B" = Some true ∧
  (∀ fs, followers (recipes Demo.stale) "B" = Ok fs →
         ¬ chain (recipes Demo.stale) anything fs "B") ∧
  valid_flag
    (WorkflowManager.viewer (WorkflowManager._update_invalid_layer 5 Demo.stale).2)
    "B" = Some (PBool true).
Proof.
  assert ((Workflow.roots (WorkflowManager.workflow Demo.stale)).1 =
            Ok ["A"]) as Hroots by reflexivity.
  assert ((WorkflowManager._search_first_invalid_layer 5 ["A"]
             Demo.stale).1 = Ok (Some "B")) as Hsel
    by (vm_compute; reflexivity).
  assert ((WorkflowManager._compute "B" Demo.stale).1 =
            Ok (PList [PInt 2; PInt 4; PInt 6])) as Hc
    by (vm_compute; reflexivity).
  assert (asarray (PList [PInt 2; PInt 4; PInt 6]) =
            Ok (PList [PInt 2; PInt 4; PInt 6])) as Harr by reflexivity.
  assert (data_connected <$> WorkflowManager.viewer Demo.stale !! "B" =
            Some true) as Hconn by reflexivity.
  assert (∀ fs, followers (recipes Demo.stale) "B" = Ok fs →
                ¬ chain (recipes Demo.stale) anything fs "B") as Hacyclic.
  { intros fs [= <-]. by apply abc_acyclic. }
  exact (conj Hroots (conj Hsel (conj Hc (conj Harr (conj Hconn (conj Hacyclic
    (step_leaves_recomputed_valid 5 Demo.stale ["A"] "B" _ _
       Hroots Hsel Hc Harr Hconn Hacyclic))))))).
Defined.

Lemma update_layer_drops_orphan_witness :
  has_record Demo.gap "B" = false ∧
  WorkflowManager.update_layer 5 (Some ("B", Demo.one_two_three)) Demo.gap =
    (Ok tt, Demo.gap).
Proof.
  assert (has_record Demo.gap "B" = false) as Hgone by reflexivity.
  exact (conj Hgone
    (update_layer_drops_orphan 5 Demo.gap "B" Demo.one_two_three Hgone)).
Defined.

(** ** The scan on a dependency cycle *)

Section scan_cycle.
Implicit Types (self : WorkflowManager.t) (items : list string).

(** X27: a dependency cycle below the scanned names, with no invalid record
    in reach, exhausts every recursion depth.  If [C] is a set of names each
    of which has a follower in [C] again, and one of the items is in [C],
    the scan raises [RecursionError] however deep it may recurse. *)
Theorem scan_on_cycle self (C : string → Prop) items (g : string)
    (fuel : nat) :
  (∀ x, C x → ∃ fs y, followers (recipes self) x = Ok fs ∧ y ∈ fs ∧ C y) →
  (∀ n, chain (recipes self) anything items n → invalid_in self n = false) →
  g ∈ items →
  C g →
  (WorkflowManager._search_first_invalid_layer fuel items self).1 =
    Raise RecursionError.
Proof.
  intros Hcycle Hvalid Hg HCg.
  assert (tasks_iterable (recipes self) = true) as Hit.
  { destruct (Hcycle g HCg) as (fs & y & Hfs & _).
    by eapply followers_Ok_iterable. }
  revert items Hvalid Hg. revert g HCg.
  induction fuel as [|fuel IHfuel]; intros g HCg items Hvalid Hg; [done|].
  rewrite search_unfold.
  destruct (find (invalid_in self) items) as [i|] eqn:Hfind.
  { apply find_some in Hfind as [Hi Hinv].
    rewrite Hvalid in Hinv; [done|].
    apply chain_here; [by apply list_elem_of_In|done]. }
  clear Hfind. induction items as [|x items IHitems].
  { by apply elem_of_nil in Hg. }
  rewrite below_cons.
  assert (∀ fs, followers (recipes self) x = Ok fs →
            ∀ n, chain (recipes self) anything fs n →
                 invalid_in self n = false) as Hbelow.
  { intros fs Hfs n Hchain. apply Hvalid.
    eapply chain_below; [apply elem_of_cons; by left|done|done|done]. }
  destruct (followers_iterable _ x Hit) as [fs Hfs]. rewrite Hfs.
  pose proof (search_readonly fuel fs self) as Hro.
  pose proof (search_raises fuel fs self) as Hr.
  apply elem_of_cons in Hg as [->|Hg].
  - destruct (Hcycle x HCg) as (fs' & y & Hfs' & Hy & HCy).
    assert (fs' = fs) as -> by congruence.
    pose proof (IHfuel y HCy fs (Hbelow fs Hfs) Hy) as Hsub.
    by destruct (WorkflowManager._search_first_invalid_layer fuel fs self)
      as [[[n|]|e] self'].
  - destruct (WorkflowManager._search_first_invalid_layer fuel fs self)
      as [[[n|]|e] self'] eqn:Hrun; csimpl in *; subst self'.
    + apply search_sound in Hrun as [Hinv Hchain].
      rewrite (Hbelow fs Hfs n Hchain) in Hinv. done.
    + apply IHitems; [|done]. intros n Hchain. apply Hvalid.
      eapply chain_mono; [|exact Hchain].
      intros z Hz. apply elem_of_cons. by right.
    + f_equal. by apply Hr.
Qed.
End scan_cycle.

Lemma scan_on_cycle_witness :
  (∀ x, x = "A" →
        ∃ fs y, followers (recipes Demo.selfloop) x = Ok fs ∧
                y ∈ fs ∧ y = "A") ∧
  (∀ n, chain (recipes Demo.selfloop) anything ["A"] n →
        invalid_in Demo.selfloop n = false) ∧
  "A" ∈ ["A"] ∧
  "A" = "A" ∧
  (WorkflowManager._search_first_invalid_layer 7 ["A"] Demo.selfloop).1 =
    Raise RecursionError.
Proof.
  assert (∀ x, x = "A" →
            ∃ fs y, followers (recipes Demo.selfloop) x = Ok fs ∧
                    y ∈ fs ∧ y = "A") as Hcycle.
  { intros x ->. exists ["A"], "A".
    split_and!; [reflexivity| |reflexivity]. apply elem_of_cons. by left. }
  assert (∀ n, invalid_in Demo.selfloop n = false) as Hall.
  { intros n. unfold invalid_in, invalid_record, Demo.selfloop, Demo.manager.
    csimpl. destruct (decide (n = "A")) as [->|Hne]; [by vm_compute|].
    rewrite insert_empty, lookup_singleton_ne by done. done. }
  assert ("A" ∈ ["A"]) as Hin by (apply elem_of_cons; by left).
  exact (conj Hcycle (conj (λ n _, Hall n) (conj Hin (conj eq_refl
    (scan_on_cycle Demo.selfloop (λ x, x = "A") ["A"] "A" 7
       Hcycle (λ n _, Hall n) Hin eq_refl))))).
Defined.
